(** * OpenAuth storage and client: a shallow embedding

    The development follows the two source files of the repository:

    - [storage/memory.ts] together with [storage/storage.ts]: the key codec
      ([joinKey], [splitKey], [encode]), the sorted in-memory key-value
      adapter ([MemoryStorage]: [search], [get], [set], [remove], [scan]) and
      the OAuth facade built on it by [createKvStore];
    - the client ([createClient]): [refresh] and [verify].

    Conventions.  JavaScript strings are modelled by [string], a code unit
    by a character of it; time values (milliseconds since the epoch), ttl
    values and array indices are integers of [Z] (the number NaN is left
    out); an [undefined] result is [None]; an exception (a rejected promise)
    is the outcome [Throw]; a loop or recursion of the source is a function
    with fuel whose exhaustion is the outcome [Diverge], and the statements
    that a call returns show that the fuel is never used up.  What the code
    takes from its host is a parameter: the collation of [localeCompare]
    (class [Collator]), [JSON.stringify] and [writeFile] as [save] uses them
    (class [Disk], both may fail), [fetch] and the functions of [jose]
    (class [Env]), the [URL] constructor and [generatePKCE] (class
    [Host]). *)

From Stdlib Require Import ZArith String Ascii List Bool Lia.
From stdpp Require Import base list strings gmap.

Local Open Scope string_scope.
Local Open Scope Z_scope.

(** ** Outcomes of a call *)

Inductive error : Type :=
  | TypeError
  | SyntaxError
  | NetworkError
  | JWTInvalid
  | JWTExpired
  | JWTClaimInvalid
  | SystemError.

Inductive outcome (A : Type) : Type :=
  | Return (a : A)
  | Throw (e : error)
  | Diverge.

Arguments Return {A} a.
Arguments Throw {A} e.
Arguments Diverge {A}.

(** ** Key codec ([storage.ts]) *)

Module KeyCodec.

(** [const SEPERATOR = String.fromCharCode(0x1f)] *)
Definition SEPERATOR_char : ascii := ascii_of_nat 31.
Definition SEPERATOR : string := String SEPERATOR_char EmptyString.

(** [Array.prototype.join]: the elements separated by [sep]; the empty
    array gives the empty string. *)
Fixpoint join (sep : string) (xs : list string) : string :=
  match xs with
  | [] => ""
  | [x] => x
  | x :: rest => x ++ sep ++ join sep rest
  end.

(** [String.prototype.split] with a separator of one code unit: the pieces
    between the occurrences of [c]; the empty string gives one empty
    piece. *)
Fixpoint split (c : ascii) (s : string) : list string :=
  match s with
  | EmptyString => [""]
  | String a s' =>
      if Ascii.eqb a c then "" :: split c s'
      else match split c s' with
           | [] => [String a ""]
           | piece :: pieces => String a piece :: pieces
           end
  end.

(** [k.replaceAll(SEPERATOR, "")] *)
Fixpoint strip (c : ascii) (s : string) : string :=
  match s with
  | EmptyString => ""
  | String a s' => if Ascii.eqb a c then strip c s' else String a (strip c s')
  end.

Definition joinKey (key : list string) : string := join SEPERATOR key.

Definition splitKey (key : string) : list string := split SEPERATOR_char key.

Definition encode (key : list string) : list string :=
  map (strip SEPERATOR_char) key.

(** [s] has no occurrence of the code unit [c]. *)
Fixpoint free_of (c : ascii) (s : string) : Prop :=
  match s with
  | EmptyString => True
  | String a s' => a <> c /\ free_of c s'
  end.

(** [String.prototype.startsWith] *)
Definition startsWith (s p : string) : bool := String.prefix p s.

End KeyCodec.

Export KeyCodec.

(** ** The collation behind [String.prototype.localeCompare]

    [search] orders keys with [key.localeCompare(other)], whose result is
    fixed by the host's collation and not by the repository.  It is a
    parameter of the development; [CollatorLaws] states what the binary
    search relies on: the comparison is a total preorder (keys may collate
    as equal without being identical). *)

Class Collator : Type := { localeCompare : string -> string -> comparison }.

Class CollatorLaws (C : Collator) : Prop := {
  collate_antisym : forall a b, localeCompare b a = CompOpp (localeCompare a b);
  collate_trans : forall a b c,
    localeCompare a b = Lt -> localeCompare b c = Lt -> localeCompare a c = Lt;
  collate_eq_compat : forall a b c,
    localeCompare a b = Eq -> localeCompare a c = localeCompare b c
}.

(** Two concrete collations, both comparing strings position by position on
    a weight of each code unit. *)
Fixpoint lex_compare (w : ascii -> N) (a b : string) : comparison :=
  match a, b with
  | EmptyString, EmptyString => Eq
  | EmptyString, String _ _ => Lt
  | String _ _, EmptyString => Gt
  | String x a', String y b' =>
      match N.compare (w x) (w y) with
      | Eq => lex_compare w a' b'
      | c => c
      end
  end.

(** Ordinal comparison: the weight is the code unit itself. *)
Definition ordinal_collator : Collator :=
  {| localeCompare := lex_compare N_of_ascii |}.

(** An alphabetic collation in the manner of the default locale order on
    ASCII letters: letters sort by their lowercase form, the lowercase one
    first ("a" < "A" < "b" < "B"), any other code unit by its value. *)
Definition alphabetic_weight (c : ascii) : N :=
  let n := N_of_ascii c in
  if ((65 <=? n) && (n <=? 90))%N then (2 * (n + 32) + 1)%N else (2 * n)%N.

Definition alphabetic_collator : Collator :=
  {| localeCompare := lex_compare alphabetic_weight |}.

(** A collation that gives the separator no weight, in the manner of
    collations that ignore control characters: strings are compared by
    their code units once the separator has been taken out of them. *)
Definition separator_blind_collator : Collator :=
  {| localeCompare := fun a b =>
       lex_compare N_of_ascii (strip SEPERATOR_char a)
         (strip SEPERATOR_char b) |}.

(** Ascending order of code units, the "byte order" of flat keys. *)
Definition ordinal_lt (a b : string) : Prop := lex_compare N_of_ascii a b = Lt.

(** ** State and exception monad *)

Definition M (S A : Type) : Type := S -> outcome A * S.

Definition ret {S A} (a : A) : M S A := fun s => (Return a, s).

Definition throw {S A} (e : error) : M S A := fun s => (Throw e, s).

Definition diverge {S A} : M S A := fun s => (Diverge, s).

Definition bind {S A B} (c : M S A) (k : A -> M S B) : M S B :=
  fun s =>
    match c s with
    | (Return a, s') => k a s'
    | (Throw e, s') => (Throw e, s')
    | (Diverge, s') => (Diverge, s')
    end.

Definition lift {S A} (o : outcome A) : M S A := fun s => (o, s).

Definition modify {S} (f : S -> S) : M S unit := fun s => (Return tt, f s).

Definition gets {S A} (f : S -> A) : M S A := fun s => (Return (f s), s).

#[global] Instance M_ret {S} : MRet (M S) := fun A a => ret a.
#[global] Instance M_bind {S} : MBind (M S) := fun A B k c => bind c k.

(** A settled promise of the outside world: fulfilled with a value or
    rejected with an exception. *)
Inductive settled (A : Type) : Type :=
  | Fulfilled (a : A)
  | Rejected (e : error).

Arguments Fulfilled {A} a.
Arguments Rejected {A} e.

(** [await p] *)
Definition await {S A} (p : settled A) : M S A :=
  fun s =>
    match p with
    | Fulfilled a => (Return a, s)
    | Rejected e => (Throw e, s)
    end.

(** ** The in-memory adapter ([storage/memory.ts]) *)

Module Memory.

Record MemoryStorageOptions : Type := { persist : option string }.

(** [MemoryStorage()], with no file to persist to. *)
Definition no_persist : MemoryStorageOptions := {| persist := None |}.

(** Truthiness of an optional string: [undefined] and [""] are falsy. *)
Definition truthy (s : option string) : bool :=
  match s with
  | Some EmptyString | None => false
  | Some _ => true
  end.

(** The third argument [set] receives at run time: nothing, a [Date] with
    its time value, or (from [createKvStore]) a ttl number. *)
Inductive expiry_arg : Type :=
  | Undefined
  | DateObj (time : Z)
  | Number (n : Z).

(** [{ found, index }] *)
Record match_result : Type := { found : bool; index : Z }.

Section MemoryStorage.

Context {V : Type} {C : Collator}.
Variable input : MemoryStorageOptions.

(** [{ value: Record<string, any>; expiry?: number }] *)
Record entry : Type := { value : V; expiry : option Z }.

(** A row of the store: [[key, entry]]. *)
Local Abbreviation row := (string * entry)%type.

(** What [save] takes from outside the repository.  [JSON.stringify(store)]
    gives the text of the file, stood for by the rows it renders, or throws
    (on a value that has no JSON text); [writeFile] of [fs/promises] settles
    as the file system decides, which may depend on the calls made before,
    on the path and on the text. *)
Class Disk : Type := {
  JSON_stringify : list row -> settled (list row);
  writeFile : list (string * list row) -> string -> list row -> settled unit
}.

Context {D : Disk}.

(** The closure state: the [store] array, and the calls of [writeFile]
    made by [save], each with its path and text, latest first, whether
    the write succeeded or not. *)
Record mem : Type := { store : list row; writes : list (string * list row) }.

(** [store[i]]: [undefined] outside the array. *)
Definition at_index (st : list row) (i : Z) : option row :=
  if i <? 0 then None else st !! Z.to_nat i.

(** [store.splice(i, 0, r)], for [0 <= i]. *)
Definition splice_in (i : Z) (r : row) (st : list row) : list row :=
  take (Z.to_nat i) st ++ r :: drop (Z.to_nat i) st.

(** [store.splice(i, 1)], for [0 <= i]. *)
Definition splice_out (i : Z) (st : list row) : list row :=
  take (Z.to_nat i) st ++ drop (S (Z.to_nat i)) st.

(** [store[i] = r], for [0 <= i < store.length] (the only use follows a
    successful [search]). *)
Definition assign (i : Z) (r : row) (st : list row) : list row :=
  <[Z.to_nat i := r]> st.

(** [save]: nothing without a path to persist to; otherwise the store is
    rendered and handed to [writeFile], and [save] settles as these do. *)
Definition save : M mem unit :=
  if negb (truthy (persist input)) then ret tt
  else
    let path := default "" (persist input) in
    st ← gets store;
    file ← await (JSON_stringify st);
    earlier ← gets writes;
    modify (fun m => {| store := store m;
                        writes := (path, file) :: writes m |});;
    await (writeFile earlier path file).

(** The [while (left <= right)] loop of [search]. *)
Fixpoint search_loop (fuel : nat) (st : list row) (key : string)
    (left right : Z) : outcome match_result :=
  match fuel with
  | O => Diverge
  | S fuel' =>
      if left <=? right then
        let mid := (left + right) / 2 in
        match at_index st mid with
        | None => Throw TypeError
        | Some (k, _) =>
            match localeCompare key k with
            | Eq => Return {| found := true; index := mid |}
            | Lt => search_loop fuel' st key left (mid - 1)
            | Gt => search_loop fuel' st key (mid + 1) right
            end
        end
      else Return {| found := false; index := left |}
  end.

Definition search (st : list row) (key : string) : outcome match_result :=
  search_loop (S (length st)) st key 0 (Z.of_nat (length st) - 1).

(** [entry.expiry && now >= entry.expiry]: an absent expiry and the
    number 0 are falsy. *)
Definition expired (now : Z) (e : entry) : bool :=
  match expiry e with
  | None => false
  | Some t => negb (t =? 0) && (now >=? t)
  end.

Definition get (now : Z) (key : list string) : M mem (option V) :=
  st ← gets store;
  mt ← lift (search st (joinKey key));
  if negb (found mt) then ret None
  else
    match at_index st (index mt) with
    | None => throw TypeError
    | Some (_, e) =>
        if expired now e then
          modify (fun m => {| store := splice_out (index mt) (store m);
                              writes := writes m |});;
          save;;
          ret None
        else ret (Some (value e))
    end.

(** [expiry ? expiry.getTime() : expiry] *)
Definition expiry_field (ex : expiry_arg) : outcome (option Z) :=
  match ex with
  | Undefined => Return None
  | DateObj t => Return (Some t)
  | Number n => if n =? 0 then Return (Some 0) else Throw TypeError
  end.

Definition set (key : list string) (v : V) (ex : expiry_arg) : M mem unit :=
  let joined := joinKey key in
  st ← gets store;
  mt ← lift (search st joined);
  t ← lift (expiry_field ex);
  let r : row := (joined, {| value := v; expiry := t |}) in
  modify (fun m =>
    {| store := if negb (found mt) then splice_in (index mt) r (store m)
                else assign (index mt) r (store m);
       writes := writes m |});;
  save.

Definition remove (key : list string) : M mem unit :=
  let joined := joinKey key in
  st ← gets store;
  mt ← lift (search st joined);
  if found mt then
    modify (fun m => {| store := splice_out (index mt) (store m);
                        writes := writes m |});;
    save
  else ret tt.

(** *** [scan], an async generator

    Nothing runs when [scan(prefix)] is called.  The first [next()]
    reads the clock and joins the prefix; every [next()] then resumes
    the [for ... of store] loop, whose array iterator holds an index
    into the live [store]. *)
Inductive scan_gen : Type :=
  | Suspended_start (prefix : list string)
  | Suspended_yield (now : Z) (prefixStr : string) (next_index : nat)
  | Completed.

(** What [scan] yields: [[splitKey(key), entry.value]]. *)
Local Abbreviation item := (list string * V)%type.

Definition scan (prefix : list string) : scan_gen := Suspended_start prefix.

(** The loop from array index [i], [rest] being the rows from [i] on:
    the next yielded item and the index after it. *)
Fixpoint scan_resume (now : Z) (prefixStr : string) (rest : list row)
    (i : nat) : option (item * nat) :=
  match rest with
  | [] => None
  | (key, e) :: rest' =>
      if negb (startsWith key prefixStr) then
        scan_resume now prefixStr rest' (S i)
      else if expired now e then scan_resume now prefixStr rest' (S i)
      else Some ((splitKey key, value e), S i)
  end.

(** One [next()] at clock reading [clock]. *)
Definition scan_next (clock : Z) (g : scan_gen)
    : M mem (option item * scan_gen) :=
  let run now prefixStr i :=
    st ← gets store;
    match scan_resume now prefixStr (drop i st) i with
    | Some (it, i') => ret (Some it, Suspended_yield now prefixStr i')
    | None => ret (None, Completed)
    end in
  match g with
  | Suspended_start prefix => run clock (joinKey prefix) 0%nat
  | Suspended_yield now prefixStr i => run now prefixStr i
  | Completed => ret (None, Completed)
  end.

(** [for await (const it of g) { body(it) }]; the result lists the
    items the generator yielded, in order. *)
Fixpoint for_await (fuel : nat) (clock : Z) (g : scan_gen)
    (body : item -> M mem unit) : M mem (list item) :=
  match fuel with
  | O => diverge
  | S fuel' =>
      '(it, g') ← scan_next clock g;
      match it with
      | None => ret []
      | Some x =>
          body x;;
          rest ← for_await fuel' clock g' body;
          ret (x :: rest)
      end
  end.

(** *** [createKvStore] over this adapter ([storage.ts]) *)

Definition getOauthCode (now : Z) (code : string) : M mem (option V) :=
  get now (encode ["oauth:code"; code]).

Definition getRefreshToken (now : Z) (subject refreshToken : string)
    : M mem (option V) :=
  get now (encode ["oauth:refresh"; subject; refreshToken]).

Definition setAuthorizationCode (code : string) (properties : V) (ttl : Z)
    : M mem unit :=
  set (encode ["oauth:code"; code]) properties (Number ttl).

Definition setRefreshToken (subject refreshToken : string) (properties : V)
    (ttl : Z) : M mem unit :=
  set (encode ["oauth:refresh"; subject; refreshToken]) properties
    (Number ttl).

Definition invalidateOauthCode (code : string) : M mem unit :=
  remove (encode ["oauth:code"; code]).

(** The loop of [invalidateKeys]; the fuel covers one iteration per row
    of the store at the time of the call, and the final [next()]. *)
Definition invalidateKeys_yields (clock : Z) (subject : string)
    : M mem (list item) :=
  fun m =>
    for_await (S (length (store m))) clock
      (scan ["oauth:refresh"; subject])
      (fun it => remove (fst it)) m.

Definition invalidateKeys (clock : Z) (subject : string) : M mem unit :=
  invalidateKeys_yields clock subject;; ret tt.

(** The store of a fresh [MemoryStorage()] without a persisted file. *)
Definition empty_mem : mem := {| store := []; writes := [] |}.

(** [MemoryStorage(input)]: when a file to persist to is configured and
    exists, its parsed rows become the store as they are. *)
Definition MemoryStorage_init (file : option (list row)) : mem :=
  {| store := if truthy (persist input) then default [] file else [];
     writes := [] |}.

(** *** Vocabulary of the statements *)

(** The state [save] leaves, and how it settles. *)
Definition saved (m : mem) : mem := (save m).2.

Definition save_outcome (m : mem) : outcome unit := (save m).1.

(** The state in which [save] is called once the store of [m] has become
    [st]. *)
Definition with_store (st : list row) (m : mem) : mem :=
  {| store := st; writes := writes m |}.

(** [o], then the result [b]. *)
Definition and_then {A B : Type} (o : outcome A) (b : B) : outcome B :=
  match o with
  | Return _ => Return b
  | Throw e => Throw e
  | Diverge => Diverge
  end.

(** A consumer that drains [scan(prefix)] and leaves the store alone:
    [for await (const it of scan(prefix)) {}]. *)
Definition scan_all (clock : Z) (prefix : list string) : M mem (list item) :=
  fun m =>
    for_await (S (length (store m))) clock (scan prefix)
      (fun _ => ret tt) m.

(** The items of the rows of [st] that start with [prefixStr] and are
    not expired at [now], in the order of [st]. *)
Definition live_items (now : Z) (prefixStr : string) (st : list row)
    : list item :=
  map (fun r : row => (splitKey r.1, value r.2))
    (List.filter
       (fun r : row => startsWith r.1 prefixStr && negb (expired now r.2))
       st).

(** The rows are in strictly ascending order of their keys for [lt]. *)
Definition sorted_by (lt : string -> string -> Prop) (st : list row)
    : Prop :=
  forall (i j : nat) (ri rj : row),
    (i < j)%nat -> st !! i = Some ri -> st !! j = Some rj ->
    lt ri.1 rj.1.

(** Ascending for the collation [search] compares with. *)
Definition sorted (st : list row) : Prop :=
  sorted_by (fun a b => localeCompare a b = Lt) st.

(** The store holds a row for [key], as [search] identifies rows. *)
Definition holds (st : list row) (key : string) (e : entry) : Prop :=
  exists k, (k, e) ∈ st /\ localeCompare key k = Eq.

Definition absent (st : list row) (key : string) : Prop :=
  forall r, r ∈ st -> localeCompare key r.1 <> Eq.

(** What [search] establishes on a sorted store: the row it found
    collates equal to the key, or the index splits the rows into those
    below and those above the key. *)
Definition search_post (st : list row) (key : string) (mt : match_result)
    : Prop :=
  0 <= index mt <= Z.of_nat (length st) /\
  if found mt then
    exists r, at_index st (index mt) = Some r /\ localeCompare key r.1 = Eq
  else
    (forall i r, i < index mt -> at_index st i = Some r ->
                 localeCompare key r.1 = Gt) /\
    (forall i r, index mt <= i -> at_index st i = Some r ->
                 localeCompare key r.1 = Lt).

(** The operations of the adapter that write to the store. *)
Inductive op : Type :=
  | Set_ (key : list string) (v : V) (ex : expiry_arg)
  | Remove_ (key : list string)
  | Get_ (now : Z) (key : list string).

Definition step (m : mem) (o : op) : mem :=
  match o with
  | Set_ key v ex => (set key v ex m).2
  | Remove_ key => (remove key m).2
  | Get_ now key => (get now key m).2
  end.

Definition run (ops : list op) (m : mem) : mem := foldl step m ops.

End MemoryStorage.

End Memory.

(** ** File systems and stores used in the examples *)

(** A file system on which every write succeeds, one on which every write
    fails, and one on which the first write succeeds and the later ones
    fail; [JSON.stringify] renders every store. *)
Definition steady_disk {V : Type} : @Memory.Disk V :=
  {| Memory.JSON_stringify := Fulfilled;
     Memory.writeFile := fun _ _ _ => Fulfilled tt |}.

Definition failing_disk {V : Type} : @Memory.Disk V :=
  {| Memory.JSON_stringify := Fulfilled;
     Memory.writeFile := fun _ _ _ => Rejected SystemError |}.

Definition filling_disk {V : Type} : @Memory.Disk V :=
  {| Memory.JSON_stringify := Fulfilled;
     Memory.writeFile := fun earlier _ _ =>
       match earlier with
       | [] => Fulfilled tt
       | _ :: _ => Rejected SystemError
       end |}.

(** [MemoryStorage({ persist: "store.json" })] *)
Definition persisting : Memory.MemoryStorageOptions :=
  {| Memory.persist := Some "store.json" |}.

(** The store after three [setRefreshToken] calls (with the ttl 0, the one
    ttl that does not throw): two tokens of "alice", one of "bob". *)
Definition two_sessions : @Memory.mem nat :=
  ((Memory.setRefreshToken (C := ordinal_collator) (D := steady_disk)
      Memory.no_persist
      "alice" "t1" 1%nat 0;;
    Memory.setRefreshToken (C := ordinal_collator) (D := steady_disk)
      Memory.no_persist
      "alice" "t2" 2%nat 0;;
    Memory.setRefreshToken (C := ordinal_collator) (D := steady_disk)
      Memory.no_persist
      "bob" "t3" 3%nat 0) Memory.empty_mem).2.

(** A store with a subject whose name extends "alice", who has no token. *)
Definition namesakes : @Memory.mem nat :=
  ((Memory.setRefreshToken (C := ordinal_collator) (D := steady_disk)
      Memory.no_persist
      "alice2" "t4" 4%nat 0;;
    Memory.setRefreshToken (C := ordinal_collator) (D := steady_disk)
      Memory.no_persist
      "bob" "t3" 3%nat 0) Memory.empty_mem).2.

(** ** The client ([createClient]) *)

Module Client.

Record WellKnown : Type := {
  jwks_uri : string;
  token_endpoint : string;
  authorization_endpoint : string
}.

Record Tokens : Type := { access : string; refresh_token : string }.

(** The typed errors a call returns as a value. *)
Inductive oauth_error : Type :=
  | InvalidAccessTokenError
  | InvalidAuthorizationCodeError
  | InvalidRefreshTokenError
  | InvalidSubjectError.

(** A call of the injected [fetch]: a plain GET of a URL, or a POST with a
    form-encoded body, given by its parameters. *)
Inductive request : Type :=
  | GET (url : string)
  | POST (url : string) (form : list (string * string)).

(** [ResponseLike]: [ok] and the result of [json()]. *)
Record ResponseLike (J : Type) : Type := { ok : bool; body : settled J }.
Arguments ok {J} _.
Arguments body {J} _.

(** The claims [decodeJwt] gives back; [exp] is in seconds. *)
Record claims : Type := { exp : option Z }.

(** The payload of a verified token. *)
Record payload (P : Type) : Type := {
  mode : string;
  type : string;
  properties : P
}.
Arguments mode {P} _.
Arguments type {P} _.
Arguments properties {P} _.

(** Result of the schema validation of a subject: [{ issues }] or
    [{ value }]. *)
Inductive validation (Q : Type) : Type :=
  | Issues
  | Value (v : Q).
Arguments Issues {Q}.
Arguments Value {Q} v.

(** What the client takes from outside the repository: the JSON bodies and
    the fields read off them through unchecked casts, the injected [fetch]
    (its answer may depend on the requests sent before), and the functions
    of the [jose] library. *)
Class Env : Type := {
  json : Type;
  jwks : Type;
  props : Type;
  as_WellKnown : json -> WellKnown;
  json_access_token : json -> string;
  json_refresh_token : json -> string;
  createLocalJWKSet : json -> settled jwks;
  fetch : list request -> request -> settled (ResponseLike json);
  decodeJwt : string -> settled (option claims);
  jwtVerify : string -> jwks -> string -> settled (payload props)
}.

(** [{ refresh?: string, ... }]: the one option [verify] reads. *)
Record verify_options : Type := { refresh_option : option string }.

(** [{ access?: string }] *)
Record refresh_options : Type := { access_option : option string }.

(** What [refresh] resolves to: [{}], [{ tokens }] or [{ err }]. *)
Inductive refresh_result : Type :=
  | NoRefresh
  | Refreshed (tokens : Tokens)
  | RefreshErr (err : oauth_error).

(** What [verify] resolves to: [{ subject, tokens? }] or [{ err }]. *)
Inductive verify_result (Q : Type) : Type :=
  | Subject (type : string) (properties : Q) (tokens : option Tokens)
  | VerifyErr (err : oauth_error).
Arguments Subject {Q} type properties tokens.
Arguments VerifyErr {Q} err.

Section createClient.

Context {E : Env}.
Variables (clientID issuer : string).

(** The module-level caches, and the requests sent through [f] so far,
    oldest first. *)
Record client_state : Type := {
  issuerCache : gmap string WellKnown;
  jwksCache : gmap string jwks;
  sent : list request
}.

(** The state once [r] has been sent. *)
Definition sending (r : request) (s : client_state) : client_state :=
  {| issuerCache := issuerCache s; jwksCache := jwksCache s;
     sent := sent s ++ [r] |}.

(** [await f(...)] *)
Definition f (r : request) : M client_state (ResponseLike json) :=
  fun s => await (fetch (sent s) r) (sending r s).

Definition getIssuer : M client_state WellKnown :=
  cached ← gets (fun s => issuerCache s !! issuer);
  match cached with
  | Some wk => ret wk
  | None =>
      r ← f (GET (issuer ++ "/.well-known/oauth-authorization-server"));
      j ← await (body r);
      let wellKnown := as_WellKnown j in
      modify (fun s =>
        {| issuerCache := <[issuer := wellKnown]> (issuerCache s);
           jwksCache := jwksCache s; sent := sent s |});;
      ret wellKnown
  end.

Definition getJWKS : M client_state jwks :=
  wk ← getIssuer;
  cached ← gets (fun s => jwksCache s !! issuer);
  match cached with
  | Some keys => ret keys
  | None =>
      r ← f (GET (jwks_uri wk));
      keyset ← await (body r);
      result ← await (createLocalJWKSet keyset);
      modify (fun s =>
        {| issuerCache := issuerCache s;
           jwksCache := <[issuer := result]> (jwksCache s);
           sent := sent s |});;
      ret result
  end.

(** The request [refresh] sends. *)
Definition refresh_request (refresh : string) : request :=
  POST (issuer ++ "/token")
    [("grant_type", "refresh_token"); ("refresh_token", refresh)].

(** [(decoded.exp || 0) > Date.now() / 1000 + 30], with [now] in
    milliseconds and both sides scaled by 1000. *)
Definition still_valid (now : Z) (c : claims) : bool :=
  1000 * default 0 (exp c) >? now + 30000.

(** The [if (opts && opts.access)] block: [Some r] when it returns
    [r], [None] when control goes on to the request. *)
Definition refresh_guard (now : Z) (opts : option refresh_options)
    : M client_state (option refresh_result) :=
  match opts with
  | Some o =>
      if Memory.truthy (access_option o) then
        decoded ← await (decodeJwt (default "" (access_option o)));
        match decoded with
        | None => ret (Some (RefreshErr InvalidAccessTokenError))
        | Some c =>
            if still_valid now c then ret (Some NoRefresh) else ret None
        end
      else ret None
  | None => ret None
  end.

Definition refresh (now : Z) (refresh : string)
    (opts : option refresh_options) : M client_state refresh_result :=
  early ← refresh_guard now opts;
  match early with
  | Some r => ret r
  | None =>
      tokens ← f (refresh_request refresh);
      j ← await (body tokens);
      if negb (ok tokens) then ret (RefreshErr InvalidRefreshTokenError)
      else ret (Refreshed {| access := json_access_token j;
                             refresh_token := json_refresh_token j |})
  end.

Section verify.

Context {Q : Type}.

(** [subjects[type]["~standard"].validate]: the schema of a subject
    type, when the map has one; [None] from a schema stands for an
    exception raised by it (which is no error of [jose]). *)
Variable subjects : string -> option (props -> option (validation Q)).

(** The [try] block once [jwtVerify] has resolved; what it throws is
    caught by the same [catch] as the rejection of [jwtVerify]. *)
Definition validate_subject (p : payload props)
    : settled (verify_result Q) :=
  match subjects (type p) with
  | None => Rejected TypeError
  | Some validate =>
      match validate (properties p) with
      | Some (Value v) =>
          if String.eqb (mode p) "access"
          then Fulfilled (Subject (type p) v None)
          else Fulfilled (VerifyErr InvalidSubjectError)
      | Some Issues => Fulfilled (VerifyErr InvalidSubjectError)
      | None => Rejected TypeError
      end
  end.

Definition try_block (token : string) (keys : jwks)
    : settled (verify_result Q) :=
  match jwtVerify token keys issuer with
  | Fulfilled p => validate_subject p
  | Rejected e => Rejected e
  end.

Definition is_JWTExpired (e : error) : bool :=
  match e with JWTExpired => true | _ => false end.

(** [verify]; [now] is the clock reading handed to [refresh], the
    fuel bounds the depth of the recursive call. *)
Fixpoint verify (fuel : nat) (now : Z) (token : string)
    (options : option verify_options)
    : M client_state (verify_result Q) :=
  match fuel with
  | O => diverge
  | S fuel' =>
      keys ← getJWKS;
      match try_block token keys with
      | Fulfilled r => ret r
      | Rejected e =>
          let refresh_opt := options ≫= refresh_option in
          if is_JWTExpired e && Memory.truthy refresh_opt then
            refreshed ← refresh now (default "" refresh_opt) None;
            match refreshed with
            | RefreshErr err => ret (VerifyErr err)
            | NoRefresh => throw TypeError
            | Refreshed t =>
                verified ← verify fuel' now (access t)
                  (Some {| refresh_option := Some (refresh_token t) |});
                match verified with
                | VerifyErr err => ret (VerifyErr err)
                | Subject ty v _ => ret (Subject ty v (Some t))
                end
            end
          else ret (VerifyErr InvalidAccessTokenError)
      end
  end.

(** *** Vocabulary: expired tokens in a row *)

(** The pair the token endpoint hands out for a refresh with
    [refresh_tok] sent in the state [s], when its answer is ok and has a
    JSON body. *)
Definition refreshed_pair (refresh_tok : string) (s : client_state)
    : option Tokens :=
  match fetch (sent s) (refresh_request refresh_tok) with
  | Rejected _ => None
  | Fulfilled resp =>
      match body resp with
      | Rejected _ => None
      | Fulfilled j =>
          if ok resp
          then Some {| access := json_access_token j;
                       refresh_token := json_refresh_token j |}
          else None
      end
  end.

(** [n] expired access tokens in a row, from [token] held with the
    non-empty refresh token [refresh_tok] in the state [s]: each is
    rejected by the [try] block as expired, and the refresh with the
    refresh token held at that point is answered with a new pair, which is
    held from then on.  The result is the access token and the refresh
    token held after the [n] refreshes, and the state then. *)
Fixpoint expired_run (keys : jwks) (n : nat) (token refresh_tok : string)
    (s : client_state) : option (string * string * client_state) :=
  match n with
  | O => Some (token, refresh_tok, s)
  | S n' =>
      match try_block token keys with
      | Fulfilled _ => None
      | Rejected e =>
          if is_JWTExpired e && Memory.truthy (Some refresh_tok) then
            match refreshed_pair refresh_tok s with
            | None => None
            | Some t =>
                expired_run keys n' (access t) (refresh_token t)
                  (sending (refresh_request refresh_tok) s)
            end
          else None
      end
  end.

(** Two outcomes of [verify] that differ at most in the [tokens] of the
    subject. *)
Definition same_but_tokens (o o' : outcome (verify_result Q)) : Prop :=
  match o, o' with
  | Return (Subject ty v _), Return (Subject ty' v' _) => ty = ty' /\ v = v'
  | Return (VerifyErr err), Return (VerifyErr err') => err = err'
  | Throw e, Throw e' => e = e'
  | Diverge, Diverge => True
  | _, _ => False
  end.

End verify.

(** The refresh requests among the requests sent. *)
Definition is_refresh_request (r : request) : bool :=
  match r with
  | POST _ (("grant_type", "refresh_token") :: _) => true
  | _ => false
  end.

Definition refresh_attempts (s : client_state) : nat :=
  length (filter (fun r => is_refresh_request r = true) (sent s)).

(** A step that returns or throws without sending a refresh request. *)
Definition quiet {A : Type} (c : M client_state A) : Prop :=
  forall s, exists o s',
    c s = (o, s') /\ o <> Diverge /\ refresh_attempts s' = refresh_attempts s.

End createClient.

End Client.

(** ** A scripted issuer for the examples *)

Module Scripted.

Import Client.

(** The JSON bodies of the scripted issuer. *)
Record reply : Type := {
  reply_metadata : WellKnown;
  reply_access : string;
  reply_refresh : string
}.

Definition issuer : string := "https://auth.example".

Definition well_known : WellKnown :=
  {| jwks_uri := "https://auth.example/jwks";
     token_endpoint := "https://auth.example/token";
     authorization_endpoint := "https://auth.example/authorize" |}.

(** The access token of the [n]-th answer of the token endpoint (counted
    from 0): expired for the first [stale] answers, for all of them when
    [stale] is [None]. *)
Definition issued (stale : option nat) (n : nat) : string :=
  match stale with
  | None => "expired"
  | Some k => if (n <? k)%nat then "expired" else "valid"
  end.

Definition answer (stale : option nat) (history : list request) (r : request)
    : settled (ResponseLike reply) :=
  match r with
  | GET _ =>
      Fulfilled {| ok := true;
                   body := Fulfilled {| reply_metadata := well_known;
                                        reply_access := EmptyString;
                                        reply_refresh := EmptyString |} |}
  | POST _ _ =>
      let n := length (List.filter is_refresh_request history) in
      Fulfilled {| ok := true;
                   body := Fulfilled {| reply_metadata := well_known;
                                        reply_access := issued stale n;
                                        reply_refresh := "r" |} |}
  end.

(** The token "valid" verifies and has a far expiry, "expired" is rejected
    as expired, anything else is no JWT. *)
Definition env (stale : option nat) : Env :=
  {| json := reply;
     jwks := unit;
     props := unit;
     as_WellKnown := reply_metadata;
     json_access_token := reply_access;
     json_refresh_token := reply_refresh;
     createLocalJWKSet := fun _ => Fulfilled tt;
     fetch := answer stale;
     decodeJwt := fun token =>
       if String.eqb token "valid"
       then Fulfilled (Some {| exp := Some 4102444800 |})
       else if String.eqb token "expired"
       then Fulfilled (Some {| exp := Some 0 |})
       else Rejected JWTInvalid;
     jwtVerify := fun token _ _ =>
       if String.eqb token "valid"
       then Fulfilled {| mode := "access"; type := "user"; properties := tt |}
       else if String.eqb token "expired" then Rejected JWTExpired
       else Rejected JWTInvalid |}.

(** One subject type, "user", whose schema accepts everything. *)
Definition subjects (ty : string) : option (unit -> option (validation unit)) :=
  if String.eqb ty "user" then Some (fun p => Some (Value p)) else None.

(** The state of a process that has not used the client yet. *)
Definition fresh (stale : option nat) : @client_state (env stale) :=
  {| issuerCache := ∅; jwksCache := ∅; sent := [] |}.

End Scripted.

(** ** The other requests of the client: [exchange], [authorize], [pkce] *)

Module ClientRequests.

Import Client.

(** The promise [exchange] returns: resolved with the token pair, rejected
    with an exception of the outside world, or rejected with the typed
    error that [exchange] throws itself. *)
Inductive exchanged : Type :=
  | Resolved (tokens : Tokens)
  | Failed (e : error)
  | Thrown (err : oauth_error).

(** A [URL] object: the URL up to its query, and the name-value pairs of
    its [searchParams], in order. *)
Record URL : Type := {
  before_query : string;
  searchParams : list (string * string)
}.

(** The pairs not named [name]. *)
Definition without (name : string) (l : list (string * string))
    : list (string * string) :=
  List.filter (fun p => negb (String.eqb p.1 name)) l.

(** [searchParams.set(name, value)]: the first pair named [name] takes the
    value and the other pairs of that name go; without such a pair, one is
    appended. *)
Fixpoint params_set (name value : string) (l : list (string * string))
    : list (string * string) :=
  match l with
  | [] => [(name, value)]
  | (n, v) :: rest =>
      if String.eqb n name then (name, value) :: without name rest
      else (n, v) :: params_set name value rest
  end.

(** [searchParams.get(name)]: the value of the first pair named [name]. *)
Fixpoint params_get (name : string) (l : list (string * string))
    : option string :=
  match l with
  | [] => None
  | (n, v) :: rest => if String.eqb n name then Some v else params_get name rest
  end.

(** How many pairs are named [name]. *)
Definition params_count (name : string) (l : list (string * string)) : nat :=
  length (List.filter (fun p => String.eqb p.1 name) l).

Definition set_param (name value : string) (u : URL) : URL :=
  {| before_query := before_query u;
     searchParams := params_set name value (searchParams u) |}.

(** ["code" | "token"] *)
Inductive response_type : Type := code | token.

Definition response_name (r : response_type) : string :=
  match r with code => "code" | token => "token" end.

(** [{ provider?: string }] *)
Record authorize_options : Type := { provider : option string }.

(** [{ verifier, challenge }], what [generatePKCE] resolves to. *)
Record PKCE_pair : Type := { verifier : string; challenge : string }.

(** What these functions take from outside the source file: the [URL]
    constructor (which throws on what is no URL), [URL.toString], and
    [generatePKCE] of [./pkce.js]. *)
Class Host : Type := {
  new_URL : string -> settled URL;
  URL_toString : URL -> string;
  generatePKCE : settled PKCE_pair
}.

Section requests.

Context {E : Env} {H : Host}.
Variables (clientID issuer : string).

(** The request [exchange] sends; [verifier || ""] is the verifier or the
    empty string. *)
Definition exchange_request (code_ redirectURI : string)
    (verifier_ : option string) : request :=
  POST (issuer ++ "/token")
    [("code", code_); ("redirect_uri", redirectURI);
     ("grant_type", "authorization_code"); ("client_id", clientID);
     ("code_verifier", default "" verifier_)].

(** [exchange]; the [console.error] before the throw is left out. *)
Definition exchange (code_ redirectURI : string) (verifier_ : option string)
    (s : client_state) : exchanged * client_state :=
  let rq := exchange_request code_ redirectURI verifier_ in
  (match fetch (sent s) rq with
   | Rejected e => Failed e
   | Fulfilled tokens =>
       match body tokens with
       | Rejected e => Failed e
       | Fulfilled j =>
           if negb (ok tokens) then Thrown InvalidAuthorizationCodeError
           else Resolved {| access := json_access_token j;
                            refresh_token := json_refresh_token j |}
       end
   end,
   sending rq s).

(** [if (opts?.provider) result.searchParams.set("provider", ...)] *)
Definition set_provider (opts : option authorize_options) (u : URL) : URL :=
  let p := opts ≫= provider in
  if Memory.truthy p then set_param "provider" (default "" p) u else u.

(** The [URL] object [authorize] builds, before [toString]. *)
Definition authorize_URL (redirectURI : string) (response : response_type)
    (opts : option authorize_options) : settled URL :=
  match new_URL (issuer ++ "/authorize") with
  | Rejected e => Rejected e
  | Fulfilled result =>
      Fulfilled
        (set_param "response_type" (response_name response)
           (set_param "redirect_uri" redirectURI
              (set_param "client_id" clientID (set_provider opts result))))
  end.

Definition authorize (redirectURI : string) (response : response_type)
    (opts : option authorize_options) : settled string :=
  match authorize_URL redirectURI response opts with
  | Rejected e => Rejected e
  | Fulfilled result => Fulfilled (URL_toString result)
  end.

(** The verifier and the [URL] object [pkce] builds, before [toString]. *)
Definition pkce_URL (redirectURI : string) (opts : option authorize_options)
    : settled (string * URL) :=
  match new_URL (issuer ++ "/authorize") with
  | Rejected e => Rejected e
  | Fulfilled result =>
      let result :=
        set_param "response_type" "code"
          (set_param "redirect_uri" redirectURI
             (set_param "client_id" clientID (set_provider opts result))) in
      match generatePKCE with
      | Rejected e => Rejected e
      | Fulfilled generated =>
          Fulfilled
            (verifier generated,
             set_param "code_challenge" (challenge generated)
               (set_param "code_challenge_method" "S256" result))
      end
  end.

(** [pkce]: [[pkce.verifier, result.toString()]] *)
Definition pkce (redirectURI : string) (opts : option authorize_options)
    : settled (string * string) :=
  match pkce_URL redirectURI opts with
  | Rejected e => Rejected e
  | Fulfilled (v, result) => Fulfilled (v, URL_toString result)
  end.

End requests.

End ClientRequests.

(** ** Further vocabulary *)

Section FurtherVocabulary.

Import Memory.
Context {V : Type} {C : Collator} {D : @Disk V}.
Variable input : MemoryStorageOptions.

(** An operation returned, from the state [m]. *)
Definition returned (m : @mem V) (o : @op V) : Prop :=
  match o with
  | Set_ key v ex => (set input key v ex m).1 = Return tt
  | Remove_ key => (remove input key m).1 = Return tt
  | Get_ now key => exists r, (get input now key m).1 = Return r
  end.

(** Every operation of a sequence returned, each from the state the ones
    before it left. *)
Fixpoint all_returned (ops : list (@op V)) (m : @mem V) : Prop :=
  match ops with
  | [] => True
  | o :: rest => returned m o /\ all_returned rest (step input m o)
  end.

(** The file follows the store: no write was made and the store is still
    the [initial] one, or the last call of [writeFile] succeeded and its
    text is the text of the store as it is now. *)
Definition durable (initial : list (string * @entry V)) (m : @mem V)
    : Prop :=
  match writes m with
  | [] => store m = initial
  | (path, file) :: earlier =>
      JSON_stringify (store m) = Fulfilled file /\
      writeFile earlier path file = Fulfilled tt
  end.

End FurtherVocabulary.

(** *** Facts about the codec *)

Section KeyCodecFacts.

Lemma split_nonempty c s : split c s <> [].
Proof.
  destruct s as [|a s]; simpl; [discriminate|].
  destruct (Ascii.eqb a c); [discriminate|].
  destruct (split c s); discriminate.
Qed.

Lemma split_free c s : free_of c s -> split c s = [s].
Proof.
  induction s as [|a s IH]; simpl; [reflexivity|].
  intros [Hne Hs]. apply Ascii.eqb_neq in Hne. rewrite Hne.
  rewrite (IH Hs). reflexivity.
Qed.

Lemma split_app_sep c s t :
  free_of c s -> split c (s ++ String c t) = s :: split c t.
Proof.
  induction s as [|a s IH]; simpl.
  - intros _. rewrite Ascii.eqb_refl. reflexivity.
  - intros [Hne Hs]. apply Ascii.eqb_neq in Hne. rewrite Hne.
    rewrite (IH Hs). reflexivity.
Qed.

Lemma strip_free c s : free_of c (strip c s).
Proof.
  induction s as [|a s IH]; simpl; [exact I|].
  destruct (Ascii.eqb a c) eqn:E; [exact IH|].
  simpl. split; [now apply Ascii.eqb_neq|exact IH].
Qed.

Lemma encode_free key : Forall (free_of SEPERATOR_char) (encode key).
Proof.
  unfold encode. induction key as [|k key IH]; simpl; constructor.
  - apply strip_free.
  - exact IH.
Qed.

Lemma splitKey_joinKey_cons x xs :
  Forall (free_of SEPERATOR_char) (x :: xs) ->
  splitKey (joinKey (x :: xs)) = x :: xs.
Proof.
  unfold splitKey, joinKey. revert x.
  induction xs as [|y ys IH]; intros x Hall.
  - simpl. apply split_free. now inversion Hall.
  - inversion Hall as [|? ? Hx Hrest]; subst.
    change (join SEPERATOR (x :: y :: ys))
      with (x ++ String SEPERATOR_char (join SEPERATOR (y :: ys))).
    rewrite (split_app_sep _ _ _ Hx). f_equal. apply IH, Hrest.
Qed.

End KeyCodecFacts.

(** C6 (amended).  For every non-empty sequence [xs] of segments none of
    which contains the separator, [splitKey (joinKey xs)] is [xs]. *)
Theorem splitKey_joinKey (xs : list string) :
  xs <> [] ->
  Forall (free_of SEPERATOR_char) xs ->
  splitKey (joinKey xs) = xs.
Proof.
  destruct xs as [|x xs]; [congruence|].
  intros _. apply splitKey_joinKey_cons.
Qed.

Lemma splitKey_joinKey_witness :
  splitKey (joinKey ["oauth:code"; "abc"]) = ["oauth:code"; "abc"].
Proof.
  apply splitKey_joinKey; [discriminate|].
  repeat constructor; discriminate.
Defined.

(** C6 as stated fails on the empty sequence: it is joined to the empty
    string, which splits into one empty segment. *)
Lemma splitKey_joinKey_empty :
  ~ (forall xs : list string,
       Forall (free_of SEPERATOR_char) xs -> splitKey (joinKey xs) = xs).
Proof.
  intros H. specialize (H [] (List.Forall_nil _)). discriminate H.
Qed.

(** Segments coming out of [encode] always qualify. *)
Lemma splitKey_joinKey_encode (x : string) (xs : list string) :
  splitKey (joinKey (encode (x :: xs))) = encode (x :: xs).
Proof. apply splitKey_joinKey_cons. apply (encode_free (x :: xs)). Qed.

(** ** The two concrete collations obey the laws *)

Section LexCompare.

Variable w : ascii -> N.

Lemma lex_compare_antisym a b :
  lex_compare w b a = CompOpp (lex_compare w a b).
Proof.
  revert b. induction a as [|x a IH]; intros [|y b]; simpl; try reflexivity.
  rewrite (N.compare_antisym (w x) (w y)).
  destruct (w x ?= w y)%N; simpl; auto.
Qed.

Lemma lex_compare_trans a b c :
  lex_compare w a b = Lt -> lex_compare w b c = Lt -> lex_compare w a c = Lt.
Proof.
  revert b c. induction a as [|x a IH]; intros [|y b] [|z c]; simpl;
    try congruence.
  destruct (w x ?= w y)%N eqn:Exy; try discriminate;
    destruct (w y ?= w z)%N eqn:Eyz; try discriminate; intros H1 H2.
  - apply N.compare_eq in Exy, Eyz. rewrite Exy, Eyz, N.compare_refl. eauto.
  - apply N.compare_eq in Exy. rewrite Exy, Eyz. reflexivity.
  - apply N.compare_eq in Eyz. rewrite <- Eyz, Exy. reflexivity.
  - rewrite N.compare_lt_iff in Exy, Eyz.
    assert (Hxz : (w x ?= w z)%N = Lt) by (apply N.compare_lt_iff; lia).
    rewrite Hxz. reflexivity.
Qed.

Lemma lex_compare_eq_compat a b c :
  lex_compare w a b = Eq -> lex_compare w a c = lex_compare w b c.
Proof.
  revert b c. induction a as [|x a IH]; intros [|y b] [|z c]; simpl;
    try congruence.
  destruct (w x ?= w y)%N eqn:Exy; try discriminate. intros H.
  apply N.compare_eq in Exy. rewrite Exy.
  destruct (w y ?= w z)%N; auto.
Qed.

Lemma lex_compare_laws : CollatorLaws {| localeCompare := lex_compare w |}.
Proof.
  constructor; simpl.
  - apply lex_compare_antisym.
  - apply lex_compare_trans.
  - apply lex_compare_eq_compat.
Qed.

End LexCompare.

Lemma ordinal_collator_laws : CollatorLaws ordinal_collator.
Proof. apply lex_compare_laws. Qed.

Lemma alphabetic_collator_laws : CollatorLaws alphabetic_collator.
Proof. apply lex_compare_laws. Qed.

(** ** The in-memory adapter *)

Section CollationFacts.

Context {C : Collator} {L : CollatorLaws C}.

Lemma collate_refl a : localeCompare a a = Eq.
Proof.
  pose proof (collate_antisym a a) as H.
  destruct (localeCompare a a); simpl in H; congruence.
Qed.

Lemma collate_gt_lt a b : localeCompare a b = Gt <-> localeCompare b a = Lt.
Proof.
  rewrite (collate_antisym a b).
  destruct (localeCompare a b); simpl; split; congruence.
Qed.

Lemma collate_eq_sym a b : localeCompare a b = Eq -> localeCompare b a = Eq.
Proof. intros H. rewrite (collate_antisym a b), H. reflexivity. Qed.

Lemma collate_eq_compat_r a b c :
  localeCompare a b = Eq -> localeCompare c a = localeCompare c b.
Proof.
  intros H. rewrite (collate_antisym a c), (collate_antisym b c).
  f_equal. apply collate_eq_compat, H.
Qed.

End CollationFacts.

Section SearchFacts.

Import Memory.
Context {V : Type} {C : Collator}.

Implicit Types (st : list (string * @entry V)) (key : string).

Lemma at_index_Some st i r :
  at_index st i = Some r <-> 0 <= i /\ st !! Z.to_nat i = Some r.
Proof.
  unfold at_index. destruct (Z.ltb_spec i 0); split.
  - discriminate.
  - intros [? _]. lia.
  - auto.
  - intros [_ ?]. assumption.
Qed.

Lemma at_index_in_range st i :
  0 <= i < Z.of_nat (length st) -> exists r, at_index st i = Some r.
Proof.
  intros Hi. destruct (lookup_lt_is_Some_2 st (Z.to_nat i)) as [r Hr]; [lia|].
  exists r. apply at_index_Some. split; [lia|exact Hr].
Qed.

Lemma at_index_lt st i r :
  at_index st i = Some r -> 0 <= i < Z.of_nat (length st).
Proof.
  intros [H0 H]%at_index_Some. apply lookup_lt_Some in H. lia.
Qed.

(** The loop ends, whatever the store holds: the fuel given by [search]
    is never used up, and no index leaves the array. *)
Lemma search_loop_total st key fuel left right :
  0 <= left -> right < Z.of_nat (length st) -> left <= right + 1 ->
  right - left + 1 < Z.of_nat fuel ->
  exists mt, search_loop fuel st key left right = Return mt /\
    0 <= index mt <= Z.of_nat (length st) /\
    (found mt = true -> index mt < Z.of_nat (length st)).
Proof.
  revert left right.
  induction fuel as [|fuel IH]; intros left right Hl Hr Hlr Hf.
  - lia.
  - simpl. destruct (Z.leb_spec left right) as [Hle|Hgt].
    + assert (Hmid : left <= (left + right) / 2 <= right).
      { split; [apply Z.div_le_lower_bound|apply Z.div_le_upper_bound]; lia. }
      destruct (at_index_in_range st ((left + right) / 2)) as [[k e] Hk];
        [lia|]. rewrite Hk.
      destruct (localeCompare key k).
      * eexists. split; [reflexivity|]. simpl. lia.
      * apply IH; lia.
      * apply IH; lia.
    + eexists. split; [reflexivity|]. simpl. split; [lia|discriminate].
Qed.

Lemma search_total st key :
  exists mt, search st key = Return mt /\
    0 <= index mt <= Z.of_nat (length st) /\
    (found mt = true -> index mt < Z.of_nat (length st)).
Proof. unfold search. apply search_loop_total; lia. Qed.

Context {L : CollatorLaws C}.

Lemma sorted_at_index st i j ri rj :
  sorted st -> i < j -> at_index st i = Some ri -> at_index st j = Some rj ->
  localeCompare ri.1 rj.1 = Lt.
Proof.
  intros Hs Hij [Hi Hri]%at_index_Some [Hj Hrj]%at_index_Some.
  apply (Hs (Z.to_nat i) (Z.to_nat j)); [lia|assumption|assumption].
Qed.

Lemma search_loop_sorted st key fuel left right :
  sorted st ->
  0 <= left -> right < Z.of_nat (length st) -> left <= right + 1 ->
  right - left + 1 < Z.of_nat fuel ->
  (forall i r, i < left -> at_index st i = Some r ->
               localeCompare key r.1 = Gt) ->
  (forall i r, right < i -> at_index st i = Some r ->
               localeCompare key r.1 = Lt) ->
  exists mt, search_loop fuel st key left right = Return mt /\
             search_post st key mt.
Proof.
  intros Hs. revert left right.
  induction fuel as [|fuel IH]; intros left right Hl Hr Hlr Hf Hbelow Habove.
  - lia.
  - simpl. destruct (Z.leb_spec left right) as [Hle|Hgt].
    + assert (Hmid : left <= (left + right) / 2 <= right).
      { split; [apply Z.div_le_lower_bound|apply Z.div_le_upper_bound]; lia. }
      set (mid := (left + right) / 2) in *.
      destruct (at_index_in_range st mid) as [[k e] Hk]; [lia|]. rewrite Hk.
      destruct (localeCompare key k) eqn:Hcmp.
      * eexists. split; [reflexivity|]. split; simpl; [lia|].
        exists (k, e). auto.
      * apply IH; try lia; [exact Hbelow|].
        intros i r Hi Hr'.
        destruct (Z.eq_dec i mid) as [->|Hne].
        { rewrite Hk in Hr'. injection Hr' as <-. exact Hcmp. }
        eapply collate_trans; [exact Hcmp|].
        apply (sorted_at_index st mid i (k, e) r); auto; lia.
      * apply IH; try lia; [|exact Habove].
        intros i r Hi Hr'.
        destruct (Z.eq_dec i mid) as [->|Hne].
        { rewrite Hk in Hr'. injection Hr' as <-. exact Hcmp. }
        apply collate_gt_lt. eapply collate_trans.
        { apply (sorted_at_index st i mid r (k, e)); auto; lia. }
        apply collate_gt_lt. exact Hcmp.
    + eexists. split; [reflexivity|]. split; simpl; [lia|].
      split; intros i r Hi Hr'.
      * apply Hbelow with i; auto.
      * apply Habove with i; auto. lia.
Qed.

Lemma search_sorted st key :
  sorted st -> exists mt, search st key = Return mt /\ search_post st key mt.
Proof.
  intros Hs. unfold search. apply search_loop_sorted; auto; try lia.
  - intros i r Hi Hr. apply at_index_lt in Hr. lia.
  - intros i r Hi Hr. apply at_index_lt in Hr. lia.
Qed.

End SearchFacts.

Section SpliceFacts.

Context {A : Type}.
Implicit Types (l : list A) (n i : nat).

Lemma lookup_splice_in l n x i :
  (n <= length l)%nat ->
  (take n l ++ x :: drop n l)%list !! i =
    if decide (i < n)%nat then l !! i
    else if decide (i = n) then Some x else l !! (i - 1)%nat.
Proof.
  intros Hn. destruct (decide (i < n)%nat) as [Hlt|Hge].
  - rewrite lookup_app_l by (rewrite length_take; lia).
    apply lookup_take_lt, Hlt.
  - rewrite lookup_app_r by (rewrite length_take; lia).
    rewrite length_take_le by exact Hn.
    destruct (decide (i = n)) as [->|Hne].
    + now rewrite Nat.sub_diag.
    + destruct (i - n)%nat as [|d] eqn:Hd; [lia|]. simpl.
      rewrite lookup_drop. f_equal. lia.
Qed.

Lemma lookup_splice_out l n i :
  (take n l ++ drop (S n) l)%list !! i =
    if decide (i < n)%nat then l !! i else l !! S i.
Proof.
  destruct (decide (n <= length l)%nat) as [Hn|Hn].
  - destruct (decide (i < n)%nat) as [Hlt|Hge].
    + rewrite lookup_app_l by (rewrite length_take; lia).
      apply lookup_take_lt, Hlt.
    + rewrite lookup_app_r by (rewrite length_take; lia).
      rewrite length_take_le by exact Hn.
      rewrite lookup_drop. f_equal. lia.
  - rewrite take_ge, drop_ge, app_nil_r by lia.
    destruct (decide (i < n)%nat) as [Hlt|Hge]; [reflexivity|].
    rewrite !lookup_ge_None_2 by lia. reflexivity.
Qed.

Lemma length_splice_out_le l n :
  (length (take n l ++ drop (S n) l)%list <= length l)%nat.
Proof. rewrite length_app, length_take, length_drop. lia. Qed.

End SpliceFacts.

Section StoreFacts.

Import Memory.
Context {V : Type} {C : Collator} {L : CollatorLaws C}.

Implicit Types (st : list (string * @entry V)) (key : string) (e : @entry V).

Lemma sorted_nil : sorted ([] : list (string * @entry V)).
Proof. intros i j ri rj _ Hi. rewrite lookup_nil in Hi. discriminate. Qed.

Lemma sorted_splice_out st i : sorted st -> sorted (splice_out i st).
Proof.
  intros Hs a b ra rb Hab. unfold splice_out.
  rewrite !lookup_splice_out. intros Ha Hb.
  repeat case_decide; refine (Hs _ _ _ _ _ Ha Hb); lia.
Qed.

Lemma sorted_splice_in st key e mt :
  sorted st -> search_post st key mt -> found mt = false ->
  sorted (splice_in (index mt) (key, e) st).
Proof.
  intros Hs [Hrange Hpost] Hf. rewrite Hf in Hpost.
  destruct Hpost as [Hbelow Habove].
  intros a b ra rb Hab. unfold splice_in.
  rewrite !lookup_splice_in by lia. intros Ha Hb.
  repeat case_decide; simplify_eq; simpl; try lia;
    try (refine (Hs _ _ _ _ _ Ha Hb); lia).
  - apply collate_gt_lt. apply (Hbelow (Z.of_nat a)); [lia|].
    apply at_index_Some. split; [lia|]. now rewrite Nat2Z.id.
  - apply (Habove (Z.of_nat (b - 1))); [lia|].
    apply at_index_Some. split; [lia|]. now rewrite Nat2Z.id.
Qed.

Lemma sorted_assign st key e mt :
  sorted st -> search_post st key mt -> found mt = true ->
  sorted (assign (index mt) (key, e) st).
Proof.
  intros Hs [Hrange Hpost] Hf. rewrite Hf in Hpost.
  destruct Hpost as [[k0 e0] [[H0 Hk0]%at_index_Some Heq]]. simpl in Heq.
  pose proof (lookup_lt_Some _ _ _ Hk0) as Hlen.
  intros a b ra rb Hab. unfold assign.
  intros Ha%list_lookup_insert_Some Hb%list_lookup_insert_Some.
  destruct Ha as [(Ea & <- & _)|[Hna Ha]], Hb as [(Eb & <- & _)|[Hnb Hb]];
    simpl.
  - lia.
  - rewrite (collate_eq_compat _ _ _ Heq). rewrite <- Ea in Hab.
    apply (Hs _ _ _ _ Hab Hk0 Hb).
  - rewrite (collate_eq_compat_r _ _ _ Heq). rewrite <- Eb in Hab.
    apply (Hs _ _ _ _ Hab Ha Hk0).
  - apply (Hs _ _ _ _ Hab Ha Hb).
Qed.

End StoreFacts.

Section OperationFacts.

Import Memory.
Context {V : Type} {C : Collator} {L : CollatorLaws C} {D : @Disk V}.
Variable input : MemoryStorageOptions.

Implicit Types (st : list (string * @entry V)) (key : string) (e : @entry V)
  (m : @mem V).

(** On a sorted store, [search] finds the row that collates equal to the
    key, at the index where it is. *)
Lemma search_found_at st key n k e :
  sorted st -> st !! n = Some (k, e) -> localeCompare key k = Eq ->
  search st key = Return {| found := true; index := Z.of_nat n |}.
Proof.
  intros Hs Hn Heq.
  destruct (search_sorted st key Hs) as ([fd ix] & Hsearch & Hrange & Hpost).
  rewrite Hsearch. simpl in *.
  assert (Hat : at_index st (Z.of_nat n) = Some (k, e)).
  { apply at_index_Some. split; [lia|]. now rewrite Nat2Z.id. }
  destruct fd.
  - destruct Hpost as (r & Hr & Hreq).
    destruct (Z.lt_trichotomy ix (Z.of_nat n)) as [Hlt|[->|Hgt]].
    + pose proof (sorted_at_index _ _ _ _ _ Hs Hlt Hr Hat) as Hc.
      rewrite <- (collate_eq_compat _ _ _ Hreq) in Hc. simpl in Hc. congruence.
    + reflexivity.
    + pose proof (sorted_at_index _ _ _ _ _ Hs Hgt Hat Hr) as Hc.
      rewrite <- (collate_eq_compat_r _ _ _ Hreq) in Hc. simpl in Hc.
      apply collate_eq_sym in Heq. congruence.
  - destruct Hpost as [Hbelow Habove].
    destruct (Z.lt_ge_cases (Z.of_nat n) ix) as [Hlt|Hge].
    + specialize (Hbelow _ _ Hlt Hat). simpl in Hbelow. congruence.
    + specialize (Habove _ _ Hge Hat). simpl in Habove. congruence.
Qed.

(** A key no row collates equal to is reported as not found. *)
Lemma search_absent st key :
  sorted st -> absent st key ->
  exists ix, search st key = Return {| found := false; index := ix |} /\
             search_post st key {| found := false; index := ix |}.
Proof.
  intros Hs Habs.
  destruct (search_sorted st key Hs) as ([fd ix] & Hsearch & Hpost).
  destruct fd; [|eauto].
  destruct Hpost as (_ & r & [_ Hr]%at_index_Some & Heq).
  exfalso. apply (Habs r); [|exact Heq].
  eapply list_elem_of_lookup_2, Hr.
Qed.

Lemma search_not_found_absent st key mt :
  search_post st key mt -> found mt = false -> absent st key.
Proof.
  intros (Hrange & Hpost) Hf. rewrite Hf in Hpost.
  destruct Hpost as [Hbelow Habove].
  intros r [n Hn]%list_elem_of_lookup_1.
  assert (Hat : at_index st (Z.of_nat n) = Some r).
  { apply at_index_Some. split; [lia|]. now rewrite Nat2Z.id. }
  destruct (Z.lt_ge_cases (Z.of_nat n) (index mt)) as [Hlt|Hge].
  - rewrite (Hbelow _ _ Hlt Hat). discriminate.
  - rewrite (Habove _ _ Hge Hat). discriminate.
Qed.

(** Taking the found row out leaves no row for the key. *)
Lemma splice_out_absent st key mt :
  sorted st -> search_post st key mt -> found mt = true ->
  absent (splice_out (index mt) st) key.
Proof.
  intros Hs (Hrange & Hpost) Hf. rewrite Hf in Hpost.
  destruct Hpost as (r0 & Hr0 & Heq).
  intros r [n Hn]%list_elem_of_lookup_1. unfold splice_out in Hn.
  rewrite lookup_splice_out in Hn.
  pose proof Hr0 as [H0 Hr0']%at_index_Some.
  case_decide as Hlt.
  - pose proof (Hs _ _ _ _ Hlt Hn Hr0') as Hc. cbv beta in Hc.
    rewrite <- (collate_eq_compat_r _ _ _ Heq) in Hc.
    apply collate_gt_lt in Hc. congruence.
  - assert (Hgt : (Z.to_nat (index mt) < S n)%nat) by lia.
    pose proof (Hs _ _ _ _ Hgt Hr0' Hn) as Hc. cbv beta in Hc.
    rewrite <- (collate_eq_compat _ _ _ Heq) in Hc. congruence.
Qed.

(** *** The operations, step by step *)

(** [save] unfolded. *)
Lemma save_unfold m :
  save input m =
    if negb (truthy (persist input)) then (Return tt, m)
    else
      match JSON_stringify (store m) with
      | Rejected err => (Throw err, m)
      | Fulfilled file =>
          let path := default "" (persist input) in
          (match writeFile (writes m) path file with
           | Fulfilled _ => Return tt
           | Rejected err => Throw err
           end,
           {| store := store m; writes := (path, file) :: writes m |})
      end.
Proof.
  unfold save. destruct (negb (truthy (persist input))); [reflexivity|].
  unfold mbind, M_bind, bind, gets, modify, await. simpl.
  destruct (JSON_stringify (store m)) as [file|err]; [|reflexivity].
  destruct (writeFile (writes m) _ file) as [[]|err]; reflexivity.
Qed.

Lemma saved_store m : store (saved input m) = store m.
Proof.
  unfold saved. rewrite save_unfold.
  destruct (negb _); [reflexivity|].
  destruct (JSON_stringify (store m)); reflexivity.
Qed.

Lemma save_eq m : save input m = (save_outcome input m, saved input m).
Proof. unfold saved, save_outcome. now destruct (save input m). Qed.

(** [save] returns or throws, and returns when there is no path to
    persist to. *)
Lemma save_outcome_cases m :
  save_outcome input m = Return tt \/
  exists err, save_outcome input m = Throw err.
Proof.
  unfold save_outcome. rewrite save_unfold.
  destruct (negb _); [now left|].
  destruct (JSON_stringify (store m)) as [file|err]; [|right; now exists err].
  cbn [fst]. destruct (writeFile _ _ file) as [[]|err];
    [now left|right; now exists err].
Qed.

Lemma save_outcome_off m :
  truthy (persist input) = false -> save_outcome input m = Return tt.
Proof. intros H. unfold save_outcome. rewrite save_unfold, H. reflexivity. Qed.

Lemma saved_off m : truthy (persist input) = false -> saved input m = m.
Proof. intros H. unfold saved. rewrite save_unfold, H. reflexivity. Qed.

Lemma and_then_cases {A} (o : outcome unit) (a : A) :
  (o = Return tt \/ exists err, o = Throw err) ->
  (o = Return tt /\ and_then o a = Return a) \/
  (exists err, o = Throw err /\ and_then o a = Throw err).
Proof.
  intros [->|[err ->]]; [left|right; exists err]; split; reflexivity.
Qed.

Lemma get_eq now (key : list string) m mt :
  search (store m) (joinKey key) = Return mt ->
  get input now key m =
    if negb (found mt) then (Return None, m)
    else match at_index (store m) (index mt) with
         | None => (Throw TypeError, m)
         | Some (_, e) =>
             if expired now e
             then
               let m1 := with_store (splice_out (index mt) (store m)) m in
               (and_then (save_outcome input m1) None, saved input m1)
             else (Return (Some (value e)), m)
         end.
Proof.
  intros Hs. unfold get, mbind, M_bind, bind, gets, lift. simpl. rewrite Hs.
  destruct (negb (found mt)); [reflexivity|].
  destruct (at_index (store m) (index mt)) as [[k e]|]; [|reflexivity].
  destruct (expired now e); [|reflexivity].
  unfold modify, with_store. simpl. rewrite save_eq.
  destruct (save_outcome input _); reflexivity.
Qed.

Lemma set_eq (key : list string) (v : V) ex m mt :
  search (store m) (joinKey key) = Return mt ->
  set input key v ex m =
    match expiry_field ex with
    | Return t =>
        let r := (joinKey key, {| value := v; expiry := t |}) in
        let m1 :=
          with_store (if negb (found mt)
                      then splice_in (index mt) r (store m)
                      else assign (index mt) r (store m)) m in
        (save_outcome input m1, saved input m1)
    | Throw err => (Throw err, m)
    | Diverge => (Diverge, m)
    end.
Proof.
  intros Hs. unfold set, mbind, M_bind, bind, gets, lift. simpl. rewrite Hs.
  destruct (expiry_field ex); try reflexivity.
  unfold modify, with_store. simpl. rewrite save_eq. reflexivity.
Qed.

Lemma remove_eq (key : list string) m mt :
  search (store m) (joinKey key) = Return mt ->
  remove input key m =
    if found mt
    then
      let m1 := with_store (splice_out (index mt) (store m)) m in
      (save_outcome input m1, saved input m1)
    else (Return tt, m).
Proof.
  intros Hs. unfold remove, mbind, M_bind, bind, gets, lift. simpl.
  rewrite Hs. destruct (found mt); [|reflexivity].
  unfold modify, with_store. simpl. rewrite save_eq. reflexivity.
Qed.

End OperationFacts.

Section StoreInvariant.

Import Memory.
Context {V : Type} {C : Collator} {L : CollatorLaws C} {D : @Disk V}.
Variable input : MemoryStorageOptions.

Implicit Types (m : @mem V).

Lemma set_sorted key v ex m :
  sorted (store m) -> sorted (store (set input key v ex m).2).
Proof.
  intros Hs.
  destruct (search_sorted (store m) (joinKey key) Hs) as (mt & Hsearch & Hpost).
  rewrite (set_eq input key v ex m mt Hsearch).
  destruct (expiry_field ex) as [t| |]; simpl; try exact Hs.
  rewrite saved_store. simpl.
  destruct (found mt) eqn:Hf; simpl.
  - now apply sorted_assign.
  - now apply sorted_splice_in.
Qed.

Lemma remove_sorted key m :
  sorted (store m) -> sorted (store (remove input key m).2).
Proof.
  intros Hs.
  destruct (search_sorted (store m) (joinKey key) Hs) as (mt & Hsearch & Hpost).
  rewrite (remove_eq input key m mt Hsearch).
  destruct (found mt); simpl; [|exact Hs].
  rewrite saved_store. simpl. now apply sorted_splice_out.
Qed.

Lemma get_sorted now key m :
  sorted (store m) -> sorted (store (get input now key m).2).
Proof.
  intros Hs.
  destruct (search_sorted (store m) (joinKey key) Hs) as (mt & Hsearch & Hpost).
  rewrite (get_eq input now key m mt Hsearch).
  destruct (negb (found mt)); simpl; [exact Hs|].
  destruct (at_index (store m) (index mt)) as [[k e]|]; simpl; [|exact Hs].
  destruct (expired now e); simpl; [|exact Hs].
  rewrite saved_store. simpl. now apply sorted_splice_out.
Qed.

Lemma step_sorted m o : sorted (store m) -> sorted (store (step input m o)).
Proof.
  destruct o; simpl.
  - apply set_sorted.
  - apply remove_sorted.
  - apply get_sorted.
Qed.

Lemma run_sorted ops m : sorted (store m) -> sorted (store (run input ops m)).
Proof.
  revert m. induction ops as [|o ops IH]; intros m Hs; simpl; [exact Hs|].
  apply IH, step_sorted, Hs.
Qed.

(** Rows of a sorted store have pairwise distinct keys. *)
Lemma sorted_keys_distinct (st : list (string * @entry V)) i j ri rj :
  sorted st -> st !! i = Some ri -> st !! j = Some rj -> i <> j ->
  ri.1 <> rj.1.
Proof.
  intros Hs Hi Hj Hne Heq.
  destruct (Nat.lt_total i j) as [Hlt|[->|Hgt]]; [|congruence|].
  - pose proof (Hs _ _ _ _ Hlt Hi Hj) as Hc. cbv beta in Hc.
    rewrite Heq, collate_refl in Hc. discriminate.
  - pose proof (Hs _ _ _ _ Hgt Hj Hi) as Hc. cbv beta in Hc.
    rewrite Heq, collate_refl in Hc. discriminate.
Qed.

(** C4 (amended).  Whatever sequence of [set], [remove] and [get] is
    applied to a fresh store, the rows stay in strictly ascending order of
    their flat keys for the comparison [search] itself uses,
    [localeCompare], provided this comparison is a total preorder; hence
    no two rows collate equal, and no flat key occurs twice. *)
Theorem store_stays_sorted (ops : list (@op V)) :
  let st := store (run input ops empty_mem) in
  sorted st /\
  (forall i j ri rj, st !! i = Some ri -> st !! j = Some rj -> i <> j ->
                     ri.1 <> rj.1).
Proof.
  assert (Hs : sorted (store (run input ops (@empty_mem V)))).
  { apply run_sorted. simpl. apply sorted_nil. }
  split; [exact Hs|].
  intros i j ri rj. now apply sorted_keys_distinct.
Qed.

End StoreInvariant.

Section StoreOrderExamples.

Import Memory.
#[local] Existing Instance steady_disk.

(** Under the ordinal collation the order of the store is the order of the
    code units. *)
Lemma store_stays_sorted_witness :
  let st := store (run (C := ordinal_collator) no_persist
                     [Set_ ["b"] 1%nat Undefined;
                      Set_ ["a"] 2%nat Undefined;
                      Remove_ ["b"]] empty_mem) in
  sorted_by ordinal_lt st /\
  (forall i j ri rj, st !! i = Some ri -> st !! j = Some rj -> i <> j ->
                     ri.1 <> rj.1).
Proof.
  exact (store_stays_sorted (L := ordinal_collator_laws) no_persist
           [Set_ ["b"] 1%nat Undefined;
            Set_ ["a"] 2%nat Undefined;
            Remove_ ["b"]]).
Defined.

(** C4 as stated fails: [search] compares with [localeCompare], and under an
    alphabetic collation "a" is stored before "B", against the order of the
    code units ("B" is 0x42, "a" is 0x61). *)
Lemma store_not_in_code_unit_order :
  let st := store (run (C := alphabetic_collator) no_persist
                     [Set_ ["a"] 1%nat Undefined;
                      Set_ ["B"] 2%nat Undefined]
                     empty_mem) in
  map fst st = ["a"; "B"] /\ ~ sorted_by ordinal_lt st.
Proof.
  split; [reflexivity|].
  intros H. specialize (H 0%nat 1%nat _ _ (Nat.lt_0_1) eq_refl eq_refl).
  vm_compute in H. discriminate H.
Qed.

End StoreOrderExamples.

Section PointOperations.

Import Memory.
Context {V : Type} {C : Collator} {L : CollatorLaws C} {D : @Disk V}.
Variable input : MemoryStorageOptions.

Implicit Types (m : @mem V) (e : @entry V).

(** The row written by [set] sits at the index [search] returned. *)
Lemma written_row_lookup (st : list (string * @entry V)) key mt
    (r : string * @entry V) :
  search_post st key mt ->
  (if negb (found mt) then splice_in (index mt) r st
   else assign (index mt) r st) !! Z.to_nat (index mt) = Some r.
Proof.
  intros (Hrange & Hpost). destruct (found mt); simpl.
  - destruct Hpost as (r0 & [_ Hr0]%at_index_Some & _).
    unfold assign. apply list_lookup_insert_eq.
    eapply lookup_lt_Some, Hr0.
  - unfold splice_in. rewrite lookup_splice_in by lia.
    case_decide; [lia|]. case_decide; [reflexivity|congruence].
Qed.

Lemma set_writes key v ex t m :
  sorted (store m) -> expiry_field ex = Return t ->
  exists m' n,
    set input key v ex m
    = (save_outcome input (with_store (store m') m), m') /\
    sorted (store m') /\
    store m' !! n = Some (joinKey key, {| value := v; expiry := t |}).
Proof.
  intros Hs Hex.
  destruct (search_sorted (store m) (joinKey key) Hs) as (mt & Hsearch & Hpost).
  pose proof (set_sorted input key v ex m Hs) as Hs'.
  rewrite (set_eq input key v ex m mt Hsearch), Hex in *. cbv zeta in *.
  cbn [snd] in Hs'.
  match type of Hs' with
  | context [saved input ?m1] =>
      exists (saved input m1), (Z.to_nat (index mt))
  end.
  split; [rewrite saved_store; reflexivity|]. split; [exact Hs'|].
  rewrite saved_store. cbn [with_store store].
  now apply (written_row_lookup (store m) (joinKey key)).
Qed.

Lemma get_present now key m n k e :
  sorted (store m) -> store m !! n = Some (k, e) ->
  localeCompare (joinKey key) k = Eq ->
  get input now key m =
    if expired now e
    then
      let m1 :=
        with_store (take n (store m) ++ drop (S n) (store m))%list m in
      (and_then (save_outcome input m1) None, saved input m1)
    else (Return (Some (value e)), m).
Proof.
  intros Hs Hn Heq.
  rewrite (get_eq input now key m _
             (search_found_at (store m) (joinKey key) n k e Hs Hn Heq)).
  cbn [found index negb]. unfold at_index, splice_out.
  destruct (Z.ltb_spec (Z.of_nat n) 0); [lia|].
  rewrite Nat2Z.id, Hn. reflexivity.
Qed.

Lemma get_absent now key m :
  sorted (store m) -> absent (store m) (joinKey key) ->
  get input now key m = (Return None, m).
Proof.
  intros Hs Habs.
  destruct (search_absent (store m) (joinKey key) Hs Habs)
    as (ix & Hsearch & _).
  rewrite (get_eq input now key m _ Hsearch). reflexivity.
Qed.

(** [remove] leaves no row for the key; it returns, unless a row was
    there and the save after its removal rejects. *)
Lemma remove_makes_absent key m :
  sorted (store m) ->
  exists o m',
    remove input key m = (o, m') /\
    (o = Return tt \/
     exists err, o = Throw err /\
       save_outcome input (with_store (store m') m) = Throw err) /\
    sorted (store m') /\ absent (store m') (joinKey key).
Proof.
  intros Hs.
  destruct (search_sorted (store m) (joinKey key) Hs) as (mt & Hsearch & Hpost).
  rewrite (remove_eq input key m mt Hsearch).
  destruct (found mt) eqn:Hf; eexists _, _; (split; [reflexivity|]).
  - cbv zeta. rewrite saved_store. cbn [with_store store]. split.
    + fold (with_store (splice_out (index mt) (store m)) m).
      destruct (save_outcome_cases input
                  (with_store (splice_out (index mt) (store m)) m))
        as [->|[err Herr]]; [now left|right].
      exists err. split; [exact Herr|exact Herr].
    + split; [now apply sorted_splice_out|now apply splice_out_absent].
  - split; [now left|]. split; [exact Hs|].
    now apply (search_not_found_absent (store m) (joinKey key) mt).
Qed.


(** C7.  On a sorted store, [set(k, v)] with no expiry, or with a [Date]
    later than the time of the read, puts its row into the store and then
    settles as the [save] it awaits: it returns when there is no path to
    persist to (and whenever the write succeeds), and rejects with the
    exception of [JSON.stringify] or [writeFile] otherwise.  Either way a
    [get(k)] right after it returns [v] (and leaves the store as [set]
    left it). *)
Theorem set_then_get (key : list string) (v : V) (ex : expiry_arg) (now : Z) m :
  sorted (store m) ->
  ex = Undefined \/ (exists t, ex = DateObj t /\ now < t) ->
  exists m',
    set input key v ex m
    = (save_outcome input (with_store (store m') m), m') /\
    (truthy (persist input) = false ->
     set input key v ex m = (Return tt, m')) /\
    get input now key m' = (Return (Some v), m').
Proof.
  intros Hs Hex.
  assert (Ht : exists t, expiry_field ex = Return t /\
                         expired now {| value := v; expiry := t |} = false).
  { destruct Hex as [->|(t & -> & Hlt)]; eexists; (split; [reflexivity|]).
    - reflexivity.
    - unfold expired. simpl. apply andb_false_iff. right. lia. }
  destruct Ht as (t & Hfield & Hlive).
  destruct (set_writes key v ex t m Hs Hfield) as (m' & n & Hset & Hs' & Hn).
  exists m'. split; [exact Hset|]. split.
  - intros Hoff. rewrite Hset. f_equal. now apply save_outcome_off.
  - rewrite (get_present now key m' n _ _ Hs' Hn (collate_refl _)), Hlive.
    reflexivity.
Qed.

End PointOperations.

Section PointOperationExamples.

Import Memory.

(** A store persisted to a file system on which every write fails: [set]
    rejects, and the value is read back all the same. *)
Lemma set_then_get_witness :
  exists m',
    set (C := ordinal_collator) (D := failing_disk) persisting
      ["oauth:code"; "abc"] 7%nat (DateObj 2000) empty_mem
    = (Throw SystemError, m') /\
    (truthy (persist persisting) = false ->
     set (C := ordinal_collator) (D := failing_disk) persisting
       ["oauth:code"; "abc"] 7%nat (DateObj 2000) empty_mem
     = (Return tt, m')) /\
    get (C := ordinal_collator) (D := failing_disk) persisting 1000
      ["oauth:code"; "abc"] m' = (Return (Some 7%nat), m').
Proof.
  apply (set_then_get (L := ordinal_collator_laws) (D := failing_disk)
           persisting ["oauth:code"; "abc"] 7%nat (DateObj 2000) 1000
           empty_mem).
  - apply sorted_nil.
  - right. exists 2000. split; [reflexivity|lia].
Defined.

End PointOperationExamples.

(** ** [scan] and its consumers *)

Section CodecInverse.

Lemma join_cons_cons (sep x y : string) (l : list string) :
  join sep (x :: y :: l) = x ++ sep ++ join sep (y :: l).
Proof. reflexivity. Qed.

Lemma join_String (sep : string) (a : ascii) (x : string) (l : list string) :
  join sep (String a x :: l) = String a (join sep (x :: l)).
Proof. destruct l; reflexivity. Qed.

(** [split] loses nothing: joining the pieces gives the key back, so
    [splitKey] is injective. *)
Lemma joinKey_splitKey (s : string) : joinKey (splitKey s) = s.
Proof.
  unfold joinKey, splitKey. induction s as [|a s IH]; [reflexivity|].
  simpl. destruct (Ascii.eqb_spec a SEPERATOR_char) as [->|Hne].
  - pose proof (split_nonempty SEPERATOR_char s) as Hnil.
    destruct (split SEPERATOR_char s) as [|y l]; [congruence|].
    rewrite join_cons_cons, IH. reflexivity.
  - pose proof (split_nonempty SEPERATOR_char s) as Hnil.
    destruct (split SEPERATOR_char s) as [|y l]; [congruence|].
    rewrite join_String, IH. reflexivity.
Qed.

Lemma splitKey_inj (s t : string) : splitKey s = splitKey t -> s = t.
Proof.
  intros H. rewrite <- (joinKey_splitKey s), <- (joinKey_splitKey t), H.
  reflexivity.
Qed.

End CodecInverse.

Section ScanFacts.

Import Memory.
Context {V : Type} {C : Collator}.

Implicit Types (m : @mem V) (st rest : list (string * @entry V)).

Lemma drop_cons_inv st i (x : string * @entry V) rest :
  drop i st = x :: rest -> drop (S i) st = rest.
Proof.
  intros H. replace (S i) with (i + 1)%nat by lia.
  rewrite <- drop_drop, H. reflexivity.
Qed.

(** The index the array iterator is left at lies beyond the one it
    started from. *)
Lemma scan_resume_index now p rest i it i' :
  scan_resume now p rest i = Some (it, i') ->
  (i < i' <= i + length rest)%nat.
Proof.
  revert i. induction rest as [|[k e] rest IH]; intros i; simpl;
    [discriminate|].
  destruct (negb (startsWith k p)).
  - intros H%IH. lia.
  - destruct (expired now e).
    + intros H%IH. lia.
    + intros [= _ <-]. lia.
Qed.

(** The first [next()] runs the generator from its start. *)
Lemma for_await_start fuel clock prefix
    (body : list string * V -> M (@mem V) unit) m :
  for_await fuel clock (scan prefix) body m =
  for_await fuel clock (Suspended_yield clock (joinKey prefix) 0) body m.
Proof. destruct fuel; reflexivity. Qed.

Lemma live_items_cons now p k (e : @entry V) rest :
  live_items now p ((k, e) :: rest) =
    if startsWith k p && negb (expired now e)
    then (splitKey k, value e) :: live_items now p rest
    else live_items now p rest.
Proof.
  unfold live_items. simpl.
  destruct (startsWith k p && negb (expired now e)); reflexivity.
Qed.

Lemma scan_next_eq clock now p i m :
  scan_next clock (Suspended_yield now p i) m =
    match scan_resume now p (drop i (store m)) i with
    | Some (it, i') => (Return (Some it, Suspended_yield now p i'), m)
    | None => (Return (None, Completed), m)
    end.
Proof.
  unfold scan_next, mbind, M_bind, bind, gets. simpl.
  destruct (scan_resume now p (drop i (store m)) i) as [[it i']|]; reflexivity.
Qed.

Lemma for_await_eq fuel clock (g : @scan_gen)
    (body : list string * V -> M (@mem V) unit) m :
  for_await (S fuel) clock g body m =
    match scan_next clock g m with
    | (Return (Some x, g'), m1) =>
        match body x m1 with
        | (Return _, m2) =>
            match for_await fuel clock g' body m2 with
            | (Return rest, m3) => (Return (x :: rest), m3)
            | (Throw err, m3) => (Throw err, m3)
            | (Diverge, m3) => (Diverge, m3)
            end
        | (Throw err, m2) => (Throw err, m2)
        | (Diverge, m2) => (Diverge, m2)
        end
    | (Return (None, _), m1) => (Return [], m1)
    | (Throw err, m1) => (Throw err, m1)
    | (Diverge, m1) => (Diverge, m1)
    end.
Proof.
  simpl. unfold mbind, M_bind, bind.
  destruct (scan_next clock g m) as [[[[x|] g']| |] m1]; reflexivity.
Qed.

(** Drained by a consumer that leaves the store alone, the generator
    yields the live rows from its index on. *)
Lemma for_await_unmutated rest : forall fuel clock now p i m,
  drop i (store m) = rest -> (length rest < fuel)%nat ->
  for_await fuel clock (Suspended_yield now p i) (fun _ => ret tt) m =
    (Return (live_items now p rest), m).
Proof.
  induction rest as [|[k e] rest IH]; intros fuel clock now p i m Hdrop Hfuel;
    (destruct fuel as [|fuel]; [simpl in Hfuel; lia|]);
    rewrite for_await_eq, scan_next_eq, Hdrop.
  - reflexivity.
  - pose proof (drop_cons_inv _ _ _ _ Hdrop) as Hdrop'.
    simpl in Hfuel. rewrite live_items_cons.
    assert (Hskip :
      match scan_resume now p rest (S i) with
      | Some (it, i') => (Return (Some it, Suspended_yield now p i'), m)
      | None => (Return (None, @Completed), m)
      end = scan_next clock (Suspended_yield now p (S i)) m).
    { rewrite scan_next_eq, Hdrop'. reflexivity. }
    pose proof (IH (S fuel) clock now p (S i) m Hdrop') as IHskip.
    rewrite for_await_eq in IHskip.
    simpl scan_resume.
    destruct (startsWith k p); simpl negb; simpl andb; cbv iota.
    + destruct (expired now e); simpl negb; cbv iota.
      * rewrite Hskip. apply IHskip. lia.
      * cbv beta. change (@ret (@mem V) unit tt m) with (Return tt, m).
        cbv iota. rewrite (IH fuel clock now p (S i) m Hdrop') by lia.
        reflexivity.
    + rewrite Hskip. apply IHskip. lia.
Qed.



(** A consumer whose body never grows the store, and returns unless it
    throws an exception among [bad], is done within the fuel
    [invalidateKeys] allots: the loop returns, or throws what its body
    threw. *)
Lemma for_await_returns (body : list string * V -> M (@mem V) unit)
    (bad : error -> Prop) :
  (forall x m, exists o m',
     body x m = (o, m') /\
     (o = Return tt \/ exists err, o = Throw err /\ bad err) /\
     (length (store m') <= length (store m))%nat) ->
  forall fuel clock now p i m,
    (length (store m) - i < fuel)%nat ->
    exists o m',
      for_await fuel clock (Suspended_yield now p i) body m = (o, m') /\
      ((exists items, o = Return items) \/
       exists err, o = Throw err /\ bad err).
Proof.
  intros Hbody.
  induction fuel as [|fuel IH]; intros clock now p i m Hfuel; [lia|].
  rewrite for_await_eq, scan_next_eq.
  destruct (scan_resume now p (drop i (store m)) i) as [[it i']|] eqn:Hres;
    [|eauto 6].
  apply scan_resume_index in Hres. rewrite length_drop in Hres.
  destruct (Hbody it m) as (o1 & m1 & -> & [->|(err & -> & Hbad)] & Hlen);
    [|eauto 8].
  destruct (IH clock now p i' m1)
    as (o2 & m2 & -> & [[items ->]|(err & -> & Hbad)]); [lia| |]; eauto 8.
Qed.

End ScanFacts.

Section ExpiryFacts.

Import Memory.
Context {V : Type} {C : Collator} {L : CollatorLaws C} {D : @Disk V}.
Variable input : MemoryStorageOptions.

Implicit Types (m : @mem V) (e : @entry V).

Lemma expired_true now e t :
  expiry e = Some t -> t <> 0 -> t <= now -> expired now e = true.
Proof.
  intros He Ht Hle. unfold expired. rewrite He.
  apply andb_true_iff. split; [apply negb_true_iff; lia|lia].
Qed.

(** No live item carries the key of an expired row of a sorted store. *)
Lemma live_items_omit now p (st : list (string * @entry V)) n k e :
  sorted st -> st !! n = Some (k, e) -> expired now e = true ->
  forall it, it ∈ live_items now p st -> it.1 <> splitKey k.
Proof.
  intros Hs Hn He it Hin Hkey.
  apply list_elem_of_In, in_map_iff in Hin.
  destruct Hin as ([k' e'] & <- & [Hin Hlive]%filter_In). simpl in *.
  apply splitKey_inj in Hkey. subst k'.
  apply list_elem_of_In, list_elem_of_lookup_1 in Hin. destruct Hin as [j Hj].
  destruct (decide (j = n)) as [->|Hne].
  - rewrite Hn in Hj. injection Hj as <-. rewrite He in Hlive.
    rewrite andb_false_r in Hlive. discriminate.
  - apply (sorted_keys_distinct st j n _ _ Hs Hj Hn Hne). reflexivity.
Qed.

(** C8 (amended).  When the row for [k] in a sorted store carries a nonzero
    expiry that has passed, [get(k)] takes that row out of the store and
    then settles as the [save] it awaits: it returns absent when there is
    no path to persist to (and whenever the write succeeds) and rejects
    with the exception of the save otherwise, the row being gone either
    way.  A scan over any prefix yields no item with that key and leaves
    the store, and the record of the writes, as they were. *)
Theorem expired_get_removes_scan_omits (key prefix : list string) (k : string)
    e (t now : Z) (n : nat) m :
  sorted (store m) ->
  store m !! n = Some (k, e) ->
  localeCompare (joinKey key) k = Eq ->
  expiry e = Some t -> t <> 0 -> t <= now ->
  (let m1 :=
     with_store (take n (store m) ++ drop (S n) (store m))%list m in
   get input now key m
   = (and_then (save_outcome input m1) None, saved input m1) /\
   store (saved input m1)
   = (take n (store m) ++ drop (S n) (store m))%list /\
   (truthy (persist input) = false ->
    get input now key m = (Return None, m1))) /\
  exists items,
    scan_all now prefix m = (Return items, m) /\
    forall it, it ∈ items -> it.1 <> splitKey k.
Proof.
  intros Hs Hn Heq He Ht Hle.
  pose proof (expired_true now e t He Ht Hle) as Hexp.
  split.
  - rewrite (get_present input now key m n k e Hs Hn Heq), Hexp. cbv zeta.
    split; [reflexivity|]. split; [apply saved_store|].
    intros Hoff. rewrite save_outcome_off, saved_off by exact Hoff.
    reflexivity.
  - exists (live_items now (joinKey prefix) (store m)). split.
    + unfold scan_all. rewrite for_await_start.
      apply for_await_unmutated; [reflexivity|lia].
    + now apply (live_items_omit now (joinKey prefix) (store m) n k e).
Qed.

(** An absent expiry, and the expiry 0, never pass. *)
Lemma falsy_expiry_never_expires now e :
  expiry e = None \/ expiry e = Some 0 -> expired now e = false.
Proof. unfold expired. intros [->| ->]; reflexivity. Qed.



(** A ttl handed to [set] as it is: any nonzero number makes [set] throw
    before it touches the store. *)
Lemma set_number_throws key (v : V) (ttl : Z) m :
  ttl <> 0 -> set input key v (Number ttl) m = (Throw TypeError, m).
Proof.
  intros Hne.
  destruct (search_total (store m) (joinKey key)) as (mt & Hsearch & _).
  rewrite (set_eq input key v _ m mt Hsearch). simpl.
  destruct (Z.eqb_spec ttl 0); [contradiction|reflexivity].
Qed.

End ExpiryFacts.

Section InvalidateKeysFacts.

Import Memory.
Context {V : Type} {C : Collator} {D : @Disk V}.
Variable input : MemoryStorageOptions.

(** [remove] on any store, sorted or not: it never grows the store, and it
    returns unless the save after a removal rejects. *)
Lemma remove_returns (key : list string) (m : @mem V) :
  exists o m',
    remove input key m = (o, m') /\
    (o = Return tt \/
     exists err, o = Throw err /\
       exists m1, save_outcome input m1 = Throw err) /\
    (length (store m') <= length (store m))%nat.
Proof.
  destruct (search_total (store m) (joinKey key)) as (mt & Hsearch & _).
  rewrite (remove_eq input key m mt Hsearch).
  destruct (found mt); eexists _, _; (split; [reflexivity|]);
    [|split; [now left|lia]].
  cbv zeta. rewrite saved_store. cbn [with_store store].
  split; [|apply length_splice_out_le].
  fold (with_store (splice_out (index mt) (store m)) m).
  destruct (save_outcome_cases input
              (with_store (splice_out (index mt) (store m)) m))
    as [->|[err Herr]]; [now left|right].
  exists err. split; [exact Herr|eauto].
Qed.

(** The loop of [invalidateKeys] ends on every store: it returns, or
    rejects with the exception of a save that one of its removals awaited,
    which takes a path to persist to. *)
Lemma invalidateKeys_returns (clock : Z) (subject : string) (m : @mem V) :
  exists o m',
    invalidateKeys input clock subject m = (o, m') /\
    (o = Return tt \/
     exists err, o = Throw err /\
       exists m1, save_outcome input m1 = Throw err) /\
    (truthy (persist input) = false -> o = Return tt).
Proof.
  unfold invalidateKeys, invalidateKeys_yields, mbind, M_bind, bind.
  rewrite for_await_start.
  destruct (for_await_returns (fun it => remove input it.1)
              (fun err => exists m1, save_outcome input m1 = Throw err)
              (fun x m0 => remove_returns x.1 m0)
              (S (length (store m))) clock clock
              (joinKey ["oauth:refresh"; subject]) 0%nat m)
    as (o & m' & -> & [[items ->]|(err & -> & m1 & Hbad)]); [lia| |].
  - eexists _, _. split; [reflexivity|]. split; [now left|reflexivity].
  - eexists _, _. split; [reflexivity|]. split; [right; eauto|].
    intros Hoff. rewrite save_outcome_off in Hbad by exact Hoff.
    discriminate.
Qed.

End InvalidateKeysFacts.

Section StorageExamples.

Import Memory.
#[local] Existing Instance steady_disk.

(** A store persisted to a file: the expired row is taken out, the empty
    store is written after it, and [get] returns. *)
Lemma expired_get_removes_scan_omits_witness :
  let m := (set (C := ordinal_collator) persisting ["k"] 7%nat (DateObj 500)
              empty_mem).2 in
  (let m1 := with_store [] m in
   get (C := ordinal_collator) persisting 1000 ["k"] m
   = (Return None,
      {| store := [];
         writes := [("store.json", []);
                    ("store.json",
                     [("k", {| value := 7%nat; expiry := Some 500 |})])] |})
   /\
   store (saved persisting m1) = [] /\
   (truthy (persist persisting) = false ->
    get (C := ordinal_collator) persisting 1000 ["k"] m
    = (Return None, m1))) /\
  exists items,
    scan_all 1000 ["k"] m = (Return items, m) /\
    forall it, it ∈ items -> it.1 <> splitKey "k".
Proof.
  intros m.
  assert (Hs : sorted (C := ordinal_collator) (store m))
    by apply (set_sorted (L := ordinal_collator_laws)), sorted_nil.
  exact (expired_get_removes_scan_omits (L := ordinal_collator_laws)
           persisting ["k"] ["k"] "k"
           {| value := 7%nat; expiry := Some 500 |} 500 1000 0 m
           Hs eq_refl eq_refl eq_refl ltac:(lia) ltac:(lia)).
Defined.

(** C8 as stated fails for the expiry 0: a row set with [new Date(0)] has
    an expiry that has long passed, yet [get] returns its value and keeps
    the row, and [scan] yields it. *)
Lemma epoch_expiry_is_kept :
  let now := 1700000000000 in
  let m := (set (C := ordinal_collator) no_persist ["k"] 7%nat (DateObj 0)
              empty_mem).2 in
  store m = [("k", {| value := 7%nat; expiry := Some 0 |})] /\
  get (C := ordinal_collator) no_persist now ["k"] m
    = (Return (Some 7%nat), m) /\
  scan_all now ["k"] m = (Return [(["k"], 7%nat)], m).
Proof. repeat split. Qed.



(** Codes are looked up after [encode] has stripped the separator from
    them: a code that was never stored resolves to the properties of the
    stored code it is stripped to. *)
Lemma stripped_codes_collide :
  let m := (setAuthorizationCode (C := ordinal_collator) no_persist
              "ab" 7%nat 0 empty_mem).2 in
  getOauthCode (C := ordinal_collator) no_persist 5
    ("a" ++ SEPERATOR ++ "b") m = (Return (Some 7%nat), m).
Proof. reflexivity. Qed.

(** Rows are found by [localeCompare] on flat keys: under a collation
    that gives the separator no weight, a pair that was never stored
    resolves to the token of another pair whose flat key has the same
    other code units. *)
Lemma keys_collating_equal_collide :
  let m := (setRefreshToken (C := separator_blind_collator) no_persist
              "ab" "c" 7%nat 0 empty_mem).2 in
  map fst (store m) = [joinKey ["oauth:refresh"; "ab"; "c"]] /\
  getRefreshToken (C := separator_blind_collator) no_persist 5 "a" "bc" m
  = (Return (Some 7%nat), m).
Proof. split; reflexivity. Qed.

(** C1.  With any nonzero ttl, [setAuthorizationCode] and [setRefreshToken]
    throw a [TypeError] (the ttl number has no [getTime]) and store
    nothing. *)
Theorem ttl_setters_throw {V : Type} {C : Collator} {D : @Disk V}
    (input : MemoryStorageOptions) (code subject refreshToken : string)
    (properties : V) (ttl : Z) (m : @mem V) :
  ttl <> 0 ->
  setAuthorizationCode input code properties ttl m = (Throw TypeError, m) /\
  setRefreshToken input subject refreshToken properties ttl m
    = (Throw TypeError, m).
Proof.
  intros Hne. split; apply set_number_throws, Hne.
Qed.

Lemma ttl_setters_throw_witness :
  setAuthorizationCode (C := ordinal_collator) no_persist "abc" 7%nat 60
    empty_mem = (Throw TypeError, empty_mem) /\
  setRefreshToken (C := ordinal_collator) no_persist "alice" "tok" 7%nat 60
    empty_mem = (Throw TypeError, empty_mem).
Proof.
  apply (ttl_setters_throw no_persist "abc" "alice" "tok" 7%nat 60 empty_mem).
  lia.
Defined.

(** C2.  [invalidateKeys("alice")] removes "t1" and, the array iterator
    having moved past the row that took its place, never sees "t2", which
    stays readable; and it removes the token of the other subject
    "alice2", whose flat key starts with the prefix of "alice". *)
Theorem invalidateKeys_skips_and_overreaches :
  (exists m',
     invalidateKeys (C := ordinal_collator) no_persist 5 "alice" two_sessions
       = (Return tt, m') /\
     getRefreshToken (C := ordinal_collator) no_persist 5 "alice" "t2" m'
       = (Return (Some 2%nat), m')) /\
  (exists m',
     getRefreshToken (C := ordinal_collator) no_persist 5 "alice2" "t4"
       namesakes = (Return (Some 4%nat), namesakes) /\
     invalidateKeys (C := ordinal_collator) no_persist 5 "alice" namesakes
       = (Return tt, m') /\
     getRefreshToken (C := ordinal_collator) no_persist 5 "alice2" "t4" m'
       = (Return None, m')).
Proof.
  split; eexists.
  - split; reflexivity.
  - split; [reflexivity|]. split; reflexivity.
Qed.



End StorageExamples.

(** ** The client *)

Section ClientFacts.

Import Client.
Context {E : Env}.
Variable issuer : string.

Implicit Types (s : @client_state E).

Lemma truthy_Some (a : string) : Memory.truthy (Some a) = true <-> a <> "".
Proof. destruct a; simpl; split; congruence. Qed.

Lemma refresh_attempts_sending r s :
  refresh_attempts (sending r s) =
    (refresh_attempts s + if is_refresh_request r then 1 else 0)%nat.
Proof.
  unfold refresh_attempts, sending. simpl.
  rewrite filter_app, length_app. f_equal.
  rewrite filter_cons, filter_nil.
  destruct (is_refresh_request r); case_decide; simpl; congruence.
Qed.

Lemma is_refresh_request_refresh (refresh_tok : string) :
  is_refresh_request (refresh_request issuer refresh_tok) = true.
Proof. reflexivity. Qed.

(** With both caches filled, the key set comes from the cache. *)
Lemma getJWKS_hit s (wk : WellKnown) (keys : jwks) :
  issuerCache s !! issuer = Some wk -> jwksCache s !! issuer = Some keys ->
  getJWKS issuer s = (Return keys, s).
Proof.
  intros Hwk Hks.
  unfold getJWKS, getIssuer, mbind, M_bind, bind, gets.
  rewrite Hwk. unfold ret at 1. cbv beta iota. rewrite Hks. reflexivity.
Qed.

Ltac split_matches H :=
  repeat (
    match type of H with
    | context [match ?x with _ => _ end] =>
        lazymatch x with
        | context [match _ with _ => _ end] => fail
        | _ => destruct x eqn:?; cbn beta iota in H; try discriminate H
        end
    end).

Lemma getJWKS_fills s (keys : jwks) s' :
  getJWKS issuer s = (Return keys, s') ->
  (exists wk, issuerCache s' !! issuer = Some wk) /\
  jwksCache s' !! issuer = Some keys /\
  (length (sent s') <= length (sent s) + 2)%nat /\
  (forall r, r ∈ sent s' -> r ∈ sent s \/ exists url, r = GET url).
Proof.
  unfold getJWKS, getIssuer, mbind, M_bind, bind, gets, modify, ret, f,
    await, sending.
  intros H. cbn beta iota in H. split_matches H;
    cbn [issuerCache jwksCache sent] in *; simplify_eq;
    cbn [issuerCache jwksCache sent];
    rewrite ?lookup_insert_eq, ?length_app; cbn [length];
    (split; [eauto|]); (split; [try reflexivity; try assumption|]);
    (split; [lia|]);
    intros r Hr; rewrite ?elem_of_app, ?list_elem_of_singleton in Hr;
    intuition eauto.
Qed.

(** The request of [refresh] and what becomes of its answer. *)
Lemma refresh_sends now (refresh_tok : string) opts s :
  refresh_guard now opts s = (Return None, s) ->
  refresh issuer now refresh_tok opts s =
    (match fetch (sent s) (refresh_request issuer refresh_tok) with
     | Rejected e => Throw e
     | Fulfilled resp =>
         match body resp with
         | Rejected e => Throw e
         | Fulfilled j =>
             if ok resp
             then Return (Refreshed {| access := json_access_token j;
                                       refresh_token := json_refresh_token j |})
             else Return (RefreshErr InvalidRefreshTokenError)
         end
     end,
     sending (refresh_request issuer refresh_tok) s).
Proof.
  intros Hguard. unfold refresh, mbind, M_bind, bind. rewrite Hguard.
  unfold f, await.
  destruct (fetch (sent s) (refresh_request issuer refresh_tok)) as [resp|e];
    [|reflexivity].
  destruct (body resp) as [j|e]; [|reflexivity].
  destruct (ok resp); reflexivity.
Qed.

(** C9 (amended).  [refresh(refreshToken, options)]: with a non-empty
    [options.access] that decodes to an [exp] more than 30 seconds ahead,
    it returns no tokens and no error and sends nothing; with one that
    [decodeJwt] gives nothing for, it returns [InvalidAccessToken], and with
    one that [decodeJwt] throws on, it throws, sending nothing either way;
    in every other case it sends exactly one request, a POST to
    [issuer + "/token"] whose form is [grant_type=refresh_token] and the
    refresh token, and, once the answer and its JSON body have arrived,
    returns the new pair when the answer is ok and [InvalidRefreshToken]
    when it is not. *)
Theorem refresh_behaviour (now : Z) (refresh_tok : string)
    (opts : option refresh_options) s :
  let supplied := opts ≫= access_option in
  let request :=
    POST (issuer ++ "/token")
      [("grant_type", "refresh_token"); ("refresh_token", refresh_tok)] in
  (forall a c,
     supplied = Some a -> a <> "" -> decodeJwt a = Fulfilled (Some c) ->
     now + 30000 < 1000 * default 0 (exp c) ->
     refresh issuer now refresh_tok opts s = (Return NoRefresh, s)) /\
  (forall a,
     supplied = Some a -> a <> "" ->
     (decodeJwt a = Fulfilled None ->
      refresh issuer now refresh_tok opts s
      = (Return (RefreshErr InvalidAccessTokenError), s)) /\
     (forall e, decodeJwt a = Rejected e ->
      refresh issuer now refresh_tok opts s = (Throw e, s))) /\
  ((supplied = None \/ supplied = Some "" \/
    exists a c, supplied = Some a /\ decodeJwt a = Fulfilled (Some c) /\
                1000 * default 0 (exp c) <= now + 30000) ->
   refresh issuer now refresh_tok opts s =
     (match fetch (sent s) request with
      | Rejected e => Throw e
      | Fulfilled resp =>
          match body resp with
          | Rejected e => Throw e
          | Fulfilled j =>
              if ok resp
              then Return (Refreshed
                             {| access := json_access_token j;
                                refresh_token := json_refresh_token j |})
              else Return (RefreshErr InvalidRefreshTokenError)
          end
      end,
      {| issuerCache := issuerCache s; jwksCache := jwksCache s;
         sent := sent s ++ [request] |})).
Proof.
  intros supplied request. subst request.
  change (POST (issuer ++ "/token")
            [("grant_type", "refresh_token"); ("refresh_token", refresh_tok)])
    with (refresh_request issuer refresh_tok).
  fold (sending (refresh_request issuer refresh_tok) s).
  assert (Hearly : forall a r,
            supplied = Some a -> a <> "" ->
            (exists d, decodeJwt a = d /\
               match d with
               | Fulfilled (Some c) =>
                   still_valid now c = true /\ r = Return NoRefresh
               | Fulfilled None =>
                   r = Return (RefreshErr InvalidAccessTokenError)
               | Rejected e => r = Throw e
               end) ->
            refresh issuer now refresh_tok opts s = (r, s)).
  { intros a r Ha Hne (d & Hd & Hr). subst supplied.
    destruct opts as [[acc]|]; simpl in Ha; [|discriminate]. subst acc.
    apply truthy_Some in Hne.
    unfold refresh, refresh_guard, mbind, M_bind, bind, await.
    cbn [access_option]. rewrite Hne.
    change (default "" (Some a)) with a. rewrite Hd.
    destruct d as [[c|]|e].
    - destruct Hr as [-> ->]. reflexivity.
    - subst r. reflexivity.
    - subst r. reflexivity. }
  repeat split.
  - intros a c Ha Hne Hd Hexp. apply (Hearly a); auto.
    eexists. split; [exact Hd|]. split; [|reflexivity].
    unfold still_valid. lia.
  - intros Hd. apply (Hearly a); auto. eexists. split; [exact Hd|reflexivity].
  - intros e Hd. apply (Hearly a); auto. eexists. split; [exact Hd|reflexivity].
  - intros Hcase. apply refresh_sends. subst supplied.
    unfold refresh_guard.
    destruct opts as [[acc]|]; simpl in *; [|reflexivity].
    destruct Hcase as [->|[->|(a & c & -> & Hd & Hexp)]]; try reflexivity.
    destruct (Memory.truthy (Some a)); [|reflexivity].
    unfold mbind, M_bind, bind, await. simpl. rewrite Hd.
    unfold still_valid.
    destruct (Z.gtb_spec (1000 * default 0 (exp c)) (now + 30000)); [lia|].
    reflexivity.
Qed.

End ClientFacts.

Section VerifyFacts.

Import Client.
Context {E : Env} {Q : Type}.
Variable issuer : string.
Variable subjects : string -> option (props -> option (validation Q)).

Implicit Types (s : @client_state E).

Lemma quiet_ret {A} (a : A) : quiet (mret a : M (@client_state E) A).
Proof. intros s. exists (Return a), s. repeat split. discriminate. Qed.

Lemma quiet_bind {A B} (c : M (@client_state E) A)
    (k : A -> M (@client_state E) B) :
  quiet c -> (forall a, quiet (k a)) -> quiet (c ≫= k).
Proof.
  intros Hc Hk s. destruct (Hc s) as (o & s1 & Hcs & Ho & Hs1).
  unfold mbind, M_bind, bind. rewrite Hcs. destruct o as [a| |].
  - destruct (Hk a s1) as (o2 & s2 & -> & Ho2 & Hs2).
    exists o2, s2. repeat split; [exact Ho2|congruence].
  - exists (Throw e), s1. repeat split; [discriminate|exact Hs1].
  - congruence.
Qed.

Lemma quiet_await {A} (p : settled A) : quiet (await p : M (@client_state E) A).
Proof.
  intros s. unfold await. destruct p as [a|e]; eexists _, s;
    (split; [reflexivity|]); split; (discriminate || reflexivity).
Qed.

Lemma quiet_gets {A} (g : @client_state E -> A) : quiet (gets g).
Proof. intros s. exists (Return (g s)), s. repeat split. discriminate. Qed.

Lemma quiet_modify (g : @client_state E -> @client_state E) :
  (forall s, sent (g s) = sent s) -> quiet (modify g).
Proof.
  intros Hg s. exists (Return tt), (g s). repeat split; [discriminate|].
  unfold refresh_attempts. now rewrite Hg.
Qed.

Lemma quiet_GET (url : string) : quiet (f (GET url)).
Proof.
  intros s. unfold f.
  destruct (quiet_await (fetch (sent s) (GET url)) (sending (GET url) s))
    as (o & s' & Heq & Ho & Hs').
  exists o, s'. repeat split; [exact Heq|exact Ho|].
  rewrite Hs', refresh_attempts_sending. simpl. lia.
Qed.

(** Resolving the key set sends plain GET requests only, and returns or
    throws. *)
Lemma getIssuer_quiet : quiet (getIssuer issuer).
Proof.
  unfold getIssuer. apply quiet_bind; [apply quiet_gets|].
  intros [wk|]; [apply quiet_ret|].
  apply quiet_bind; [apply quiet_GET|]. intros r.
  apply quiet_bind; [apply quiet_await|]. intros j.
  apply quiet_bind; [now apply quiet_modify|]. intros _. apply quiet_ret.
Qed.

Lemma getJWKS_quiet : quiet (getJWKS issuer).
Proof.
  unfold getJWKS. apply quiet_bind; [apply getIssuer_quiet|]. intros wk.
  apply quiet_bind; [apply quiet_gets|].
  intros [keys|]; [apply quiet_ret|].
  apply quiet_bind; [apply quiet_GET|]. intros r.
  apply quiet_bind; [apply quiet_await|]. intros j.
  apply quiet_bind; [apply quiet_await|]. intros ks.
  apply quiet_bind; [now apply quiet_modify|]. intros _. apply quiet_ret.
Qed.

Lemma try_block_expired token keys e :
  try_block issuer subjects token keys = Rejected e ->
  is_JWTExpired e = true ->
  jwtVerify token keys issuer = Rejected JWTExpired.
Proof.
  unfold try_block, validate_subject.
  destruct (jwtVerify token keys issuer) as [p|e'].
  - destruct (subjects (type p)) as [validate|].
    + destruct (validate (properties p)) as [[|v]|].
      * discriminate.
      * destruct (String.eqb (mode p) "access"); discriminate.
      * intros [= <-]. discriminate.
    + intros [= <-]. discriminate.
  - intros [= <-]. destruct e'; try discriminate. reflexivity.
Qed.

Lemma verify_S fuel now token options :
  verify issuer subjects (S fuel) now token options =
    (keys ← getJWKS issuer;
     match try_block issuer subjects token keys with
     | Fulfilled r => ret r
     | Rejected e =>
         let refresh_opt := options ≫= refresh_option in
         if is_JWTExpired e && Memory.truthy refresh_opt then
           refreshed ← refresh issuer now (default "" refresh_opt) None;
           match refreshed with
           | RefreshErr err => ret (VerifyErr err)
           | NoRefresh => throw TypeError
           | Refreshed t =>
               verified ← verify issuer subjects fuel now (access t)
                 (Some {| refresh_option := Some (refresh_token t) |});
               match verified with
               | VerifyErr err => ret (VerifyErr err)
               | Subject ty v _ => ret (Subject ty v (Some t))
               end
           end
         else ret (VerifyErr InvalidAccessTokenError)
     end).
Proof. reflexivity. Qed.

(** A token that is not rejected as expired is settled without a refresh
    and without a recursive call. *)
Lemma verify_quiet_without_expiry fuel now token options :
  (forall keys, jwtVerify token keys issuer <> Rejected JWTExpired) ->
  quiet (verify issuer subjects (S fuel) now token options).
Proof.
  intros Hfresh. rewrite verify_S.
  apply quiet_bind; [apply getJWKS_quiet|]. intros keys.
  destruct (try_block issuer subjects token keys) as [r|e] eqn:Htry;
    [apply quiet_ret|].
  destruct (is_JWTExpired e) eqn:He; simpl; [|apply quiet_ret].
  exfalso. apply (Hfresh keys). eapply try_block_expired; eassumption.
Qed.

(** When no access token handed out by the token endpoint is rejected as
    expired, a call returns or throws after at most one refresh request:
    two levels of the recursion suffice. *)
Lemma verify_once_if_fresh (n : nat) (now : Z)
    (token : string) (options : option verify_options) s :
  (forall history refresh_tok resp j keys,
     fetch history (refresh_request issuer refresh_tok) = Fulfilled resp ->
     body resp = Fulfilled j ->
     jwtVerify (json_access_token j) keys issuer <> Rejected JWTExpired) ->
  exists res s',
    verify issuer subjects (2 + n) now token options s = (res, s') /\
    res <> Diverge /\
    (refresh_attempts s' <= refresh_attempts s + 1)%nat.
Proof.
  intros Hfresh.
  change (2 + n)%nat with (S (S n)).
  rewrite verify_S. unfold mbind at 1, M_bind at 1, bind at 1.
  destruct (getJWKS_quiet s) as (o1 & s1 & -> & Ho1 & Hs1).
  destruct o1 as [keys|e|]; [|eexists _, _; repeat split; [discriminate|lia]|
                             congruence].
  destruct (try_block issuer subjects token keys) as [r|e];
    [eexists _, _; repeat split; [discriminate|lia]|].
  destruct (is_JWTExpired e && Memory.truthy (options ≫= refresh_option));
    [|eexists _, _; repeat split; [discriminate|lia]].
  unfold mbind at 1, M_bind at 1, bind at 1.
  rewrite (refresh_sends issuer now _ None s1 eq_refl).
  set (rq := refresh_request issuer (default "" (options ≫= refresh_option))).
  assert (Hs2 : refresh_attempts (sending rq s1)
                = (refresh_attempts s + 1)%nat).
  { rewrite refresh_attempts_sending, Hs1. reflexivity. }
  destruct (fetch (sent s1) rq) as [resp|e2] eqn:Hfetch;
    [|eexists _, _; repeat split; [discriminate|lia]].
  destruct (body resp) as [j|e2] eqn:Hbody;
    [|eexists _, _; repeat split; [discriminate|lia]].
  destruct (ok resp); [|eexists _, _; repeat split; [discriminate|lia]].
  unfold mbind at 1, M_bind at 1, bind at 1. cbn [access refresh_token].
  destruct (verify_quiet_without_expiry n now (json_access_token j)
              (Some {| refresh_option := Some (json_refresh_token j) |})
              (fun keys' => Hfresh _ _ _ _ keys' Hfetch Hbody)
              (sending rq s1)) as (o3 & s3 & -> & Ho3 & Hs3).
  destruct o3 as [[ty v tk|err]|e3|];
    try (eexists _, _; repeat split; [discriminate|lia]).
  congruence.
Qed.

(** One level of [verify] on an expired token, with the caches filled and
    a refresh that is answered with a pair: the refresh is sent, and the
    recursive call verifies the new access token and is handed the new
    refresh token. *)
Lemma verify_expired_step fuel now token refresh_tok s
    (wk : WellKnown) (keys : jwks) e t :
  issuerCache s !! issuer = Some wk -> jwksCache s !! issuer = Some keys ->
  try_block issuer subjects token keys = Rejected e ->
  is_JWTExpired e && Memory.truthy (Some refresh_tok) = true ->
  refreshed_pair issuer refresh_tok s = Some t ->
  verify issuer subjects (S fuel) now token
    (Some {| refresh_option := Some refresh_tok |}) s =
  (verified ← verify issuer subjects fuel now (access t)
      (Some {| refresh_option := Some (refresh_token t) |});
   match verified with
   | VerifyErr err => ret (VerifyErr err)
   | Subject ty v _ => ret (Subject ty v (Some t))
   end) (sending (refresh_request issuer refresh_tok) s).
Proof.
  intros Hwk Hks Htry Hcond Hpair. rewrite verify_S.
  unfold mbind at 1, M_bind at 1, bind at 1.
  rewrite (getJWKS_hit issuer s wk keys Hwk Hks), Htry.
  cbv zeta. cbn [mbind option_bind refresh_option]. rewrite Hcond.
  unfold mbind at 1, M_bind at 1, bind at 1.
  rewrite (refresh_sends issuer now _ None s eq_refl).
  cbn [default from_option id].
  unfold refreshed_pair in Hpair.
  destruct (fetch (sent s) _) as [resp|e2]; [|discriminate].
  destruct (body resp) as [j|e2]; [|discriminate].
  destruct (ok resp); [|discriminate].
  injection Hpair as <-. reflexivity.
Qed.

Lemma mbind_unfold {A B} (c : M (@client_state E) A)
    (k : A -> M (@client_state E) B) s :
  (c ≫= k) s =
    match c s with
    | (Return a, s') => k a s'
    | (Throw e, s') => (Throw e, s')
    | (Diverge, s') => (Diverge, s')
    end.
Proof. reflexivity. Qed.

Lemma same_but_tokens_refl (o : outcome (verify_result Q)) :
  same_but_tokens o o.
Proof. destruct o as [[ty v tk|err]|e|]; simpl; auto. Qed.

(** [n] expired tokens in a row cost [n] levels of the recursion and [n]
    refresh requests, after which [verify] is at the last token held. *)
Lemma verify_expired_run now (wk : WellKnown) (keys : jwks) (fuel : nat) :
  forall n token refresh_tok s token' refresh_tok' s',
    issuerCache s !! issuer = Some wk -> jwksCache s !! issuer = Some keys ->
    expired_run issuer subjects keys n token refresh_tok s
    = Some (token', refresh_tok', s') ->
    refresh_attempts s' = (refresh_attempts s + n)%nat /\
    (verify issuer subjects (n + fuel) now token
       (Some {| refresh_option := Some refresh_tok |}) s).2
    = (verify issuer subjects fuel now token'
         (Some {| refresh_option := Some refresh_tok' |}) s').2 /\
    same_but_tokens
      (verify issuer subjects fuel now token'
         (Some {| refresh_option := Some refresh_tok' |}) s').1
      (verify issuer subjects (n + fuel) now token
         (Some {| refresh_option := Some refresh_tok |}) s).1.
Proof.
  induction n as [|n IH];
    intros token refresh_tok s token' refresh_tok' s' Hwk Hks Hrun.
  - injection Hrun as <- <- <-.
    split; [lia|]. split; [reflexivity|apply same_but_tokens_refl].
  - cbn [expired_run] in Hrun.
    destruct (try_block issuer subjects token keys) as [r|e] eqn:Htry;
      [discriminate|].
    destruct (is_JWTExpired e && Memory.truthy (Some refresh_tok)) eqn:Hcond;
      [|discriminate].
    destruct (refreshed_pair issuer refresh_tok s) as [t|] eqn:Hpair;
      [|discriminate].
    destruct (IH _ _ (sending (refresh_request issuer refresh_tok) s)
                _ _ _ Hwk Hks Hrun) as (Hcount & Hstate & Hsame).
    split.
    + rewrite Hcount, refresh_attempts_sending, is_refresh_request_refresh.
      lia.
    + change (S n + fuel)%nat with (S (n + fuel)).
      rewrite (verify_expired_step _ now token refresh_tok s wk keys e t
                 Hwk Hks Htry Hcond Hpair).
      unfold mbind, M_bind, bind.
      destruct (verify issuer subjects (n + fuel) now (access t) _ _)
        as [o1 s1].
      cbn [fst snd] in Hstate, Hsame.
      destruct (verify issuer subjects fuel now token' _ s') as [o0 s0].
      cbn [fst snd] in Hstate, Hsame |- *.
      destruct o1 as [[ty v tk|err]|e1|]; cbn [fst snd];
        (split; [exact Hstate|]);
        destruct o0 as [[ty0 v0 tk0|err0]|e0|]; simpl in Hsame |- *;
        exact Hsame.
Qed.

(** C3 (amended).  [verify] refreshes once for each access token it finds
    expired while it holds a refresh token, the refreshed one included: the
    recursive call verifies the new access token and is handed the new
    refresh token.  When no access token handed out by the token endpoint
    is rejected as expired, a call returns or throws after at most one
    refresh request (two levels of the recursion suffice).  With the caches
    filled, [n] expired tokens in a row cost [n] refresh requests, after
    which the call goes on as a [verify] of the token and the refresh token
    last handed out; a recursion of depth [n] is not done then, whatever
    [n] is. *)
Theorem verify_refreshes_per_expired_token (now : Z) :
  (forall (n : nat) (token : string) (options : option verify_options) s,
     (forall history refresh_tok resp j keys,
        fetch history (refresh_request issuer refresh_tok) = Fulfilled resp ->
        body resp = Fulfilled j ->
        jwtVerify (json_access_token j) keys issuer <> Rejected JWTExpired) ->
     exists res s',
       verify issuer subjects (2 + n) now token options s = (res, s') /\
       res <> Diverge /\
       (refresh_attempts s' <= refresh_attempts s + 1)%nat) /\
  (forall (n fuel : nat) (token refresh_tok : string) s
          (wk : WellKnown) (keys : jwks) token' refresh_tok' s',
     issuerCache s !! issuer = Some wk -> jwksCache s !! issuer = Some keys ->
     expired_run issuer subjects keys n token refresh_tok s
     = Some (token', refresh_tok', s') ->
     let holding r := Some {| refresh_option := Some r |} in
     refresh_attempts s' = (refresh_attempts s + n)%nat /\
     verify issuer subjects n now token (holding refresh_tok) s
     = (Diverge, s') /\
     (verify issuer subjects (n + fuel) now token (holding refresh_tok) s).2
     = (verify issuer subjects fuel now token' (holding refresh_tok') s').2 /\
     same_but_tokens
       (verify issuer subjects fuel now token' (holding refresh_tok') s').1
       (verify issuer subjects (n + fuel) now token
          (holding refresh_tok) s).1) /\
  (forall (fuel : nat) (token : string) (options : option verify_options)
          s (keys : jwks) s1,
     getJWKS issuer s = (Return keys, s1) ->
     (exists wk, issuerCache s1 !! issuer = Some wk) /\
     jwksCache s1 !! issuer = Some keys /\
     refresh_attempts s1 = refresh_attempts s /\
     verify issuer subjects (S fuel) now token options s
     = verify issuer subjects (S fuel) now token options s1).
Proof.
  split; [|split].
  - intros n token options s. apply verify_once_if_fresh.
  - intros n fuel token refresh_tok s wk keys token' refresh_tok' s'
      Hwk Hks Hrun holding. subst holding.
    destruct (verify_expired_run now wk keys fuel n _ _ _ _ _ _ Hwk Hks Hrun)
      as (Hcount & Hstate & Hsame).
    split; [exact Hcount|]. split; [|split; [exact Hstate|exact Hsame]].
    destruct (verify_expired_run now wk keys 0 n _ _ _ _ _ _ Hwk Hks Hrun)
      as (_ & Hstate0 & Hsame0).
    rewrite Nat.add_0_r in Hstate0, Hsame0. cbn [verify] in Hstate0, Hsame0.
    destruct (verify issuer subjects n now token _ s) as [o1 s1].
    cbn [fst snd diverge] in Hstate0, Hsame0. subst s1.
    destruct o1 as [[ty v tk|err]|e1|]; simpl in Hsame0;
      try contradiction. reflexivity.
  - intros fuel token options s keys s1 Hget.
    destruct (getJWKS_fills issuer s keys s1 Hget) as ([wk Hwk] & Hks & _).
    split; [now exists wk|]. split; [exact Hks|]. split.
    + destruct (getJWKS_quiet s) as (o & s2 & Hq & _ & Hcount).
      congruence.
    + rewrite verify_S, !(mbind_unfold (getJWKS issuer)).
      rewrite Hget, (getJWKS_hit issuer s1 wk keys Hwk Hks). reflexivity.
Qed.

End VerifyFacts.

Section ClientExamples.

Import Client Scripted.

(** An access token that is still valid: nothing is sent.  An access token
    that has expired: the one request is sent, and the pair of the answer
    comes back. *)
Lemma refresh_behaviour_witness :
  refresh (E := env (Some 0%nat)) issuer 1000 "r0"
    (Some {| access_option := Some "valid" |}) (fresh (Some 0%nat))
  = (Return NoRefresh, fresh (Some 0%nat)) /\
  refresh (E := env (Some 0%nat)) issuer 1000 "r0"
    (Some {| access_option := Some "expired" |}) (fresh (Some 0%nat))
  = (Return (Refreshed {| access := "valid"; refresh_token := "r" |}),
     {| issuerCache := ∅; jwksCache := ∅;
        sent := [POST "https://auth.example/token"
                   [("grant_type", "refresh_token");
                    ("refresh_token", "r0")]] |}).
Proof.
  split.
  - refine (proj1 (refresh_behaviour (E := env (Some 0%nat)) issuer 1000 "r0"
                     (Some {| access_option := Some "valid" |})
                     (fresh (Some 0%nat)))
              "valid" {| exp := Some 4102444800 |} eq_refl _ eq_refl _).
    + discriminate.
    + simpl. lia.
  - refine (proj2 (proj2
              (refresh_behaviour (E := env (Some 0%nat)) issuer 1000 "r0"
                 (Some {| access_option := Some "expired" |})
                 (fresh (Some 0%nat)))) _).
    right. right. exists "expired", {| exp := Some 0 |}.
    split; [reflexivity|]. split; [reflexivity|]. simpl. lia.
Defined.

(** C9 as stated fails when [options.access] is supplied and does not
    decode: its [exp] is not more than 30 seconds ahead, yet no request is
    sent, and the call throws what [decodeJwt] threw. *)
Lemma refresh_undecodable_access_sends_nothing :
  let r := refresh (E := env None) issuer 1000 "r0"
             (Some {| access_option := Some "garbage" |}) (fresh None) in
  decodeJwt (Env := env None) "garbage" = Rejected JWTInvalid /\
  r.1 = Throw JWTInvalid /\ sent r.2 = [].
Proof. repeat split. Qed.

(** An issuer whose refreshed tokens are valid: one refresh.  An issuer
    that hands out two expired tokens first: two refreshes, after which
    the call goes on with the token of the second answer, handed the
    refresh token that came with it. *)
Lemma verify_refreshes_per_expired_token_witness :
  (exists res s',
     verify (E := env (Some 0%nat)) issuer subjects (2 + 0) 1000 "expired"
       (Some {| refresh_option := Some "r0" |}) (fresh (Some 0%nat))
     = (res, s') /\
     res <> Diverge /\
     (refresh_attempts s' <= refresh_attempts (fresh (Some 0%nat)) + 1)%nat) /\
  (let s := (getJWKS (E := env (Some 2%nat)) issuer (fresh (Some 2%nat))).2 in
   let s' := sending (refresh_request issuer "r")
               (sending (refresh_request issuer "r0") s) in
   let holding r := Some {| refresh_option := Some r |} in
   refresh_attempts s' = (refresh_attempts s + 2)%nat /\
   verify (E := env (Some 2%nat)) issuer subjects 2 1000 "expired"
     (holding "r0") s = (Diverge, s') /\
   (verify (E := env (Some 2%nat)) issuer subjects (2 + 1) 1000 "expired"
      (holding "r0") s).2
   = (verify (E := env (Some 2%nat)) issuer subjects 1 1000 "expired"
        (holding "r") s').2 /\
   same_but_tokens
     (verify (E := env (Some 2%nat)) issuer subjects 1 1000 "expired"
        (holding "r") s').1
     (verify (E := env (Some 2%nat)) issuer subjects (2 + 1) 1000 "expired"
        (holding "r0") s).1) /\
  (let s := fresh (Some 2%nat) in
   let s1 := (getJWKS (E := env (Some 2%nat)) issuer s).2 in
   (exists wk, issuerCache s1 !! issuer = Some wk) /\
   jwksCache s1 !! issuer = Some tt /\
   refresh_attempts s1 = refresh_attempts s /\
   verify (E := env (Some 2%nat)) issuer subjects 3 1000 "expired"
     (Some {| refresh_option := Some "r0" |}) s
   = verify (E := env (Some 2%nat)) issuer subjects 3 1000 "expired"
       (Some {| refresh_option := Some "r0" |}) s1).
Proof.
  split; [|split].
  - apply (proj1 (verify_refreshes_per_expired_token (E := env (Some 0%nat))
                    issuer subjects 1000)).
    intros history refresh_tok resp j keys Hfetch Hbody.
    simpl in Hfetch. injection Hfetch as <-.
    simpl in Hbody. injection Hbody as <-.
    simpl. discriminate.
  - exact (proj1 (proj2 (verify_refreshes_per_expired_token
                            (E := env (Some 2%nat)) issuer subjects 1000))
             2%nat 1%nat "expired" "r0"
             (getJWKS (E := env (Some 2%nat)) issuer (fresh (Some 2%nat))).2
             well_known tt "expired" "r" _ eq_refl eq_refl eq_refl).
  - exact (proj2 (proj2 (verify_refreshes_per_expired_token
                            (E := env (Some 2%nat)) issuer subjects 1000))
             2%nat "expired" (Some {| refresh_option := Some "r0" |})
             (fresh (Some 2%nat)) tt _ eq_refl).
Defined.

(** C3 as stated fails: against an issuer whose token endpoint hands out
    two expired access tokens before a valid one, a single call of [verify]
    sends three refresh requests (and returns the first, expired, pair as
    the new tokens). *)
Lemma verify_refreshes_thrice :
  let r := verify (E := env (Some 2%nat)) issuer subjects 4 1000 "expired"
             (Some {| refresh_option := Some "r0" |}) (fresh (Some 2%nat)) in
  r.1 = Return (Subject "user" tt
                  (Some {| access := "expired"; refresh_token := "r" |})) /\
  refresh_attempts r.2 = 3%nat.
Proof. split; vm_compute; reflexivity. Qed.

(** Against an issuer that only ever hands out expired access tokens, the
    recursion has no end: whatever the depth allowed, [verify] is still
    refreshing when it is reached, one request per level. *)
Lemma verify_keeps_refreshing (fuel : nat) :
  forall (refresh_tok : string) (s : @client_state (env None)),
    refresh_tok <> EmptyString ->
    issuerCache s !! issuer = Some well_known ->
    jwksCache s !! issuer = Some tt ->
    exists s',
      verify (E := env None) issuer subjects fuel 1000 "expired"
        (Some {| refresh_option := Some refresh_tok |}) s = (Diverge, s') /\
      refresh_attempts s' = (refresh_attempts s + fuel)%nat.
Proof.
  induction fuel as [|fuel IH]; intros refresh_tok s Hne Hwk Hks.
  - exists s. split; [reflexivity|lia].
  - rewrite verify_S.
    assert (Hkeys : getJWKS (E := env None) issuer s = (Return tt, s)).
    { unfold getJWKS, getIssuer, mbind, M_bind, bind, gets.
      rewrite Hwk. unfold ret at 1. cbv beta iota.
      assert (Hks' : @lookup _ (@jwks (env None)) _ _ issuer (jwksCache s)
                     = Some tt) by exact Hks.
      rewrite Hks'. reflexivity. }
    unfold mbind at 1, M_bind at 1, bind at 1. rewrite Hkeys.
    change (try_block (E := env None) issuer subjects "expired" tt)
      with (@Rejected (verify_result unit) JWTExpired).
    cbv beta iota zeta. cbn [mbind option_bind refresh_option is_JWTExpired].
    apply truthy_Some in Hne. rewrite Hne. cbn [andb].
    unfold mbind at 1, M_bind at 1, bind at 1.
    rewrite (refresh_sends (E := env None) issuer 1000 _ None s eq_refl).
    cbn [fetch env answer refresh_request body ok].
    unfold mbind at 1, M_bind at 1, bind at 1.
    cbn [access refresh_token json_access_token json_refresh_token env
         reply_access reply_refresh issued].
    set (rq := refresh_request _ _).
    destruct (IH "r" (sending rq s)) as (s' & -> & Hcount);
      [discriminate|exact Hwk|exact Hks|].
    exists s'. split; [reflexivity|].
    rewrite Hcount, refresh_attempts_sending. subst rq.
    rewrite is_refresh_request_refresh. lia.
Qed.

End ClientExamples.

(** * Further properties of the code *)

(** ** Key codec *)

Section CodecProperties.

(** X1.  Splitting a flat key and joining the pieces again gives the flat
    key back, for every string: [splitKey] loses nothing, whatever the
    string holds. *)
Theorem joinKey_after_splitKey (s : string) : joinKey (splitKey s) = s.
Proof. apply joinKey_splitKey. Qed.

Lemma strip_strip c s : strip c (strip c s) = strip c s.
Proof.
  induction s as [|a s IH]; simpl; [reflexivity|].
  destruct (Ascii.eqb a c) eqn:E; [exact IH|].
  simpl. rewrite E, IH. reflexivity.
Qed.

(** X2.  [encode] keeps the number of segments, leaves no separator in any
    of them and changes nothing when applied again; a key that went
    through [encode] and has a segment survives [joinKey] followed by
    [splitKey] unchanged. *)
Theorem encode_sanitizes (x : string) (xs : list string) :
  length (encode (x :: xs)) = length (x :: xs) /\
  Forall (free_of SEPERATOR_char) (encode (x :: xs)) /\
  encode (encode (x :: xs)) = encode (x :: xs) /\
  splitKey (joinKey (encode (x :: xs))) = encode (x :: xs).
Proof.
  split; [|split; [|split]].
  - unfold encode. apply length_map.
  - apply (encode_free (x :: xs)).
  - unfold encode. rewrite map_map. apply map_ext. intros s.
    apply strip_strip.
  - apply splitKey_joinKey_cons. apply (encode_free (x :: xs)).
Qed.

(** X3.  Two keys that have a segment and no separator in their segments
    are joined to the same flat key only when they are the same key. *)
Theorem joinKey_injective (xs ys : list string) :
  xs <> [] -> ys <> [] ->
  Forall (free_of SEPERATOR_char) xs -> Forall (free_of SEPERATOR_char) ys ->
  joinKey xs = joinKey ys -> xs = ys.
Proof.
  destruct xs as [|x xs]; [congruence|]. destruct ys as [|y ys]; [congruence|].
  intros _ _ Hx Hy Heq.
  rewrite <- (splitKey_joinKey_cons x xs Hx).
  rewrite <- (splitKey_joinKey_cons y ys Hy).
  now rewrite Heq.
Qed.

Lemma joinKey_injective_witness :
  joinKey (encode ["oauth:code"; "abc"]) = joinKey ["oauth:code"; "abc"] /\
  encode ["oauth:code"; "abc"] = ["oauth:code"; "abc"].
Proof.
  split; [reflexivity|].
  apply joinKey_injective; try discriminate;
    try (repeat constructor; discriminate).
Defined.

End CodecProperties.

(** ** Binary search *)

Section SearchProperties.

Import Memory.
Context {V : Type} {C : Collator}.

Implicit Types (st : list (string * @entry V)) (key : string).

(** X4.  On every store, sorted or not, [search] returns: it never reads
    outside the array, its index lies between 0 and the length of the
    store, and below the length when it reports a match, which is then a
    row that compares equal to the key. *)
Theorem search_in_bounds st key :
  exists mt,
    search st key = Return mt /\
    0 <= index mt <= Z.of_nat (length st) /\
    (found mt = true ->
     exists r, st !! Z.to_nat (index mt) = Some r /\
               localeCompare key r.1 = Eq).
Proof.
  assert (Hloop : forall fuel left right mt,
            search_loop fuel st key left right = Return mt ->
            found mt = true ->
            exists r, st !! Z.to_nat (index mt) = Some r /\
                      localeCompare key r.1 = Eq).
  { induction fuel as [|fuel IH]; intros left right mt; simpl; [discriminate|].
    destruct (left <=? right); [|intros [= <-]; discriminate].
    destruct (at_index st ((left + right) / 2)) as [[k e]|] eqn:Hat;
      [|discriminate].
    destruct (localeCompare key k) eqn:Hcmp.
    - intros [= <-] _. simpl. apply at_index_Some in Hat.
      exists (k, e). split; [apply Hat|exact Hcmp].
    - apply IH.
    - apply IH. }
  destruct (search_total st key) as (mt & Hsearch & Hrange & _).
  exists mt. split; [exact Hsearch|]. split; [exact Hrange|].
  apply (Hloop _ _ _ _ Hsearch).
Qed.

Lemma search_loop_more_fuel st key fuel left right mt :
  search_loop fuel st key left right = Return mt ->
  forall extra, search_loop (fuel + extra) st key left right = Return mt.
Proof.
  revert left right. induction fuel as [|fuel IH]; intros left right;
    simpl; [discriminate|].
  intros H extra. destruct (left <=? right); [|exact H].
  destruct (at_index st ((left + right) / 2)) as [[k e]|]; [|exact H].
  destruct (localeCompare key k); [exact H|now apply IH|now apply IH].
Qed.

Lemma search_loop_halves st key (k : nat) : forall left right,
  0 <= left -> right < Z.of_nat (length st) -> left <= right + 1 ->
  right - left + 1 < 2 ^ Z.of_nat k ->
  exists mt, search_loop (S k) st key left right = Return mt.
Proof.
  induction k as [|k IH]; intros left right Hl Hr Hlr Hsize.
  - simpl in *. destruct (Z.leb_spec left right); [lia|]. eauto.
  - rewrite Nat2Z.inj_succ, Z.pow_succ_r in Hsize by lia.
    change (search_loop (S (S k)) st key left right) with
      (if left <=? right then
         match at_index st ((left + right) / 2) with
         | None => Throw TypeError
         | Some (k0, _) =>
             match localeCompare key k0 with
             | Eq => Return {| found := true; index := (left + right) / 2 |}
             | Lt => search_loop (S k) st key left ((left + right) / 2 - 1)
             | Gt => search_loop (S k) st key ((left + right) / 2 + 1) right
             end
         end
       else Return {| found := false; index := left |}).
    destruct (Z.leb_spec left right) as [Hle|Hgt]; [|eauto].
    pose proof (Z.div_mod (left + right) 2 ltac:(lia)) as Hdm.
    pose proof (Z.mod_pos_bound (left + right) 2 ltac:(lia)) as Hmod.
    destruct (at_index_in_range st ((left + right) / 2)) as [[k0 e] Hk];
      [lia|]. rewrite Hk.
    destruct (localeCompare key k0); [eauto|apply IH; lia|apply IH; lia].
Qed.

(** X5.  The loop of [search] runs a logarithmic number of times: when the
    store has fewer than [2^k] rows, [k] passes through the loop body and
    the final test give the result of [search], on every store. *)
Theorem search_is_logarithmic st key (k : nat) :
  Z.of_nat (length st) < 2 ^ Z.of_nat k ->
  search_loop (S k) st key 0 (Z.of_nat (length st) - 1) = search st key.
Proof.
  intros Hk.
  destruct (search_loop_halves st key k 0 (Z.of_nat (length st) - 1))
    as [mt Hmt]; try lia.
  destruct (search_total st key) as (mt' & Hsearch & _).
  rewrite Hmt, Hsearch. unfold search in Hsearch.
  destruct (Nat.le_ge_cases (S k) (S (length st))) as [Hle|Hge].
  - pose proof (search_loop_more_fuel _ _ _ _ _ _ Hmt (S (length st) - S k))
      as Hmore.
    replace (S k + (S (length st) - S k))%nat with (S (length st)) in Hmore
      by lia.
    congruence.
  - pose proof (search_loop_more_fuel _ _ _ _ _ _ Hsearch
                  (S k - S (length st))) as Hmore.
    replace (S (length st) + (S k - S (length st)))%nat with (S k) in Hmore
      by lia.
    congruence.
Qed.

Context {L : CollatorLaws C}.

(** X6.  On a sorted store [search] is right both ways: it reports a match
    exactly at the one row that collates equal to the key, and otherwise
    no row collates equal and its index is the insertion point, with every
    row before it below the key and every row from it on above the key. *)
Theorem search_finds_or_places st key :
  sorted st ->
  exists mt,
    search st key = Return mt /\
    (found mt = true ->
     exists r, st !! Z.to_nat (index mt) = Some r /\
               localeCompare key r.1 = Eq) /\
    (found mt = false ->
     absent st key /\
     forall (i : nat) r, st !! i = Some r ->
       if Z.of_nat i <? index mt then localeCompare r.1 key = Lt
       else localeCompare key r.1 = Lt) /\
    (forall (n : nat) k e, st !! n = Some (k, e) -> localeCompare key k = Eq ->
       mt = {| found := true; index := Z.of_nat n |}).
Proof.
  intros Hs.
  destruct (search_sorted st key Hs) as (mt & Hsearch & Hpost).
  exists mt. split; [exact Hsearch|]. split; [|split].
  - intros Hf. destruct Hpost as (_ & Hpost). rewrite Hf in Hpost.
    destruct Hpost as (r & [_ Hr]%at_index_Some & Heq). eauto.
  - intros Hf. split; [now apply (search_not_found_absent st key mt)|].
    destruct Hpost as (_ & Hpost). rewrite Hf in Hpost.
    destruct Hpost as [Hbelow Habove]. intros i r Hi.
    assert (Hat : at_index st (Z.of_nat i) = Some r).
    { apply at_index_Some. split; [lia|]. now rewrite Nat2Z.id. }
    destruct (Z.ltb_spec (Z.of_nat i) (index mt)) as [Hlt|Hge].
    + apply collate_gt_lt. now apply (Hbelow (Z.of_nat i)).
    + now apply (Habove (Z.of_nat i)).
  - intros n k e Hn Heq.
    pose proof (search_found_at st key n k e Hs Hn Heq) as Hat.
    congruence.
Qed.

End SearchProperties.

Section SearchPropertyExamples.

Import Memory.
#[local] Existing Instance steady_disk.

Lemma search_finds_or_places_witness :
  exists mt,
    search (C := ordinal_collator) (store two_sessions) "m" = Return mt /\
    (found mt = true ->
     exists r, store two_sessions !! Z.to_nat (index mt) = Some r /\
               localeCompare (Collator := ordinal_collator) "m" r.1 = Eq) /\
    (found mt = false ->
     absent (C := ordinal_collator) (store two_sessions) "m" /\
     forall (i : nat) r, store two_sessions !! i = Some r ->
       if Z.of_nat i <? index mt
       then localeCompare (Collator := ordinal_collator) r.1 "m" = Lt
       else localeCompare (Collator := ordinal_collator) "m" r.1 = Lt) /\
    (forall (n : nat) k e, store two_sessions !! n = Some (k, e) ->
       localeCompare (Collator := ordinal_collator) "m" k = Eq ->
       mt = {| found := true; index := Z.of_nat n |}).
Proof.
  apply (search_finds_or_places (L := ordinal_collator_laws)).
  apply (run_sorted (L := ordinal_collator_laws) no_persist
           [Set_ (encode ["oauth:refresh"; "alice"; "t1"]) 1%nat (Number 0);
            Set_ (encode ["oauth:refresh"; "alice"; "t2"]) 2%nat (Number 0);
            Set_ (encode ["oauth:refresh"; "bob"; "t3"]) 3%nat (Number 0)]
           empty_mem).
  apply sorted_nil.
Defined.

Lemma search_is_logarithmic_witness :
  search_loop (C := ordinal_collator) (S 2) (store two_sessions)
    (joinKey ["oauth:refresh"; "bob"; "t3"]) 0
    (Z.of_nat (length (store two_sessions)) - 1)
  = search (C := ordinal_collator) (store two_sessions)
      (joinKey ["oauth:refresh"; "bob"; "t3"]).
Proof. apply search_is_logarithmic. vm_compute. reflexivity. Defined.

End SearchPropertyExamples.

(** ** Rows of the store after [set] and [remove] *)

Section RowLists.

Context {A : Type}.
Implicit Types (l : list A) (i j : nat) (x y : A).

Lemma elem_of_splice_out l i y :
  y ∈ (take i l ++ drop (S i) l)%list <-> exists j, j <> i /\ l !! j = Some y.
Proof.
  split.
  - intros [n Hn]%list_elem_of_lookup_1. rewrite lookup_splice_out in Hn.
    case_decide; [exists n|exists (S n)]; (split; [lia|exact Hn]).
  - intros (j & Hne & Hj). apply list_elem_of_lookup.
    destruct (Nat.lt_ge_cases j i) as [Hlt|Hge].
    + exists j. rewrite lookup_splice_out. case_decide; [exact Hj|lia].
    + exists (j - 1)%nat. rewrite lookup_splice_out.
      case_decide; [lia|]. replace (S (j - 1)) with j by lia. exact Hj.
Qed.

Lemma elem_of_splice_in l i x y :
  y ∈ (take i l ++ x :: drop i l)%list <-> y = x \/ y ∈ l.
Proof.
  transitivity (y = x \/ y ∈ (take i l ++ drop i l)%list).
  - rewrite !elem_of_app, elem_of_cons. tauto.
  - rewrite take_drop. reflexivity.
Qed.

Lemma elem_of_assign l i x y :
  (i < length l)%nat ->
  y ∈ <[i := x]> l <-> y = x \/ exists j, j <> i /\ l !! j = Some y.
Proof.
  intros Hi. split.
  - intros [n Hn]%list_elem_of_lookup_1.
    apply list_lookup_insert_Some in Hn.
    destruct Hn as [(_ & <- & _)|[Hne Hn]]; [now left|].
    right. exists n. split; [congruence|exact Hn].
  - intros [->|(j & Hne & Hj)]; apply list_elem_of_lookup.
    + exists i. now apply list_lookup_insert_eq.
    + exists j. rewrite list_lookup_insert_ne by congruence. exact Hj.
Qed.

End RowLists.

Section StoreContents.

Import Memory.
Context {V : Type} {C : Collator} {L : CollatorLaws C} {D : @Disk V}.
Variable input : MemoryStorageOptions.

Implicit Types (m : @mem V) (st : list (string * @entry V)).

(** In a sorted store the rows at the other indices are the rows that do
    not collate equal to the key of the row at [i]. *)
Lemma other_rows st key i r0 r :
  sorted st -> st !! i = Some r0 -> localeCompare key r0.1 = Eq ->
  (exists j, j <> i /\ st !! j = Some r) <->
  (r ∈ st /\ localeCompare key r.1 <> Eq).
Proof.
  intros Hs Hi Heq. split.
  - intros (j & Hne & Hj). split; [eapply list_elem_of_lookup_2, Hj|].
    rewrite (collate_eq_compat _ _ _ Heq). intros Hc.
    destruct (Nat.lt_total i j) as [Hlt|[->|Hgt]]; [|congruence|].
    + pose proof (Hs _ _ _ _ Hlt Hi Hj) as Hlt'. cbv beta in Hlt'. congruence.
    + pose proof (Hs _ _ _ _ Hgt Hj Hi) as Hlt'. cbv beta in Hlt'.
      apply collate_eq_sym in Hc. congruence.
  - intros [[j Hj]%list_elem_of_lookup_1 Hne]. exists j. split; [|exact Hj].
    intros ->. rewrite Hi in Hj. injection Hj as <-. contradiction.
Qed.

Lemma set_rows key (v : V) ex t m :
  sorted (store m) -> expiry_field ex = Return t ->
  let m' := (set input key v ex m).2 in
  (forall r, r ∈ store m' <->
     r = (joinKey key, {| value := v; expiry := t |}) \/
     (r ∈ store m /\ localeCompare (joinKey key) r.1 <> Eq)) /\
  (absent (store m) (joinKey key) ->
   length (store m') = S (length (store m))) /\
  ((exists r, r ∈ store m /\ localeCompare (joinKey key) r.1 = Eq) ->
   length (store m') = length (store m)).
Proof.
  intros Hs Hex.
  destruct (search_sorted (store m) (joinKey key) Hs) as (mt & Hsearch & Hpost).
  cbv zeta. rewrite (set_eq input key v ex m mt Hsearch), Hex.
  cbv zeta. cbn [snd]. rewrite saved_store. cbn [with_store store].
  destruct (found mt) eqn:Hf; cbn [negb].
  - pose proof Hpost as (Hrange & Hp). rewrite Hf in Hp.
    destruct Hp as (r0 & [H0 Hr0]%at_index_Some & Heq).
    pose proof (lookup_lt_Some _ _ _ Hr0) as Hlen.
    split.
    + intros r. unfold assign. rewrite (elem_of_assign _ _ _ _ Hlen).
      now rewrite (other_rows _ _ _ _ r Hs Hr0 Heq).
    + unfold assign. rewrite length_insert. split; [|reflexivity].
      intros Habs. exfalso.
      apply (Habs r0); [eapply list_elem_of_lookup_2, Hr0|exact Heq].
  - pose proof (search_not_found_absent _ _ _ Hpost Hf) as Habs.
    split.
    + intros r. unfold splice_in. rewrite elem_of_splice_in.
      split; (intros [?|?]; [now left|right]); [|tauto].
      split; [assumption|]. now apply Habs.
    + split.
      * intros _. unfold splice_in. rewrite length_app, length_take. simpl.
        rewrite length_drop. destruct Hpost as (Hrange & _). lia.
      * intros (r & Hin & Heq). exfalso. now apply (Habs r).
Qed.

Lemma remove_rows key m :
  sorted (store m) ->
  forall r, r ∈ store (remove input key m).2 <->
            (r ∈ store m /\ localeCompare (joinKey key) r.1 <> Eq).
Proof.
  intros Hs r.
  destruct (search_sorted (store m) (joinKey key) Hs) as (mt & Hsearch & Hpost).
  rewrite (remove_eq input key m mt Hsearch).
  destruct (found mt) eqn:Hf; cbv zeta; cbn [snd].
  - rewrite saved_store. cbn [with_store store].
    destruct Hpost as (Hrange & Hp). rewrite Hf in Hp.
    destruct Hp as (r0 & [H0 Hr0]%at_index_Some & Heq).
    unfold splice_out. rewrite elem_of_splice_out.
    now apply other_rows with r0.
  - pose proof (search_not_found_absent _ _ _ Hpost Hf) as Habs.
    split; [|tauto]. intros Hin. split; [exact Hin|now apply Habs].
Qed.

(** What [get] returns on a sorted store depends on the rows that collate
    equal to the key only, as long as it does not come to save: that is,
    unless it finds an expired row, which it takes out of either store. *)
Lemma get_agree now key m m' :
  sorted (store m) -> sorted (store m') ->
  (forall r, localeCompare (joinKey key) r.1 = Eq ->
             (r ∈ store m' <-> r ∈ store m)) ->
  (get input now key m').1 = (get input now key m).1 \/
  exists e m1 m1',
    holds (store m) (joinKey key) e /\ expired now e = true /\
    (get input now key m).1 = and_then (save_outcome input m1) None /\
    (get input now key m').1 = and_then (save_outcome input m1') None.
Proof.
  intros Hs Hs' Hsame.
  destruct (search_sorted (store m) (joinKey key) Hs) as (mt & Hsearch & Hpost).
  destruct (found mt) eqn:Hf.
  - destruct Hpost as (_ & Hp). rewrite Hf in Hp.
    destruct Hp as ([k e] & [_ Hr]%at_index_Some & Heq). simpl in Heq.
    assert (Hin : (k, e) ∈ store m) by (eapply list_elem_of_lookup_2, Hr).
    assert (Hin' : (k, e) ∈ store m') by (apply Hsame; assumption).
    apply list_elem_of_lookup_1 in Hin'. destruct Hin' as [n' Hn'].
    rewrite (get_present input now key m _ k e Hs Hr Heq).
    rewrite (get_present input now key m' n' k e Hs' Hn' Heq).
    destruct (expired now e) eqn:He; [right|now left].
    eexists e, _, _. split; [now exists k|]. split; [exact He|].
    split; reflexivity.
  - pose proof (search_not_found_absent _ _ _ Hpost Hf) as Habs.
    rewrite (get_absent input now key m Hs Habs).
    rewrite (get_absent input now key m' Hs'); [now left|].
    intros r Hin Heq. apply (Habs r); [|exact Heq]. now apply Hsame.
Qed.

Lemma not_eq_transfer (a b c : string) :
  localeCompare a b <> Eq -> localeCompare a c = Eq ->
  localeCompare b c <> Eq.
Proof.
  intros Hne Hac Hbc. apply Hne.
  rewrite (collate_eq_compat _ _ _ Hac). now apply collate_eq_sym.
Qed.

(** X7.  [set(k, v)] with an expiry that is not a nonzero number, on a
    sorted store: the store then holds the new row and, of the rows it
    held, exactly those whose key does not collate equal to [k]; it has one
    row more when no row was held for [k] and as many as before when one
    was (the row is replaced in place).  [set] settles as the [save] it
    awaits after that: it returns when there is no path to persist to. *)
Theorem set_replaces_or_inserts (key : list string) (v : V) ex t m :
  sorted (store m) -> expiry_field ex = Return t ->
  let m' := (set input key v ex m).2 in
  (set input key v ex m).1
  = save_outcome input (with_store (store m') m) /\
  (truthy (persist input) = false ->
   (set input key v ex m).1 = Return tt) /\
  (forall r, r ∈ store m' <->
     r = (joinKey key, {| value := v; expiry := t |}) \/
     (r ∈ store m /\ localeCompare (joinKey key) r.1 <> Eq)) /\
  (absent (store m) (joinKey key) ->
   length (store m') = S (length (store m))) /\
  ((exists r, r ∈ store m /\ localeCompare (joinKey key) r.1 = Eq) ->
   length (store m') = length (store m)).
Proof.
  intros Hs Hex.
  destruct (set_writes input key v ex t m Hs Hex) as (m1 & n & Hset & _).
  cbv zeta. split; [now rewrite Hset|]. split; [|now apply set_rows].
  intros Hoff. rewrite Hset. now apply save_outcome_off.
Qed.

(** X8.  [remove(k)] on a sorted store leaves exactly the rows whose key
    does not collate equal to [k].  When no row was held for [k] it
    returns, changes nothing and saves nothing; when one was, it settles
    as the [save] it awaits after the removal, and returns when there is
    no path to persist to. *)
Theorem remove_deletes_exactly (key : list string) m :
  sorted (store m) ->
  let m' := (remove input key m).2 in
  (forall r, r ∈ store m' <->
             (r ∈ store m /\ localeCompare (joinKey key) r.1 <> Eq)) /\
  (absent (store m) (joinKey key) -> remove input key m = (Return tt, m)) /\
  ((exists r, r ∈ store m /\ localeCompare (joinKey key) r.1 = Eq) ->
   (remove input key m).1 = save_outcome input (with_store (store m') m)) /\
  (truthy (persist input) = false -> (remove input key m).1 = Return tt).
Proof.
  intros Hs. cbv zeta. split; [apply (remove_rows key m Hs)|].
  destruct (search_sorted (store m) (joinKey key) Hs) as (mt & Hsearch & Hpost).
  rewrite (remove_eq input key m mt Hsearch).
  destruct (found mt) eqn:Hf; cbv zeta; cbn [fst snd].
  - split; [|split].
    + intros Habs. exfalso.
      destruct Hpost as (_ & Hp). rewrite Hf in Hp.
      destruct Hp as (r0 & [_ Hr0]%at_index_Some & Heq).
      apply (Habs r0); [eapply list_elem_of_lookup_2, Hr0|exact Heq].
    + intros _. rewrite saved_store. reflexivity.
    + intros Hoff. now apply save_outcome_off.
  - split; [reflexivity|]. split; [|reflexivity].
    intros (r & Hin & Heq). exfalso.
    now apply (search_not_found_absent _ _ _ Hpost Hf r).
Qed.

(** X9.  [set] and [remove] on a key leave the reads of every other key as
    they were: on a sorted store, for every [k'] that does not collate
    equal to [k], [get(k')] finds after [set(k, v)] or [remove(k)] what it
    found before.  Its result is the same, except when the row of [k'] has
    expired: then either call takes that row out and settles as the [save]
    it awaits, so that the results are the same again when there is no
    path to persist to. *)
Theorem other_keys_unaffected (key key' : list string) (v : V) ex now m :
  sorted (store m) ->
  localeCompare (joinKey key) (joinKey key') <> Eq ->
  let same (m' : @mem V) :=
    ((get input now key' m').1 = (get input now key' m).1 \/
     exists e m1 m1',
       holds (store m) (joinKey key') e /\ expired now e = true /\
       (get input now key' m).1 = and_then (save_outcome input m1) None /\
       (get input now key' m').1
       = and_then (save_outcome input m1') None) /\
    (truthy (persist input) = false ->
     (get input now key' m').1 = (get input now key' m).1) in
  same (set input key v ex m).2 /\ same (remove input key m).2.
Proof.
  intros Hs Hne same.
  assert (Hsame : forall m',
            sorted (store m') ->
            (forall r, localeCompare (joinKey key') r.1 = Eq ->
                       (r ∈ store m' <-> r ∈ store m)) ->
            same m').
  { intros m' Hs' Hrows.
    pose proof (get_agree now key' m m' Hs Hs' Hrows) as Hag.
    split; [exact Hag|]. intros Hoff.
    destruct Hag as [Hag|(e & m1 & m1' & _ & _ & -> & ->)]; [exact Hag|].
    now rewrite !save_outcome_off. }
  split; apply Hsame.
  - now apply set_sorted.
  - intros r Heq.
    destruct (expiry_field ex) as [t| |] eqn:Hex.
    + destruct (set_rows key v ex t m Hs Hex) as [Hrows _].
      rewrite (Hrows r). split.
      * intros [->|[Hin _]]; [|exact Hin].
        simpl in Heq. apply collate_eq_sym in Heq. contradiction.
      * intros Hin. right. split; [exact Hin|].
        apply (not_eq_transfer (joinKey key') (joinKey key) r.1);
          [|exact Heq].
        intros Hc. apply Hne. now apply collate_eq_sym.
    + destruct (search_total (store m) (joinKey key)) as (mt & Hsearch & _).
      rewrite (set_eq input key v ex m mt Hsearch), Hex. reflexivity.
    + destruct (search_total (store m) (joinKey key)) as (mt & Hsearch & _).
      rewrite (set_eq input key v ex m mt Hsearch), Hex. reflexivity.
  - now apply remove_sorted.
  - intros r Heq. rewrite (remove_rows key m Hs r). split; [tauto|].
    intros Hin. split; [exact Hin|].
    apply (not_eq_transfer (joinKey key') (joinKey key) r.1); [|exact Heq].
    intros Hc. apply Hne. now apply collate_eq_sym.
Qed.

End StoreContents.

Section Persistence.

Import Memory.
Context {V : Type} {C : Collator} {D : @Disk V}.
Variable input : MemoryStorageOptions.

Implicit Types (m : @mem V).

(** An operation leaves the state alone or ends with [save], and then it
    returns only when that [save] does. *)
Lemma step_saves_or_skips m (o : @op V) :
  step input m o = m \/
  exists st',
    step input m o = saved input (with_store st' m) /\
    (returned input m o ->
     save_outcome input (with_store st' m) = Return tt).
Proof.
  destruct o as [key v ex|key|now key]; simpl;
    destruct (search_total (store m) (joinKey key)) as (mt & Hsearch & Hr & Hf).
  - rewrite (set_eq input key v ex m mt Hsearch).
    destruct (expiry_field ex); simpl; eauto.
  - rewrite (remove_eq input key m mt Hsearch).
    destruct (found mt); simpl; eauto.
  - rewrite (get_eq input now key m mt Hsearch).
    destruct (negb (found mt)); simpl; [now left|].
    destruct (at_index (store m) (index mt)) as [[k e]|]; simpl; [|now left].
    destruct (expired now e); simpl; [right|now left].
    eexists. split; [reflexivity|]. intros [r Hr'].
    destruct (save_outcome input _) as [[]| |]; [reflexivity| |];
      discriminate Hr'.
Qed.

(** What [save] adds to the record of the writes. *)
Lemma saved_writes m :
  writes (saved input m) = writes m \/
  exists file,
    truthy (persist input) = true /\
    JSON_stringify (store m) = Fulfilled file /\
    writes (saved input m) = (default "" (persist input), file) :: writes m /\
    (save_outcome input m = Return tt ->
     writeFile (writes m) (default "" (persist input)) file = Fulfilled tt).
Proof.
  unfold saved, save_outcome. rewrite save_unfold.
  destruct (truthy (persist input)); cbn [negb]; [|now left].
  destruct (JSON_stringify (store m)) as [file|err]; [right|now left].
  exists file. cbn [fst snd writes]. repeat split.
  destruct (writeFile _ _ file) as [[]|err]; [reflexivity|discriminate].
Qed.

Lemma saved_durable initial m :
  truthy (persist input) = true -> save_outcome input m = Return tt ->
  durable initial (saved input m).
Proof.
  intros Hon Hok. unfold durable.
  destruct (saved_writes m) as [Hw|(file & _ & Hfile & Hw & Hwrite)].
  - exfalso. revert Hok Hw. unfold saved, save_outcome.
    rewrite save_unfold, Hon. cbn [negb].
    destruct (JSON_stringify (store m)) as [file|err]; [|discriminate].
    cbn [snd writes]. intros _ Hw.
    apply (f_equal length) in Hw. simpl in Hw. lia.
  - rewrite Hw, saved_store. split; [exact Hfile|now apply Hwrite].
Qed.

Lemma step_durable initial m (o : @op V) :
  truthy (persist input) = true ->
  durable initial m -> returned input m o ->
  durable initial (step input m o).
Proof.
  intros Hon Hm Hret.
  destruct (step_saves_or_skips m o) as [->|(st' & -> & Hok)]; [exact Hm|].
  apply saved_durable; [exact Hon|now apply Hok].
Qed.

Lemma run_durable initial (ops : list (@op V)) : forall m,
  truthy (persist input) = true ->
  durable initial m -> all_returned input ops m ->
  durable initial (run input ops m).
Proof.
  induction ops as [|o ops IH]; intros m Hon Hm Hall; simpl; [exact Hm|].
  destruct Hall as [Hret Hall].
  apply IH; [exact Hon| |exact Hall]. now apply step_durable.
Qed.

Lemma step_writes m (o : @op V) :
  (truthy (persist input) = false -> writes (step input m o) = writes m) /\
  (forall call, call ∈ writes (step input m o) ->
     call ∈ writes m \/ call.1 = default "" (persist input)).
Proof.
  destruct (step_saves_or_skips m o) as [->|(st' & -> & _)];
    [split; [reflexivity|now left]|].
  split.
  - intros Hoff. now rewrite saved_off.
  - intros call.
    destruct (saved_writes (with_store st' m))
      as [->|(file & _ & _ & -> & _)]; [now left|].
    intros [->|Hin]%elem_of_cons; [now right|now left].
Qed.

Lemma run_writes (ops : list (@op V)) : forall m,
  (truthy (persist input) = false -> writes (run input ops m) = writes m) /\
  (forall call, call ∈ writes (run input ops m) ->
     call ∈ writes m \/ call.1 = default "" (persist input)).
Proof.
  induction ops as [|o ops IH]; intros m; simpl;
    [split; [reflexivity|now left]|].
  destruct (IH (step input m o)) as [IHoff IHin].
  destruct (step_writes m o) as [Hoff Hin].
  split.
  - intros H. now rewrite IHoff, Hoff.
  - intros call [Hc|Hc]%IHin; [now apply Hin|now right].
Qed.

(** X10.  Persistence is write-through.  Whatever [set], [remove] and [get]
    calls were made on a [MemoryStorage(input)], with or without a file
    loaded at the start: [writeFile] was never called when no path is
    configured; every call of it went to the configured path; and when
    every operation returned, the file follows the store: no write was
    made and the store is the one loaded, or the last write succeeded and
    its text is that of the store as it is now. *)
Theorem written_follows_store (file : option (list (string * @entry V)))
    (ops : list (@op V)) :
  let m0 := MemoryStorage_init input file in
  let m := run input ops m0 in
  (truthy (persist input) = false -> writes m = []) /\
  (forall call, call ∈ writes m -> call.1 = default "" (persist input)) /\
  (truthy (persist input) = true -> all_returned input ops m0 ->
   durable (store m0) m).
Proof.
  cbv zeta. destruct (run_writes ops (MemoryStorage_init input file))
    as [Hoff Hin].
  split; [exact Hoff|]. split.
  - intros call [Hc|Hc]%Hin; [|exact Hc]. cbn in Hc.
    now apply elem_of_nil in Hc.
  - intros Hon Hall. apply run_durable; [exact Hon|reflexivity|exact Hall].
Qed.

End Persistence.

(** ** [scan] and [invalidateKeys] *)

Section ScanProperties.

Import Memory.
Context {V : Type} {C : Collator} {D : @Disk V}.
Variable input : MemoryStorageOptions.

Implicit Types (m : @mem V) (st rest : list (string * @entry V)).

Lemma startsWith_empty (s : string) : startsWith s "" = true.
Proof. destruct s; reflexivity. Qed.

(** X11.  A scan with the empty prefix yields every entry that is not
    expired, in the order of the store, and leaves the store alone. *)
Theorem scan_everything (now : Z) m :
  scan_all now [] m =
    (Return (map (fun r => (splitKey r.1, value r.2))
               (List.filter (fun r => negb (expired now r.2)) (store m))),
     m).
Proof.
  unfold scan_all. rewrite for_await_start.
  rewrite (for_await_unmutated (store m) _ now now (joinKey []) 0%nat m
             eq_refl) by lia.
  unfold live_items. do 3 f_equal.
  apply List.filter_ext. intros r.
  change (joinKey []) with "". now rewrite startsWith_empty.
Qed.

(** What the generator yields is a live row under the prefix, found at the
    index before the one the iterator is left at. *)
Lemma scan_resume_sound now p rest : forall i it i',
  scan_resume now p rest i = Some (it, i') ->
  exists k e,
    rest !! (i' - 1 - i)%nat = Some (k, e) /\ (i < i')%nat /\
    it = (splitKey k, value e) /\
    startsWith k p = true /\ expired now e = false.
Proof.
  induction rest as [|[k e] rest IH]; intros i it i'; simpl; [discriminate|].
  destruct (startsWith k p) eqn:Hp; simpl.
  - destruct (expired now e) eqn:He.
    + intros (k' & e' & Hl & Hlt & Hrest)%IH.
      exists k', e'. split; [|split; [lia|exact Hrest]].
      replace (i' - 1 - i)%nat with (S (i' - 1 - S i)) by lia. exact Hl.
    + intros [= <- <-]. exists k, e.
      replace (S i - 1 - i)%nat with 0%nat by lia.
      repeat split; auto; lia.
  - intros (k' & e' & Hl & Hlt & Hrest)%IH.
    exists k', e'. split; [|split; [lia|exact Hrest]].
    replace (i' - 1 - i)%nat with (S (i' - 1 - S i)) by lia. exact Hl.
Qed.

Lemma scan_resume_none now p rest i :
  Forall (fun r => startsWith r.1 p = false) rest ->
  scan_resume now p rest i = None.
Proof.
  intros Hall. revert i.
  induction Hall as [|[k e] rest Hk _ IH]; intros i; simpl; [reflexivity|].
  simpl in Hk. rewrite Hk. simpl. apply IH.
Qed.

(** The generator stops at the first live row under the prefix. *)
Lemma scan_resume_first now p rest : forall i d k e,
  rest !! d = Some (k, e) ->
  startsWith k p = true -> expired now e = false ->
  (forall j r, (j < d)%nat -> rest !! j = Some r ->
               startsWith r.1 p && negb (expired now r.2) = false) ->
  scan_resume now p rest i = Some ((splitKey k, value e), (i + d + 1)%nat).
Proof.
  induction rest as [|[k0 e0] rest IH]; intros i d k e Hd Hp He Hbefore;
    [discriminate|].
  destruct d as [|d]; simpl in *.
  - injection Hd as -> ->. rewrite Hp, He. simpl. do 2 f_equal. lia.
  - pose proof (Hbefore 0%nat (k0, e0) ltac:(lia) eq_refl) as H0.
    simpl in H0.
    rewrite (IH (S i) d k e Hd Hp He) by
      (intros j r Hj Hr; apply (Hbefore (S j) r); [lia|exact Hr]).
    replace (S i + d + 1)%nat with (i + S d + 1)%nat by lia.
    destruct (startsWith k0 p); simpl in *; [|reflexivity].
    destruct (expired now e0); simpl in *; [reflexivity|discriminate].
Qed.

Context {L : CollatorLaws C}.

Lemma sorted_row_unique st k e r :
  sorted st -> (k, e) ∈ st -> r ∈ st -> localeCompare k r.1 = Eq ->
  r = (k, e).
Proof.
  intros Hs [i Hi]%list_elem_of_lookup_1 [j Hj]%list_elem_of_lookup_1 Heq.
  destruct (Nat.lt_total i j) as [Hlt|[->|Hgt]].
  - pose proof (Hs _ _ _ _ Hlt Hi Hj) as Hc. cbv beta in Hc.
    simpl in Hc. congruence.
  - congruence.
  - pose proof (Hs _ _ _ _ Hgt Hj Hi) as Hc. cbv beta in Hc.
    simpl in Hc. apply collate_eq_sym in Heq. congruence.
Qed.

(** X12.  A key that a scan yields reads back the value yielded with it:
    on a sorted store, for every item [(key, value)] of a scan that is not
    disturbed, [get(key)] at the same time returns [value] and changes
    nothing. *)
Theorem scanned_keys_read_back (now : Z) (prefix : list string) m :
  sorted (store m) ->
  exists items,
    scan_all now prefix m = (Return items, m) /\
    forall it, it ∈ items ->
      get input now it.1 m = (Return (Some it.2), m).
Proof.
  intros Hs. exists (live_items now (joinKey prefix) (store m)). split.
  - unfold scan_all. rewrite for_await_start.
    apply for_await_unmutated; [reflexivity|lia].
  - intros it Hin.
    apply list_elem_of_In, in_map_iff in Hin.
    destruct Hin as ([k e] & <- & [Hin Hlive]%filter_In). simpl in *.
    apply list_elem_of_In, list_elem_of_lookup_1 in Hin.
    destruct Hin as [n Hn].
    rewrite (get_present input now (splitKey k) m n k e Hs Hn)
      by (rewrite joinKey_splitKey; apply collate_refl).
    apply andb_true_iff in Hlive. destruct Hlive as [_ Hlive].
    apply negb_true_iff in Hlive. rewrite Hlive. reflexivity.
Qed.

(** The loop of [invalidateKeys] from a generator on its way: the store
    stays sorted, gains no row, and loses only rows under the prefix. *)
Lemma invalidate_loop_keeps (m0 : @mem V) (p : string) :
  forall fuel clock now i m,
  sorted (store m) ->
  (forall r, r ∈ store m -> r ∈ store m0) ->
  (forall r, r ∈ store m0 -> startsWith r.1 p = false -> r ∈ store m) ->
  forall o m',
    for_await fuel clock (Suspended_yield now p i)
      (fun it => remove input it.1) m = (o, m') ->
    sorted (store m') /\
    (forall r, r ∈ store m' -> r ∈ store m0) /\
    (forall r, r ∈ store m0 -> startsWith r.1 p = false -> r ∈ store m').
Proof.
  induction fuel as [|fuel IH]; intros clock now i m Hs Hsub Hkeep o m'.
  - intros [= <- <-]. auto.
  - rewrite for_await_eq, scan_next_eq.
    destruct (scan_resume now p (drop i (store m)) i) as [[it i']|] eqn:Hres;
      [|intros [= <- <-]; auto].
    apply scan_resume_sound in Hres.
    destruct Hres as (k & e & Hl & Hlt & -> & Hp & He).
    rewrite lookup_drop in Hl. cbn [fst].
    pose proof (remove_sorted input (splitKey k) m Hs) as Hs1.
    pose proof (remove_rows input (splitKey k) m Hs) as Hrows.
    destruct (remove input (splitKey k) m) as [orm m1]. cbn [snd] in *.
    rewrite joinKey_splitKey in Hrows.
    assert (Hsub1 : forall r, r ∈ store m1 -> r ∈ store m0).
    { intros r Hr. apply Hsub. now apply Hrows. }
    assert (Hkeep1 : forall r, r ∈ store m0 -> startsWith r.1 p = false ->
                               r ∈ store m1).
    { intros r Hr Hnp. apply Hrows. split; [now apply Hkeep|].
      intros Heq.
      assert (Hrk : r = (k, e)).
      { apply (sorted_row_unique (store m) k e r Hs); [|now apply Hkeep|
                                                       exact Heq].
        eapply list_elem_of_lookup_2, Hl. }
      subst r. simpl in Hnp. congruence. }
    destruct orm as [[]|err|]; [|intros [= <- <-]; auto..].
    destruct (for_await fuel clock (Suspended_yield now p i')
                (fun it => remove input it.1) m1) as [o1 m2] eqn:Hrest.
    assert (Hgoal : sorted (store m2) /\
              (forall r, r ∈ store m2 -> r ∈ store m0) /\
              (forall r, r ∈ store m0 -> startsWith r.1 p = false ->
                         r ∈ store m2))
      by (apply (IH clock now i' m1 Hs1 Hsub1 Hkeep1) with o1; exact Hrest).
    destruct o1; intros [= <- <-]; exact Hgoal.
Qed.

(** X13.  [invalidateKeys(subject)] always ends: it returns, or rejects
    with the exception of a [save] that one of its removals awaited, and it
    returns when there is no path to persist to.  On a sorted store it
    leaves, either way, a sorted store that has gained no row and has lost
    only rows whose flat key starts with
    [joinKey(["oauth:refresh", subject])]; when no flat key starts with
    it, it returns, and nothing changes and nothing is saved. *)
Theorem invalidateKeys_only_under_prefix (clock : Z) (subject : string) m :
  sorted (store m) ->
  let p := joinKey ["oauth:refresh"; subject] in
  exists o m',
    invalidateKeys input clock subject m = (o, m') /\
    (o = Return tt \/
     exists err, o = Throw err /\
       exists m1, save_outcome input m1 = Throw err) /\
    (truthy (persist input) = false -> o = Return tt) /\
    sorted (store m') /\
    (forall r, r ∈ store m' -> r ∈ store m) /\
    (forall r, r ∈ store m -> startsWith r.1 p = false -> r ∈ store m') /\
    ((forall r, r ∈ store m -> startsWith r.1 p = false) ->
     o = Return tt /\ m' = m).
Proof.
  intros Hs p.
  destruct (invalidateKeys_returns input clock subject m)
    as (o' & m' & Hret & Ho & Hoff).
  exists o', m'. split; [exact Hret|]. split; [exact Ho|].
  split; [exact Hoff|].
  unfold invalidateKeys, invalidateKeys_yields, mbind, M_bind, bind in Hret.
  rewrite for_await_start in Hret.
  destruct (for_await (S (length (store m))) clock
              (Suspended_yield clock p 0)
              (fun it => remove input it.1) m) as [o m1] eqn:Hloop.
  fold p in Hret. rewrite Hloop in Hret.
  assert (Hm1 : m1 = m')
    by (destruct o; unfold ret in Hret; congruence).
  subst m1.
  destruct (invalidate_loop_keeps m p _ _ _ _ m Hs (fun r H => H)
              (fun r H _ => H) o m' Hloop) as (Hs' & Hsub & Hkeep).
  split; [exact Hs'|]. split; [exact Hsub|]. split; [exact Hkeep|].
  intros Hnone.
  rewrite for_await_eq, scan_next_eq, scan_resume_none in Hloop.
  - injection Hloop as <- <-. unfold ret in Hret.
    injection Hret as <-. now split.
  - apply Forall_forall. intros r Hr. apply Hnone. exact Hr.
Qed.

(** X14.  [invalidateKeys(subject)] does invalidate the first live entry
    under the prefix: on a sorted store, the first row whose flat key starts
    with [joinKey(["oauth:refresh", subject])] and that is not expired is
    gone afterwards, and reading its key returns absent; this holds whether
    [invalidateKeys] returns or rejects with the exception of a [save]. *)
Theorem invalidateKeys_removes_first (clock : Z) (subject : string) m
    (n : nat) (k : string) (e : @entry V) :
  sorted (store m) ->
  let p := joinKey ["oauth:refresh"; subject] in
  store m !! n = Some (k, e) ->
  startsWith k p = true -> expired clock e = false ->
  (forall j r, (j < n)%nat -> store m !! j = Some r ->
               startsWith r.1 p && negb (expired clock r.2) = false) ->
  exists o m',
    invalidateKeys input clock subject m = (o, m') /\
    (o = Return tt \/
     exists err, o = Throw err /\
       exists m1, save_outcome input m1 = Throw err) /\
    (truthy (persist input) = false -> o = Return tt) /\
    absent (store m') k /\
    get input clock (splitKey k) m' = (Return None, m').
Proof.
  intros Hs p Hn Hp He Hbefore.
  destruct (invalidateKeys_returns input clock subject m)
    as (o' & m' & Hret & Ho & Hoff).
  exists o', m'. split; [exact Hret|]. split; [exact Ho|].
  split; [exact Hoff|].
  unfold invalidateKeys, invalidateKeys_yields, mbind, M_bind, bind in Hret.
  rewrite for_await_start in Hret. fold p in Hret.
  rewrite for_await_eq, scan_next_eq in Hret.
  rewrite (scan_resume_first clock p (drop 0 (store m)) 0 n k e Hn Hp He
             Hbefore) in Hret.
  cbn [fst] in Hret.
  destruct (remove_makes_absent input (splitKey k) m Hs)
    as (o1 & m1 & Hrm & Ho1 & Hs1 & Habs1).
  rewrite Hrm in Hret. rewrite joinKey_splitKey in Habs1.
  assert (Hgoal : sorted (store m') /\ absent (store m') k).
  { destruct Ho1 as [->|(err & -> & _)].
    - destruct (for_await (length (store m)) clock
                  (Suspended_yield clock p (0 + n + 1))
                  (fun it => remove input it.1) m1) as [o m2] eqn:Hloop.
      assert (Hm2 : m2 = m')
        by (destruct o; unfold ret in Hret; congruence).
      subst m2.
      destruct (invalidate_loop_keeps m1 p _ _ _ _ m1 Hs1 (fun r H => H)
                  (fun r H _ => H) o m' Hloop) as (Hs' & Hsub & _).
      split; [exact Hs'|]. intros r Hr. apply Habs1. now apply Hsub.
    - injection Hret as _ <-. now split. }
  destruct Hgoal as [Hs' Habs]. split; [exact Habs|].
  apply get_absent; [exact Hs'|]. now rewrite joinKey_splitKey.
Qed.

End ScanProperties.

Section StorePropertyExamples.

Import Memory.
#[local] Existing Instance steady_disk.

Lemma two_sessions_sorted : sorted (C := ordinal_collator) (store two_sessions).
Proof.
  apply (run_sorted (L := ordinal_collator_laws) no_persist
           [Set_ (encode ["oauth:refresh"; "alice"; "t1"]) 1%nat (Number 0);
            Set_ (encode ["oauth:refresh"; "alice"; "t2"]) 2%nat (Number 0);
            Set_ (encode ["oauth:refresh"; "bob"; "t3"]) 3%nat (Number 0)]
           empty_mem).
  apply sorted_nil.
Qed.

Lemma set_replaces_or_inserts_witness :
  let key := ["oauth:code"; "abc"] in
  let m' := (set (C := ordinal_collator) persisting key 9%nat (DateObj 5000)
               two_sessions).2 in
  (set (C := ordinal_collator) persisting key 9%nat (DateObj 5000)
     two_sessions).1
  = save_outcome persisting (with_store (store m') two_sessions) /\
  (truthy (persist persisting) = false ->
   (set (C := ordinal_collator) persisting key 9%nat (DateObj 5000)
      two_sessions).1 = Return tt) /\
  (forall r, r ∈ store m' <->
     r = (joinKey key, {| value := 9%nat; expiry := Some 5000 |}) \/
     (r ∈ store two_sessions /\
      localeCompare (Collator := ordinal_collator) (joinKey key) r.1 <> Eq)) /\
  (absent (C := ordinal_collator) (store two_sessions) (joinKey key) ->
   length (store m') = S (length (store two_sessions))) /\
  ((exists r, r ∈ store two_sessions /\
              localeCompare (Collator := ordinal_collator) (joinKey key) r.1
              = Eq) ->
   length (store m') = length (store two_sessions)).
Proof.
  exact (set_replaces_or_inserts (L := ordinal_collator_laws) persisting
           ["oauth:code"; "abc"] 9%nat (DateObj 5000) (Some 5000)
           two_sessions two_sessions_sorted eq_refl).
Defined.

Lemma remove_deletes_exactly_witness :
  let key := ["oauth:refresh"; "bob"; "t3"] in
  let m' := (remove (C := ordinal_collator) persisting key two_sessions).2 in
  (forall r, r ∈ store m' <->
     (r ∈ store two_sessions /\
      localeCompare (Collator := ordinal_collator) (joinKey key) r.1
      <> Eq)) /\
  (absent (C := ordinal_collator) (store two_sessions) (joinKey key) ->
   remove (C := ordinal_collator) persisting key two_sessions
   = (Return tt, two_sessions)) /\
  ((exists r, r ∈ store two_sessions /\
              localeCompare (Collator := ordinal_collator) (joinKey key) r.1
              = Eq) ->
   (remove (C := ordinal_collator) persisting key two_sessions).1
   = save_outcome persisting (with_store (store m') two_sessions)) /\
  (truthy (persist persisting) = false ->
   (remove (C := ordinal_collator) persisting key two_sessions).1
   = Return tt).
Proof.
  exact (remove_deletes_exactly (L := ordinal_collator_laws) persisting
           ["oauth:refresh"; "bob"; "t3"] two_sessions two_sessions_sorted).
Defined.

Lemma other_keys_unaffected_witness :
  let key := ["oauth:refresh"; "bob"; "t3"] in
  let key' := ["oauth:refresh"; "alice"; "t1"] in
  let same (m' : @mem nat) :=
    ((get (C := ordinal_collator) persisting 7 key' m').1
     = (get (C := ordinal_collator) persisting 7 key' two_sessions).1 \/
     exists e (m1 m1' : @mem nat),
       holds (C := ordinal_collator) (store two_sessions) (joinKey key') e /\
       expired 7 e = true /\
       (get (C := ordinal_collator) persisting 7 key' two_sessions).1
       = and_then (save_outcome persisting m1) None /\
       (get (C := ordinal_collator) persisting 7 key' m').1
       = and_then (save_outcome persisting m1') None) /\
    (truthy (persist persisting) = false ->
     (get (C := ordinal_collator) persisting 7 key' m').1
     = (get (C := ordinal_collator) persisting 7 key' two_sessions).1) in
  same (set (C := ordinal_collator) persisting key 9%nat Undefined
          two_sessions).2 /\
  same (remove (C := ordinal_collator) persisting key two_sessions).2.
Proof.
  apply (other_keys_unaffected (L := ordinal_collator_laws) persisting
           ["oauth:refresh"; "bob"; "t3"] ["oauth:refresh"; "alice"; "t1"]
           9%nat Undefined 7 two_sessions).
  - apply two_sessions_sorted.
  - vm_compute. discriminate.
Defined.

(** The result of [get(k')] does follow the save when the row of [k'] has
    expired: on a file system whose second write fails, [get] returns
    before a [set] of another key and rejects after it. *)
Lemma expired_reads_follow_the_save :
  let m : @mem nat :=
    MemoryStorage_init persisting
      (Some [("k", {| value := 1%nat; expiry := Some 5 |})]) in
  (get (C := ordinal_collator) (D := filling_disk) persisting 7 ["k"] m).1
  = Return None /\
  (get (C := ordinal_collator) (D := filling_disk) persisting 7 ["k"]
     (set (C := ordinal_collator) (D := filling_disk) persisting ["j"] 2%nat
        Undefined m).2).1
  = Throw SystemError.
Proof. split; reflexivity. Qed.

Lemma scanned_keys_read_back_witness :
  exists items,
    scan_all 7 ["oauth:refresh"; "alice"] two_sessions
    = (Return items, two_sessions) /\
    forall it, it ∈ items ->
      get (C := ordinal_collator) no_persist 7 it.1 two_sessions
      = (Return (Some it.2), two_sessions).
Proof.
  apply (scanned_keys_read_back no_persist (L := ordinal_collator_laws)).
  apply two_sessions_sorted.
Defined.

(** [invalidateKeys] on a file system on which every write fails: the
    first removal is made and the call rejects after it. *)
Lemma invalidateKeys_only_under_prefix_witness :
  let p := joinKey ["oauth:refresh"; "alice"] in
  (exists o m',
     invalidateKeys (C := ordinal_collator) (D := failing_disk) persisting
       7 "alice" two_sessions = (o, m') /\
     (o = Return tt \/
      exists err, o = Throw err /\
        exists m1 : @mem nat,
          save_outcome (D := failing_disk) persisting m1 = Throw err) /\
     (truthy (persist persisting) = false -> o = Return tt) /\
     sorted (C := ordinal_collator) (store m') /\
     (forall r, r ∈ store m' -> r ∈ store two_sessions) /\
     (forall r, r ∈ store two_sessions -> startsWith r.1 p = false ->
                r ∈ store m') /\
     ((forall r, r ∈ store two_sessions -> startsWith r.1 p = false) ->
      o = Return tt /\ m' = two_sessions)) /\
  (invalidateKeys (C := ordinal_collator) (D := failing_disk) persisting
     7 "alice" two_sessions).1 = Throw SystemError /\
  length (store (invalidateKeys (C := ordinal_collator) (D := failing_disk)
                   persisting 7 "alice" two_sessions).2) = 2%nat.
Proof.
  split; [|split; reflexivity].
  apply (invalidateKeys_only_under_prefix (D := failing_disk) persisting
           (L := ordinal_collator_laws)).
  apply two_sessions_sorted.
Defined.

Lemma invalidateKeys_removes_first_witness :
  let k := joinKey ["oauth:refresh"; "alice"; "t1"] in
  exists o m',
    invalidateKeys (C := ordinal_collator) persisting 7 "alice" two_sessions
    = (o, m') /\
    (o = Return tt \/
     exists err, o = Throw err /\
       exists m1 : @mem nat, save_outcome persisting m1 = Throw err) /\
    (truthy (persist persisting) = false -> o = Return tt) /\
    absent (C := ordinal_collator) (store m') k /\
    get (C := ordinal_collator) persisting 7 (splitKey k) m'
    = (Return None, m').
Proof.
  apply (invalidateKeys_removes_first persisting (L := ordinal_collator_laws)
           7 "alice" two_sessions 0
           (joinKey ["oauth:refresh"; "alice"; "t1"])
           {| value := 1%nat; expiry := Some 0 |}).
  - apply two_sessions_sorted.
  - reflexivity.
  - reflexivity.
  - reflexivity.
  - intros j r Hj. lia.
Defined.

(** A store loaded from a file, then a [set] and a read of an expired
    row, all of which return: the file follows the store. *)
Lemma written_follows_store_witness :
  let loaded := [("k", {| value := 1%nat; expiry := Some 5 |})] in
  let ops := [Set_ ["j"] 2%nat Undefined; Get_ 7 ["k"]] in
  let m := run (C := ordinal_collator) persisting ops
             (MemoryStorage_init persisting (Some loaded)) in
  store m = [("j", {| value := 2%nat; expiry := None |})] /\
  (forall call, call ∈ writes m -> call.1 = "store.json") /\
  durable loaded m.
Proof.
  split; [reflexivity|].
  destruct (written_follows_store (C := ordinal_collator) persisting
              (Some [("k", {| value := 1%nat; expiry := Some 5 |})])
              [Set_ ["j"] 2%nat Undefined; Get_ 7 ["k"]])
    as (_ & Hpath & Hdurable).
  split; [exact Hpath|]. apply Hdurable; [reflexivity|].
  split; [reflexivity|]. split; [|exact I]. now exists None.
Defined.

End StorePropertyExamples.

(** ** The caches of the client *)

Section CacheProperties.

Import Client.
Context {E : Env}.
Variable issuer : string.

Implicit Types (s : @client_state E).

(** X15.  The discovery document and the key set are fetched at most once:
    a call of [getJWKS] that returns has sent at most two requests, plain
    GETs, none at all when both caches were filled, and after it every
    further call returns the same key set from the cache without sending
    anything. *)
Theorem getJWKS_fetches_once s (keys : jwks) s' :
  getJWKS issuer s = (Return keys, s') ->
  getJWKS issuer s' = (Return keys, s') /\
  (length (sent s') <= length (sent s) + 2)%nat /\
  (forall r, r ∈ sent s' -> r ∈ sent s \/ exists url, r = GET url) /\
  (is_Some (issuerCache s !! issuer) -> is_Some (jwksCache s !! issuer) ->
   s' = s).
Proof.
  intros Hget.
  destruct (getJWKS_fills issuer s keys s' Hget)
    as ([wk Hwk] & Hks & Hlen & Hreq).
  split; [now apply (getJWKS_hit issuer s' wk keys)|].
  split; [exact Hlen|]. split; [exact Hreq|].
  intros [wk0 Hwk0] [keys0 Hks0].
  rewrite (getJWKS_hit issuer s wk0 keys0 Hwk0 Hks0) in Hget. congruence.
Qed.

End CacheProperties.

(** ** [verify] *)

Section VerifyProperties.

Import Client.
Context {E : Env} {Q : Type}.
Variable issuer : string.
Variable subjects : string -> option (props -> option (validation Q)).

Implicit Types (s : @client_state E).

(** X16.  Without a refresh token in its options, [verify] never sends a
    refresh request and never calls itself: it returns or throws at the
    first level, and every rejection by the [try] block, expiry included,
    comes back as [InvalidAccessToken]. *)
Theorem verify_without_refresh_token (fuel : nat) (now : Z) (token : string)
    (options : option verify_options) s :
  Memory.truthy (options ≫= refresh_option) = false ->
  exists o s',
    verify issuer subjects (S fuel) now token options s = (o, s') /\
    verify issuer subjects 1 now token options s = (o, s') /\
    o <> Diverge /\
    refresh_attempts s' = refresh_attempts s /\
    (forall keys s1 e,
       getJWKS issuer s = (Return keys, s1) ->
       try_block issuer subjects token keys = Rejected e ->
       o = Return (VerifyErr InvalidAccessTokenError) /\ s' = s1).
Proof.
  intros Hno.
  assert (Hlevel : forall fuel',
            verify issuer subjects (S fuel') now token options s =
            match getJWKS issuer s with
            | (Return keys, s1) =>
                match try_block issuer subjects token keys with
                | Fulfilled r => (Return r, s1)
                | Rejected _ => (Return (VerifyErr InvalidAccessTokenError), s1)
                end
            | (Throw e, s1) => (Throw e, s1)
            | (Diverge, s1) => (Diverge, s1)
            end).
  { intros fuel'. rewrite verify_S.
    unfold mbind at 1, M_bind at 1, bind at 1.
    destruct (getJWKS issuer s) as [[keys|e|] s1]; try reflexivity.
    cbv zeta. rewrite Hno.
    destruct (try_block issuer subjects token keys); [reflexivity|].
    rewrite andb_false_r. reflexivity. }
  rewrite !Hlevel.
  destruct (getJWKS_quiet issuer s) as (o1 & s1 & -> & Ho1 & Hs1).
  destruct o1 as [keys|e|]; [| |congruence].
  - destruct (try_block issuer subjects token keys) as [r|e] eqn:Htry.
    + exists (Return r), s1.
      split; [reflexivity|]. split; [reflexivity|]. split; [discriminate|].
      split; [exact Hs1|].
      intros keys' s1' e' [= <- <-] Htry'. congruence.
    + exists (Return (VerifyErr InvalidAccessTokenError)), s1.
      split; [reflexivity|]. split; [reflexivity|]. split; [discriminate|].
      split; [exact Hs1|].
      intros keys' s1' e' [= <- <-] _. split; reflexivity.
  - exists (Throw e), s1.
    split; [reflexivity|]. split; [reflexivity|]. split; [discriminate|].
    split; [exact Hs1|]. intros keys' s1' e' [=].
Qed.

Lemma validate_subject_no_tokens (p : payload props) ty (v : Q) tk :
  validate_subject subjects p = Fulfilled (Subject ty v tk) -> tk = None.
Proof.
  unfold validate_subject.
  destruct (subjects (type p)) as [validate|]; [|discriminate].
  destruct (validate (properties p)) as [[|v']|]; try discriminate.
  destruct (String.eqb (mode p) "access"); [|discriminate].
  intros [= _ _ <-]. reflexivity.
Qed.

Lemma try_block_no_tokens token keys ty (v : Q) tk :
  try_block issuer subjects token keys = Fulfilled (Subject ty v tk) ->
  tk = None.
Proof.
  unfold try_block. destruct (jwtVerify token keys issuer) as [p|e];
    [apply validate_subject_no_tokens|discriminate].
Qed.

(** X17.  The [tokens] of a successful [verify] tell whether it refreshed:
    a subject without tokens means that no refresh request was sent, and
    tokens, when present, are the pair the token endpoint returned, with
    an ok answer, to a refresh made with the refresh token of the caller's
    own options, also when [verify] went on to refresh again. *)
Theorem verify_tokens_provenance (fuel : nat) (now : Z) (token : string)
    (options : option verify_options) s ty (v : Q) tk s' :
  verify issuer subjects fuel now token options s
    = (Return (Subject ty v tk), s') ->
  match tk with
  | None => refresh_attempts s' = refresh_attempts s
  | Some t =>
      exists history resp j,
        fetch history
          (refresh_request issuer (default "" (options ≫= refresh_option)))
          = Fulfilled resp /\
        ok resp = true /\ body resp = Fulfilled j /\
        t = {| access := json_access_token j;
               refresh_token := json_refresh_token j |}
  end.
Proof.
  destruct fuel as [|fuel]; [discriminate|].
  rewrite verify_S. unfold mbind at 1, M_bind at 1, bind at 1.
  destruct (getJWKS_quiet issuer s) as (o1 & s1 & -> & Ho1 & Hs1).
  destruct o1 as [keys|e|]; [|discriminate|congruence].
  destruct (try_block issuer subjects token keys) as [r|e] eqn:Htry.
  - intros [= -> <-]. apply try_block_no_tokens in Htry. subst tk.
    exact Hs1.
  - cbv zeta.
    destruct (is_JWTExpired e && Memory.truthy (options ≫= refresh_option));
      [|discriminate].
    unfold mbind at 1, M_bind at 1, bind at 1.
    rewrite (refresh_sends issuer now _ None s1 eq_refl).
    destruct (fetch (sent s1) _) as [resp|e2] eqn:Hfetch; [|discriminate].
    destruct (body resp) as [j|e2] eqn:Hbody; [|discriminate].
    destruct (ok resp) eqn:Hok; [|discriminate].
    unfold mbind at 1, M_bind at 1, bind at 1.
    destruct (verify issuer subjects fuel now _ _ _)
      as [[[ty' v' tk'|err]|e3|] s3];
      try discriminate.
    intros [= -> -> <- <-]. exists (sent s1), resp, j. auto.
Qed.

(** X18.  An expired access token with a refresh token, the caches being
    filled: [verify] sends one refresh request with that refresh token.
    When the answer is not ok the result is [InvalidRefreshToken]; when it
    is ok and the new access token passes the [try] block, the result is
    that of the new access token, a subject carrying the new pair as its
    [tokens]. *)
Theorem verify_after_one_refresh (n : nat) (now : Z)
    (token refresh_tok : string) s (wk : WellKnown) (keys : jwks) resp j :
  issuerCache s !! issuer = Some wk -> jwksCache s !! issuer = Some keys ->
  try_block issuer subjects token keys = Rejected JWTExpired ->
  refresh_tok <> "" ->
  fetch (sent s) (refresh_request issuer refresh_tok) = Fulfilled resp ->
  body resp = Fulfilled j ->
  let options := Some {| refresh_option := Some refresh_tok |} in
  let pair := {| access := json_access_token j;
                 refresh_token := json_refresh_token j |} in
  let s' := sending (refresh_request issuer refresh_tok) s in
  (ok resp = false ->
   verify issuer subjects (1 + n) now token options s
   = (Return (VerifyErr InvalidRefreshTokenError), s')) /\
  (ok resp = true ->
   forall r,
     try_block issuer subjects (json_access_token j) keys = Fulfilled r ->
     verify issuer subjects (2 + n) now token options s
     = (Return match r with
               | Subject ty v _ => Subject ty v (Some pair)
               | VerifyErr err => VerifyErr err
               end, s')).
Proof.
  intros Hwk Hks Htry Hne Hfetch Hbody options pair s'.
  apply truthy_Some in Hne.
  assert (Hfirst : forall fuel,
            verify issuer subjects (S fuel) now token options s =
            (if ok resp then
               (verified ← verify issuer subjects fuel now (access pair)
                   (Some {| refresh_option := Some (refresh_token pair) |});
                match verified with
                | VerifyErr err => ret (VerifyErr err)
                | Subject ty v _ => ret (Subject ty v (Some pair))
                end) s'
             else (Return (VerifyErr InvalidRefreshTokenError), s'))).
  { intros fuel. rewrite verify_S.
    unfold mbind at 1, M_bind at 1, bind at 1.
    rewrite (getJWKS_hit issuer s wk keys Hwk Hks), Htry.
    cbv zeta. subst options. cbn [mbind option_bind refresh_option].
    rewrite Hne. cbn [is_JWTExpired andb].
    unfold mbind at 1, M_bind at 1, bind at 1.
    rewrite (refresh_sends issuer now _ None s eq_refl).
    cbn [default from_option id]. rewrite Hfetch, Hbody.
    destruct (ok resp); reflexivity. }
  split.
  - intros Hok. change (1 + n)%nat with (S n). rewrite Hfirst, Hok.
    reflexivity.
  - intros Hok r Hr. change (2 + n)%nat with (S (S n)).
    rewrite Hfirst, Hok, verify_S.
    unfold mbind at 1 2, M_bind at 1 2, bind at 1 2.
    rewrite (getJWKS_hit issuer s' wk keys Hwk Hks).
    cbn [access pair]. rewrite Hr. destruct r; reflexivity.
Qed.

End VerifyProperties.

(** ** [exchange], [authorize] and [pkce] *)

Section SearchParams.

Import ClientRequests.

Implicit Types (l : list (string * string)) (n m v : string).

Lemma params_get_without_other n m l :
  String.eqb m n = false -> params_get m (without n l) = params_get m l.
Proof.
  intros Hne. induction l as [|[k w] l IH]; simpl; [reflexivity|].
  destruct (String.eqb_spec k n) as [->|Hkn]; simpl.
  - rewrite String.eqb_sym, Hne. exact IH.
  - rewrite IH. reflexivity.
Qed.

Lemma params_count_without_other n m l :
  String.eqb m n = false -> params_count m (without n l) = params_count m l.
Proof.
  intros Hne. unfold params_count.
  induction l as [|[k w] l IH]; simpl; [reflexivity|].
  destruct (String.eqb_spec k n) as [->|Hkn]; simpl.
  - rewrite String.eqb_sym, Hne. exact IH.
  - destruct (String.eqb k m); simpl; now rewrite IH.
Qed.

Lemma params_count_without n l : params_count n (without n l) = 0%nat.
Proof.
  unfold params_count. induction l as [|[k w] l IH]; simpl; [reflexivity|].
  destruct (String.eqb k n) eqn:Hk; simpl; [exact IH|].
  rewrite Hk. exact IH.
Qed.

Lemma params_get_set n v l : params_get n (params_set n v l) = Some v.
Proof.
  induction l as [|[k w] l IH]; simpl.
  - now rewrite String.eqb_refl.
  - destruct (String.eqb k n) eqn:Hk; simpl.
    + now rewrite String.eqb_refl.
    + now rewrite Hk.
Qed.

Lemma params_count_set n v l : params_count n (params_set n v l) = 1%nat.
Proof.
  induction l as [|[k w] l IH]; simpl.
  - unfold params_count. simpl. now rewrite String.eqb_refl.
  - destruct (String.eqb k n) eqn:Hk.
    + unfold params_count. simpl. rewrite String.eqb_refl. simpl.
      f_equal. apply params_count_without.
    + unfold params_count in *. simpl. rewrite Hk. exact IH.
Qed.

Lemma params_get_set_other n m v l :
  String.eqb m n = false -> params_get m (params_set n v l) = params_get m l.
Proof.
  intros Hne. induction l as [|[k w] l IH]; simpl.
  - now rewrite String.eqb_sym, Hne.
  - destruct (String.eqb_spec k n) as [->|Hkn]; simpl.
    + rewrite String.eqb_sym, Hne. now apply params_get_without_other.
    + now rewrite IH.
Qed.

Lemma params_count_set_other n m v l :
  String.eqb m n = false ->
  params_count m (params_set n v l) = params_count m l.
Proof.
  intros Hne. induction l as [|[k w] l IH].
  - unfold params_count. simpl. now rewrite String.eqb_sym, Hne.
  - simpl. destruct (String.eqb_spec k n) as [->|Hkn].
    + unfold params_count at 1 2. simpl. rewrite String.eqb_sym, Hne.
      apply (params_count_without_other n m l Hne).
    + unfold params_count in *. simpl.
      destruct (String.eqb k m); simpl; now rewrite IH.
Qed.

(** [searchParams.set(name, value)] leaves exactly one pair named [name],
    carrying [value], and for every other name the pairs it had: the same
    first value and the same number of pairs. *)
Lemma params_set_sets_once n v l :
  params_get n (params_set n v l) = Some v /\
  params_count n (params_set n v l) = 1%nat /\
  (forall m, m <> n ->
     params_get m (params_set n v l) = params_get m l /\
     params_count m (params_set n v l) = params_count m l).
Proof.
  split; [apply params_get_set|]. split; [apply params_count_set|].
  intros m Hne. apply String.eqb_neq in Hne.
  split; [now apply params_get_set_other|now apply params_count_set_other].
Qed.

End SearchParams.

Section RequestProperties.

Import Client ClientRequests.
Context {E : Env} {H : Host}.
Variables (clientID issuer : string).

Implicit Types (s : @client_state E).

(** X19.  [exchange] sends exactly one request, whatever comes of it: a
    POST to the token endpoint with [grant_type=authorization_code], which
    is no refresh request; it leaves both caches alone; it resolves only
    on an ok answer, with the pair read off its body, and it throws
    [InvalidAuthorizationCode] on an answer that is not ok and has a JSON
    body. *)
Theorem exchange_behaviour (code_ redirectURI : string)
    (verifier_ : option string) s :
  let rq := exchange_request clientID issuer code_ redirectURI verifier_ in
  let '(o, s') := exchange clientID issuer code_ redirectURI verifier_ s in
  sent s' = (sent s ++ [rq])%list /\
  is_refresh_request rq = false /\
  (exists form, rq = POST (issuer ++ "/token") form /\
     params_get "grant_type" form = Some "authorization_code" /\
     params_get "client_id" form = Some clientID /\
     params_get "code" form = Some code_) /\
  issuerCache s' = issuerCache s /\ jwksCache s' = jwksCache s /\
  (forall t, o = Resolved t ->
     exists resp j, fetch (sent s) rq = Fulfilled resp /\ ok resp = true /\
       body resp = Fulfilled j /\
       t = {| access := json_access_token j;
              refresh_token := json_refresh_token j |}) /\
  (forall resp j, fetch (sent s) rq = Fulfilled resp ->
     body resp = Fulfilled j -> ok resp = false ->
     o = Thrown InvalidAuthorizationCodeError).
Proof.
  cbv zeta. unfold exchange.
  split; [reflexivity|]. split; [reflexivity|].
  split; [eexists; repeat split|].
  split; [reflexivity|]. split; [reflexivity|]. split.
  - intros t.
    destruct (fetch (sent s) _) as [resp|e]; [|discriminate].
    destruct (body resp) as [j|e] eqn:Hbody; [|discriminate].
    destruct (ok resp) eqn:Hok; [|discriminate].
    intros [= <-]. exists resp, j. auto.
  - intros resp j -> -> ->. reflexivity.
Qed.

Lemma set_provider_before opts (u : URL) :
  before_query (set_provider opts u) = before_query u.
Proof. unfold set_provider. destruct (Memory.truthy _); reflexivity. Qed.

Lemma set_provider_other opts (u : URL) name :
  String.eqb name "provider" = false ->
  params_get name (searchParams (set_provider opts u))
    = params_get name (searchParams u) /\
  params_count name (searchParams (set_provider opts u))
    = params_count name (searchParams u).
Proof.
  intros Hne. unfold set_provider.
  destruct (Memory.truthy _); [|split; reflexivity]. simpl.
  split; [now apply params_get_set_other|now apply params_count_set_other].
Qed.

Lemma set_provider_sets opts (u : URL) :
  if Memory.truthy (opts ≫= provider) then
    params_get "provider" (searchParams (set_provider opts u))
      = opts ≫= provider /\
    params_count "provider" (searchParams (set_provider opts u)) = 1%nat
  else set_provider opts u = u.
Proof.
  unfold set_provider.
  destruct (opts ≫= provider) as [[|a p]|]; simpl; try reflexivity.
  split; [apply params_get_set|apply params_count_set].
Qed.

Ltac other_names :=
  repeat match goal with
    | H : ?n <> _ |- _ => apply String.eqb_neq in H
    end;
  cbn [searchParams set_param];
  repeat first
    [ rewrite params_get_set_other by (assumption || reflexivity)
    | rewrite params_count_set_other by (assumption || reflexivity) ].

(** X20.  When the issuer makes a URL, [authorize] returns the text of a
    URL with the part before the query of [issuer + "/authorize"] whose
    query has exactly one [client_id], one [redirect_uri] and one
    [response_type], with the client id, the redirect URI and the response
    type given; it has exactly one [provider], the one given, when a
    non-empty provider is given, and otherwise the [provider] pairs the
    issuer URL had; the pairs of any other name are those of the issuer
    URL.  When the issuer makes no URL, [authorize] throws. *)
Theorem authorize_parameters (redirectURI : string) (response : response_type)
    (opts : option authorize_options) :
  match new_URL (issuer ++ "/authorize") with
  | Rejected e =>
      authorize clientID issuer redirectURI response opts = Rejected e
  | Fulfilled base =>
      exists u,
        authorize clientID issuer redirectURI response opts
          = Fulfilled (URL_toString u) /\
        before_query u = before_query base /\
        let q := searchParams u in
        (params_get "client_id" q = Some clientID /\
         params_count "client_id" q = 1%nat) /\
        (params_get "redirect_uri" q = Some redirectURI /\
         params_count "redirect_uri" q = 1%nat) /\
        (params_get "response_type" q = Some (response_name response) /\
         params_count "response_type" q = 1%nat) /\
        (if Memory.truthy (opts ≫= provider)
         then params_get "provider" q = opts ≫= provider /\
              params_count "provider" q = 1%nat
         else params_get "provider" q
                = params_get "provider" (searchParams base) /\
              params_count "provider" q
                = params_count "provider" (searchParams base)) /\
        (forall name,
           name <> "provider" -> name <> "client_id" ->
           name <> "redirect_uri" -> name <> "response_type" ->
           params_get name q = params_get name (searchParams base) /\
           params_count name q = params_count name (searchParams base))
  end.
Proof.
  unfold authorize, authorize_URL.
  destruct (new_URL (issuer ++ "/authorize")) as [base|e]; [|reflexivity].
  eexists. split; [reflexivity|].
  split; [cbn [before_query set_param]; apply set_provider_before|].
  cbv zeta. repeat split.
  - other_names. apply params_get_set.
  - other_names. apply params_count_set.
  - other_names. apply params_get_set.
  - other_names. apply params_count_set.
  - cbn [searchParams set_param]. apply params_get_set.
  - cbn [searchParams set_param]. apply params_count_set.
  - other_names.
    pose proof (set_provider_sets opts base) as Hp.
    destruct (Memory.truthy (opts ≫= provider)); [exact Hp|].
    rewrite Hp. split; reflexivity.
  - other_names. now apply set_provider_other.
  - other_names. now apply set_provider_other.
Qed.

(** X21.  [pkce], when the issuer makes a URL and [generatePKCE] resolves,
    returns the verifier generated together with the text of a URL whose
    query carries exactly one [code_challenge], the challenge generated
    with that verifier, one [code_challenge_method], S256, one
    [response_type], code, one [client_id] and one [redirect_uri], as
    given; it throws what [new URL] or [generatePKCE] throws. *)
Theorem pkce_parameters (redirectURI : string)
    (opts : option authorize_options) :
  match new_URL (issuer ++ "/authorize"), generatePKCE with
  | Rejected e, _ => pkce clientID issuer redirectURI opts = Rejected e
  | Fulfilled _, Rejected e =>
      pkce clientID issuer redirectURI opts = Rejected e
  | Fulfilled base, Fulfilled generated =>
      exists u,
        pkce clientID issuer redirectURI opts
          = Fulfilled (verifier generated, URL_toString u) /\
        before_query u = before_query base /\
        let q := searchParams u in
        (params_get "code_challenge" q = Some (challenge generated) /\
         params_count "code_challenge" q = 1%nat) /\
        (params_get "code_challenge_method" q = Some "S256" /\
         params_count "code_challenge_method" q = 1%nat) /\
        (params_get "response_type" q = Some "code" /\
         params_count "response_type" q = 1%nat) /\
        (params_get "client_id" q = Some clientID /\
         params_count "client_id" q = 1%nat) /\
        (params_get "redirect_uri" q = Some redirectURI /\
         params_count "redirect_uri" q = 1%nat)
  end.
Proof.
  unfold pkce, pkce_URL.
  destruct (new_URL (issuer ++ "/authorize")) as [base|e]; [|reflexivity].
  destruct generatePKCE as [generated|e]; [|reflexivity].
  eexists. split; [reflexivity|].
  split; [cbn [before_query set_param]; apply set_provider_before|].
  cbv zeta. repeat split.
  - cbn [searchParams set_param]. apply params_get_set.
  - cbn [searchParams set_param]. apply params_count_set.
  - other_names. apply params_get_set.
  - other_names. apply params_count_set.
  - other_names. apply params_get_set.
  - other_names. apply params_count_set.
  - other_names. apply params_get_set.
  - other_names. apply params_count_set.
  - other_names. apply params_get_set.
  - other_names. apply params_count_set.
Qed.

End RequestProperties.

Section ClientPropertyExamples.

Import Client Scripted.

Lemma getJWKS_fetches_once_witness :
  let s := fresh None in
  let s' := (getJWKS (E := env None) issuer s).2 in
  getJWKS (E := env None) issuer s' = (Return tt, s') /\
  (length (sent s') <= length (sent s) + 2)%nat /\
  (forall r, r ∈ sent s' -> r ∈ sent s \/ exists url, r = GET url) /\
  (is_Some (issuerCache s !! issuer) -> is_Some (jwksCache s !! issuer) ->
   s' = s).
Proof.
  apply (getJWKS_fetches_once (E := env None) issuer (fresh None) tt).
  reflexivity.
Defined.

Lemma verify_without_refresh_token_witness :
  let s := fresh None in
  exists o s',
    verify (E := env None) issuer subjects (S 3) 1000 "expired" None s
      = (o, s') /\
    verify (E := env None) issuer subjects 1 1000 "expired" None s = (o, s') /\
    o <> Diverge /\
    refresh_attempts s' = refresh_attempts s /\
    (forall keys s1 e,
       getJWKS (E := env None) issuer s = (Return keys, s1) ->
       try_block (E := env None) issuer subjects "expired" keys = Rejected e ->
       o = Return (VerifyErr InvalidAccessTokenError) /\ s' = s1).
Proof.
  apply (verify_without_refresh_token (E := env None)). reflexivity.
Defined.

Lemma verify_tokens_provenance_witness :
  let options := Some {| refresh_option := Some "r0" |} in
  exists history resp j,
    fetch (Env := env (Some 0%nat)) history
      (refresh_request issuer (default "" (options ≫= refresh_option)))
      = Fulfilled resp /\
    ok resp = true /\ body resp = Fulfilled j /\
    {| access := "valid"; refresh_token := "r" |}
    = {| access := json_access_token j;
         refresh_token := json_refresh_token j |}.
Proof.
  exact (verify_tokens_provenance (E := env (Some 0%nat)) issuer subjects
           2 1000 "expired" (Some {| refresh_option := Some "r0" |})
           (fresh (Some 0%nat)) "user" tt
           (Some {| access := "valid"; refresh_token := "r" |})
           (verify (E := env (Some 0%nat)) issuer subjects 2 1000 "expired"
              (Some {| refresh_option := Some "r0" |})
              (fresh (Some 0%nat))).2
           eq_refl).
Defined.

Lemma verify_after_one_refresh_witness :
  let s := (getJWKS (E := env (Some 0%nat)) issuer (fresh (Some 0%nat))).2 in
  let options := Some {| refresh_option := Some "r0" |} in
  let pair := {| access := "valid"; refresh_token := "r" |} in
  let s' := sending (refresh_request issuer "r0") s in
  (true = false ->
   verify (E := env (Some 0%nat)) issuer subjects (1 + 0) 1000 "expired"
     options s = (Return (VerifyErr InvalidRefreshTokenError), s')) /\
  (true = true ->
   forall r,
     try_block (E := env (Some 0%nat)) issuer subjects "valid" tt
       = Fulfilled r ->
     verify (E := env (Some 0%nat)) issuer subjects (2 + 0) 1000 "expired"
       options s
     = (Return match r with
               | Subject ty v _ => Subject ty v (Some pair)
               | VerifyErr err => VerifyErr err
               end, s')).
Proof.
  apply (verify_after_one_refresh (E := env (Some 0%nat)) issuer subjects
           0 1000 "expired" "r0"
           (getJWKS (E := env (Some 0%nat)) issuer (fresh (Some 0%nat))).2
           well_known tt
           {| ok := true;
              body := Fulfilled {| reply_metadata := well_known;
                                   reply_access := "valid";
                                   reply_refresh := "r" |} |}
           {| reply_metadata := well_known;
              reply_access := "valid";
              reply_refresh := "r" |}).
  - reflexivity.
  - reflexivity.
  - reflexivity.
  - discriminate.
  - reflexivity.
  - reflexivity.
Defined.

End ClientPropertyExamples.

(** ** Reads repeated, and the facade with the ttl 0 *)

Section ReadsAndFacade.

Import Memory.
Context {V : Type} {C : Collator} {L : CollatorLaws C} {D : @Disk V}.
Variable input : MemoryStorageOptions.

Implicit Types (m : @mem V).

(** X22.  Lazy expiry happens once: on a sorted store, after a [get(k)]
    a second [get(k)] at the same time returns and changes nothing.  It
    returns what the first returned; when the first rejected, which it
    does only when the [save] after the removal of the expired row
    rejects, the second returns absent.  The first either changed nothing
    or left no row for [k]. *)
Theorem get_twice (now : Z) (key : list string) m :
  sorted (store m) ->
  exists o m',
    get input now key m = (o, m') /\
    (exists r,
       get input now key m' = (Return r, m') /\
       (o = Return r \/
        (r = None /\
         exists err, o = Throw err /\
           save_outcome input (with_store (store m') m) = Throw err))) /\
    (m' = m \/ absent (store m') (joinKey key)).
Proof.
  intros Hs.
  destruct (search_sorted (store m) (joinKey key) Hs) as (mt & Hsearch & Hpost).
  destruct (found mt) eqn:Hf.
  - pose proof Hpost as (_ & Hp). rewrite Hf in Hp.
    destruct Hp as ([k e] & [_ Hr]%at_index_Some & Heq). simpl in Heq.
    rewrite (get_present input now key m _ k e Hs Hr Heq).
    destruct (expired now e) eqn:He.
    + pose proof (splice_out_absent (store m) (joinKey key) mt Hs Hpost Hf)
        as Habs.
      pose proof (sorted_splice_out (store m) (index mt) Hs) as Hs'.
      unfold splice_out in Habs, Hs'. cbv zeta.
      eexists _, _. split; [reflexivity|].
      rewrite saved_store. cbn [with_store store]. split; [|now right].
      exists None. split.
      * apply get_absent; rewrite saved_store; cbn [store]; assumption.
      * match goal with
        | |- context [save_outcome input ?m1] =>
            destruct (and_then_cases (save_outcome input m1) (@None V)
                        (save_outcome_cases input m1))
              as [[_ ->]|(err & Herr & ->)]
        end; [now left|right]. split; [reflexivity|]. now exists err.
    + eexists _, _. split; [reflexivity|]. split; [|now left].
      exists (Some (value e)). split; [|now left].
      rewrite (get_present input now key m _ k e Hs Hr Heq), He. reflexivity.
  - pose proof (search_not_found_absent _ _ _ Hpost Hf) as Habs.
    rewrite (get_absent input now key m Hs Habs).
    eexists _, _. split; [reflexivity|]. split; [|now left].
    exists None. split; [now apply get_absent|now left].
Qed.

(** X23.  With the ttl 0 the facade works as a store without expiry: on a
    sorted store, [setAuthorizationCode(code, p, 0)] puts the row into the
    store and settles as the [save] it awaits (it returns when there is no
    path to persist to); after it [getOauthCode(code)] returns [p] at every
    time; [invalidateOauthCode(code)] returns unless its save rejects, and
    after it [getOauthCode(code)] returns absent.  [setRefreshToken] and
    [getRefreshToken] do the same for a subject and a token. *)
Theorem facade_round_trip_ttl_zero (code subject refreshToken : string)
    (p : V) m :
  sorted (store m) ->
  (exists m1,
     setAuthorizationCode input code p 0 m
     = (save_outcome input (with_store (store m1) m), m1) /\
     (truthy (persist input) = false ->
      setAuthorizationCode input code p 0 m = (Return tt, m1)) /\
     (forall now, getOauthCode input now code m1 = (Return (Some p), m1)) /\
     exists o m2,
       invalidateOauthCode input code m1 = (o, m2) /\
       (o = Return tt \/
        exists err, o = Throw err /\
          save_outcome input (with_store (store m2) m1) = Throw err) /\
       (truthy (persist input) = false -> o = Return tt) /\
       forall now, getOauthCode input now code m2 = (Return None, m2)) /\
  (exists m1,
     setRefreshToken input subject refreshToken p 0 m
     = (save_outcome input (with_store (store m1) m), m1) /\
     (truthy (persist input) = false ->
      setRefreshToken input subject refreshToken p 0 m = (Return tt, m1)) /\
     forall now,
       getRefreshToken input now subject refreshToken m1
       = (Return (Some p), m1)).
Proof.
  intros Hs.
  assert (Hset : forall key, exists m1,
            set input key p (Number 0) m
            = (save_outcome input (with_store (store m1) m), m1) /\
            (truthy (persist input) = false ->
             set input key p (Number 0) m = (Return tt, m1)) /\
            sorted (store m1) /\
            forall now, get input now key m1 = (Return (Some p), m1)).
  { intros key.
    destruct (set_writes input key p (Number 0) (Some 0) m Hs eq_refl)
      as (m1 & n & Hset & Hs1 & Hn).
    exists m1. split; [exact Hset|]. split; [|split; [exact Hs1|]].
    - intros Hoff. rewrite Hset. f_equal. now apply save_outcome_off.
    - intros now.
      rewrite (get_present input now key m1 n _ _ Hs1 Hn (collate_refl _)).
      reflexivity. }
  split.
  - destruct (Hset (encode ["oauth:code"; code]))
      as (m1 & H1 & Hoff1 & Hs1 & Hget).
    exists m1. split; [exact H1|]. split; [exact Hoff1|].
    split; [exact Hget|].
    destruct (remove_makes_absent input (encode ["oauth:code"; code]) m1 Hs1)
      as (o & m2 & Hrm & Ho & Hs2 & Habs).
    exists o, m2. split; [exact Hrm|]. split; [exact Ho|]. split.
    + intros Hoff. destruct Ho as [Ho|(err & _ & Herr)]; [exact Ho|].
      rewrite save_outcome_off in Herr by exact Hoff. discriminate.
    + intros now. now apply get_absent.
  - destruct (Hset (encode ["oauth:refresh"; subject; refreshToken]))
      as (m1 & H1 & Hoff1 & _ & Hget).
    exists m1. split; [exact H1|]. split; [exact Hoff1|exact Hget].
Qed.

End ReadsAndFacade.

Section ReadsAndFacadeExamples.

Import Memory.
#[local] Existing Instance steady_disk.

(** A read of an expired row, loaded from a file, on a file system on
    which every write fails: the first [get] rejects, the second returns
    absent. *)
Lemma get_twice_witness :
  let m : @mem nat :=
    MemoryStorage_init persisting
      (Some [("k", {| value := 1%nat; expiry := Some 5 |})]) in
  (exists o m',
     get (C := ordinal_collator) (D := failing_disk) persisting 7 ["k"] m
     = (o, m') /\
     (exists r,
        get (C := ordinal_collator) (D := failing_disk) persisting 7 ["k"] m'
        = (Return r, m') /\
        (o = Return r \/
         (r = None /\
          exists err, o = Throw err /\
            save_outcome (D := failing_disk) persisting
              (with_store (store m') m) = Throw err))) /\
     (m' = m \/ absent (C := ordinal_collator) (store m') (joinKey ["k"]))) /\
  (get (C := ordinal_collator) (D := failing_disk) persisting 7 ["k"] m).1
  = Throw SystemError.
Proof.
  split; [|reflexivity].
  apply (get_twice (L := ordinal_collator_laws) (D := failing_disk)
           persisting 7 ["k"]).
  intros i j ri rj Hij Hi Hj. destruct i as [|i]; [|discriminate Hi].
  destruct j as [|j]; [lia|discriminate Hj].
Defined.

Lemma facade_round_trip_ttl_zero_witness :
  (exists m1,
     setAuthorizationCode (C := ordinal_collator) persisting "abc" 7%nat 0
       two_sessions
     = (save_outcome persisting (with_store (store m1) two_sessions), m1) /\
     (truthy (persist persisting) = false ->
      setAuthorizationCode (C := ordinal_collator) persisting "abc" 7%nat 0
        two_sessions = (Return tt, m1)) /\
     (forall now, getOauthCode (C := ordinal_collator) persisting now "abc" m1
                  = (Return (Some 7%nat), m1)) /\
     exists o m2,
       invalidateOauthCode (C := ordinal_collator) persisting "abc" m1
       = (o, m2) /\
       (o = Return tt \/
        exists err, o = Throw err /\
          save_outcome persisting (with_store (store m2) m1) = Throw err) /\
       (truthy (persist persisting) = false -> o = Return tt) /\
       forall now, getOauthCode (C := ordinal_collator) persisting now
                     "abc" m2 = (Return None, m2)) /\
  (exists m1,
     setRefreshToken (C := ordinal_collator) persisting "carol" "t9" 7%nat 0
       two_sessions
     = (save_outcome persisting (with_store (store m1) two_sessions), m1) /\
     (truthy (persist persisting) = false ->
      setRefreshToken (C := ordinal_collator) persisting "carol" "t9" 7%nat 0
        two_sessions = (Return tt, m1)) /\
     forall now,
       getRefreshToken (C := ordinal_collator) persisting now "carol" "t9" m1
       = (Return (Some 7%nat), m1)).
Proof.
  apply (facade_round_trip_ttl_zero (L := ordinal_collator_laws)).
  apply two_sessions_sorted.
Defined.

End ReadsAndFacadeExamples.
